(** * Chinchon rules engine: a shallow embedding of package [chinchon]

    The development follows the Go sources file by file:
    [chinchon.go] (piles, melds, deadwood, game state, [RunAction],
    the meld-candidate generator, scoring, the action codec),
    [actions.go] (the shared [act] part and the constructors),
    [action_draw_card.go], [action_discard_card.go] and
    [action_meld_cards.go] (which also holds the knock action).

    Conventions.
    - A Go [int] is a [Z]; where an addition can leave the 64-bit range
      its wrap-around is written with [int64_wrap].
    - A slice is a [list]; the top of a pile is the END of the list.
    - A function that can panic at run time (nil map entry, index out of
      range) returns [res], whose [Panic] is that panic.
    - A function with an [error] result returns the state it leaves
      behind together with [option error]. *)

From stdpp Require Import base option list gmap strings sorting.
From Stdlib Require Import ZArith Lia Ascii.

Local Open Scope string_scope.
Local Open Scope list_scope.
Local Open Scope Z_scope.

#[local] Set Warnings "-register-all".

(** ** Machine integers *)

Definition int64_wrap (z : Z) : Z := (z + 2 ^ 63) `mod` 2 ^ 64 - 2 ^ 63.

Definition is_int (z : Z) : Prop := - 2 ^ 63 <= z < 2 ^ 63.

(** ** Run-time panics *)

Inductive res (A : Type) : Type :=
| Ret (a : A)
| Panic.
Arguments Ret {A} a.
Arguments Panic {A}.

#[global] Instance res_ret : MRet res := fun A a => Ret a.

#[global] Instance res_bind : MBind res := fun A B k m =>
  match m with
  | Ret a => k a
  | Panic => Panic
  end.

(** A nil pointer or a missing index becomes a panic when dereferenced. *)
Definition deref {A} (o : option A) : res A :=
  match o with
  | Some a => Ret a
  | None => Panic
  end.

(** ** Constants of [chinchon.go] *)

Definition DefaultMaxPoints : Z := 100.

Definition DRAW_FROM_DRAW_PILE : string := "draw_from_draw_pile".
Definition DRAW_FROM_DISCARD_PILE : string := "draw_from_discard_pile".
Definition DISCARD_CARD : string := "discard_card".
Definition MELD_CARDS : string := "meld_cards".
Definition KNOCK : string := "knock".
Definition CONFIRM_ROUND_FINISHED : string := "confirm_round_finished".

(** ** Cards *)

(** Modelled from the spec: the declaration of [Card] is not among the
    sources.  The spec gives it as a value type [{Number: int, Suit}]
    compared by value; the code keys [map[string]] by [card.Suit], so the
    suit is a string. *)
Record Card : Type := mkCard { Number : Z; Suit : string }.

#[global] Instance Card_eq_dec : EqDecision Card.
Proof. solve_decision. Defined.

(** Modelled from the spec: [Hand] is not among the sources either; the
    code only uses its slice [Revealed]. *)
Record Hand : Type := mkHand { Revealed : list Card }.

(** ** Piles *)

Record Pile : Type := mkPile { Pile_Cards : list Card }.

Inductive pileError : Type := errPileIsEmpty.

Definition TopCard (p : Pile) : Card * option pileError :=
  match last (Pile_Cards p) with
  | None => (mkCard 0 "", Some errPileIsEmpty)
  | Some c => (c, None)
  end.

(** [DrawCard] returns the pile it leaves, the card and the error. *)
Definition DrawCard (p : Pile) : Pile * Card * option pileError :=
  match last (Pile_Cards p) with
  | None => (p, mkCard 0 "", Some errPileIsEmpty)
  | Some c => (mkPile (removelast (Pile_Cards p)), c, None)
  end.

Definition AddCard (p : Pile) (card : Card) : Pile :=
  mkPile (Pile_Cards p ++ [card]).

Definition IsEmpty (p : Pile) : bool :=
  bool_decide (length (Pile_Cards p) = 0%nat).

(** ** Melds *)

Definition MeldType : Type := string.
Definition MeldTypeSet : MeldType := "set".
Definition MeldTypeRun : MeldType := "run".

Record Meld : Type := mkMeld { Meld_Type : MeldType; Meld_Cards : list Card }.

(** ** [Meld.IsValid] *)

(** [sort.Ints] is the library's sort; it is taken as stdpp's [merge_sort],
    an ascending slice of ints being the same whatever the algorithm. *)
Definition sortInts (numbers : list Z) : list Z := merge_sort Z.le numbers.

(** [for i := 1; i < len(numbers); i++ { if numbers[i] != numbers[i-1]+1 ... }] *)
Fixpoint consecutiveIntsFrom (prev : Z) (rest : list Z) : bool :=
  match rest with
  | [] => true
  | n :: rest' => bool_decide (n = int64_wrap (prev + 1)) && consecutiveIntsFrom n rest'
  end.

Definition consecutiveInts (numbers : list Z) : bool :=
  match numbers with
  | [] => true
  | n :: rest => consecutiveIntsFrom n rest
  end.

(** The set case compares the cards after the first with the first one and
    does not look at the suits; the run case returns from inside the loop
    over the suits, before the numbers are sorted. *)
Definition Meld_IsValid (m : Meld) : bool :=
  if decide (Meld_Type m = MeldTypeSet) then
    match Meld_Cards m with
    | [] => false
    | first :: rest =>
        if bool_decide (length (Meld_Cards m) < 3)%nat then false
        else forallb (fun card => bool_decide (Number card = Number first)) rest
    end
  else if decide (Meld_Type m = MeldTypeRun) then
    match Meld_Cards m with
    | [] => false
    | first :: _ =>
        if bool_decide (length (Meld_Cards m) < 3)%nat then false
        else
          forallb (fun card => bool_decide (Suit card = Suit first)) (Meld_Cards m) &&
          consecutiveInts (sortInts (map Number (Meld_Cards m)))
    end
  else false.

(** ** Deadwood *)

(** The lookup table [meldedCards : map[Card]bool] is only ever asked
    whether a card is a key, so it is the list of all melded cards.

    No wrap-around is written for the sum: every summand lies in 1..10, and
    a slice long enough to carry the total past [2^63] does not fit a
    64-bit address space. *)
Definition meldedCards (melds : list Meld) : list Card :=
  concat (map Meld_Cards melds).

Definition cardPoints (card : Card) : Z :=
  if bool_decide (1 <= Number card) && bool_decide (Number card <= 7)
  then Number card else 10.

Definition calculateDeadwoodPoints (hand : list Card) (melds : list Meld) : Z :=
  fold_left
    (fun points card =>
       if bool_decide (card ∈ meldedCards melds) then points
       else points + cardPoints card)
    hand 0.

(** ** UTF-8, as [encoding/json] coerces it

    A Go string is any sequence of bytes.  [json.Marshal] writes a string
    byte by byte through [utf8.DecodeRune] and puts U+FFFD in the place of
    every byte at which no encoding starts; [json.Unmarshal] hands a string
    literal over after the same coercion. *)

Definition inRange (lo hi : N) (c : ascii) : bool :=
  (lo <=? N_of_ascii c)%N && (N_of_ascii c <=? hi)%N.

Definition continuation : ascii -> bool := inRange 0x80 0xBF.

(** The table [first] of [unicode/utf8]: the length of the encoding that a
    byte of 0x80 or more starts and the range its second byte must lie in;
    length 0 for a byte that starts none. *)
Definition firstByte (p0 : ascii) : nat * (N * N) :=
  if inRange 0xC2 0xDF p0 then (2%nat, (0x80, 0xBF)%N)
  else if inRange 0xE0 0xE0 p0 then (3%nat, (0xA0, 0xBF)%N)
  else if inRange 0xE1 0xEC p0 then (3%nat, (0x80, 0xBF)%N)
  else if inRange 0xED 0xED p0 then (3%nat, (0x80, 0x9F)%N)
  else if inRange 0xEE 0xEF p0 then (3%nat, (0x80, 0xBF)%N)
  else if inRange 0xF0 0xF0 p0 then (4%nat, (0x90, 0xBF)%N)
  else if inRange 0xF1 0xF3 p0 then (4%nat, (0x80, 0xBF)%N)
  else if inRange 0xF4 0xF4 p0 then (4%nat, (0x80, 0x8F)%N)
  else (0%nat, (0, 0)%N).

(** The size that [utf8.DecodeRune] returns with the rune at the head of
    [s]; 0 where it returns [(RuneError, 1)], the case in which the
    encoder writes U+FFFD for the one byte. *)
Definition runeLen (s : string) : nat :=
  match s with
  | "" => 0%nat
  | String p0 rest =>
      if inRange 0x00 0x7F p0 then 1%nat
      else
        let '(size, (lo, hi)) := firstByte p0 in
        match size, rest with
        | 2%nat, String p1 _ => if inRange lo hi p1 then 2%nat else 0%nat
        | 3%nat, String p1 (String p2 _) =>
            if inRange lo hi p1 && continuation p2 then 3%nat else 0%nat
        | 4%nat, String p1 (String p2 (String p3 _)) =>
            if inRange lo hi p1 && continuation p2 && continuation p3
            then 4%nat else 0%nat
        | _, _ => 0%nat
        end
  end.

(** U+FFFD in UTF-8: the bytes EF BF BD. *)
Definition replacementChar : string :=
  String (ascii_of_N 0xEF) (String (ascii_of_N 0xBF) (String (ascii_of_N 0xBD) "")).

(** The loop over the bytes; [pending] counts the bytes still to copy of
    the encoding the loop is in. *)
Fixpoint coerceFrom (pending : nat) (s : string) : string :=
  match s with
  | "" => ""
  | String c rest =>
      match pending with
      | S n => String c (coerceFrom n rest)
      | O =>
          match runeLen s with
          | O => replacementChar +:+ coerceFrom 0 rest
          | S n => String c (coerceFrom n rest)
          end
      end
  end.

Definition toValidUTF8 (s : string) : string := coerceFrom 0 s.

(** ** Serialized values

    [json.RawMessage] and the [[]byte] of the codec are modelled one level
    above the text: as the JSON value that the bytes denote.  (Bytes that
    denote none, or a value nested deeper than the scanner allows, make
    the first [json.Unmarshal] of [DeserializeAction] fail before any code
    of the codec looks at them.)  A string and a key are the bytes of the
    literal with its escapes resolved; a number is an integer literal,
    [JNumber], or a literal with a fraction or an exponent, [JFraction],
    which no field of the codec takes.

    What follows up to [unmarshalCards] is the behaviour of
    [encoding/json] on which the codec relies.  Writing: a struct becomes
    an object with one member per exported field, in declaration order,
    the fields of an embedded struct first; a string is coerced to valid
    UTF-8.  Reading a struct: the members are walked in order; a key names
    a field when the two are equal after folding (so without regard to
    case); each member whose key names a field is decoded into that
    field, on top of what an earlier member left there; other keys are
    skipped; [null] leaves a field alone, or empties a slice; a member of
    the wrong JSON type fails, as does a number that is no [int]. *)

Inductive json : Type :=
| JNull
| JBool (b : bool)
| JNumber (z : Z)
| JFraction (literal : string)
| JString (s : string)
| JArray (items : list json)
| JObject (members : list (string * json)).

(** [foldName] of [encoding/json], as far as a key can come to name a field
    with an ASCII name: the letters a-z fold to A-Z, U+017F (long s, bytes
    C5 BF) to S and U+212A (Kelvin sign, bytes E2 84 AA) to K; these are
    all the runes that Unicode's simple folding joins with an ASCII
    letter.  Any other rune folds to a rune outside ASCII and is left as
    it is here. *)
Definition foldByte (c : ascii) : ascii :=
  if inRange 0x61 0x7A c then ascii_of_N (N_of_ascii c - 0x20) else c.

Fixpoint foldName (s : string) : string :=
  match s with
  | "" => ""
  | String c rest =>
      match rest with
      | String c1 rest1 =>
          if inRange 0xC5 0xC5 c && inRange 0xBF 0xBF c1
          then String "S" (foldName rest1)
          else
            match rest1 with
            | String c2 rest2 =>
                if inRange 0xE2 0xE2 c && inRange 0x84 0x84 c1 && inRange 0xAA 0xAA c2
                then String "K" (foldName rest2)
                else String (foldByte c) (foldName rest)
            | "" => String (foldByte c) (foldName rest)
            end
      | "" => String (foldByte c) ""
      end
  end.

(** Whether the key of a member names the field with the JSON name
    [field].  No two fields of one struct of the codec fold to the same
    name, so the preference of the decoder for an exact match decides
    nothing. *)
Definition namesField (field key : string) : bool :=
  bool_decide (foldName (toValidUTF8 key) = foldName field).

Definition unmarshalMembers (bs : json) : option (list (string * json)) :=
  match bs with
  | JObject members => Some members
  | JNull => Some []
  | _ => None
  end.

Definition unmarshalField {A} (dec : json -> A -> option A) (field : string)
    (members : list (string * json)) (zero : A) : option A :=
  foldl (fun acc kv =>
           match acc with
           | Some a => if namesField field kv.1 then dec kv.2 a else Some a
           | None => None
           end)
        (Some zero) members.

Definition marshalString (s : string) : json := JString (toValidUTF8 s).

Definition unmarshalString (v : json) (old : string) : option string :=
  match v with
  | JNull => Some old
  | JString s => Some (toValidUTF8 s)
  | _ => None
  end.

Definition unmarshalInt (v : json) (old : Z) : option Z :=
  match v with
  | JNull => Some old
  | JNumber z =>
      if bool_decide (- 2 ^ 63 <= z) && bool_decide (z < 2 ^ 63)
      then Some z else None
  | _ => None
  end.

(** Modelled from the spec: the JSON keys of [Card] are part of its missing
    declaration; the lower-case field names are used. *)
Definition marshalCard (c : Card) : json :=
  JObject [("number", JNumber (Number c)); ("suit", marshalString (Suit c))].

Definition unmarshalCard (v : json) (old : Card) : option Card :=
  match v with
  | JNull => Some old
  | JObject members =>
      match unmarshalField unmarshalInt "number" members (Number old),
            unmarshalField unmarshalString "suit" members (Suit old) with
      | Some n, Some s => Some (mkCard n s)
      | _, _ => None
      end
  | _ => None
  end.

(** A slice is written as an array.  (A nil slice, which is the same empty
    list here, is written as [null]; [unmarshalCards] reads both as the
    empty list.) *)
Definition marshalCards (cards : list Card) : json :=
  JArray (map marshalCard cards).

(** A [[]Card] while it is being decoded: the slice, and what its backing
    array still holds behind it from a longer value decoded before. *)
Record cardSlice : Type := mkCardSlice { slice : list Card; behind : list Card }.

(** The loop of the decoder over an array: element [i] is decoded into slot
    [i] of the backing array, on top of the card that the slot holds
    ([backing] lists the slots that were written before; the others hold
    the zero card). *)
Fixpoint unmarshalCardItems (items : list json) (backing : list Card)
    : option (list Card) :=
  match items with
  | [] => Some []
  | v :: rest =>
      match unmarshalCard v (hd (mkCard 0 "") backing),
            unmarshalCardItems rest (tl backing) with
      | Some c, Some cs => Some (c :: cs)
      | _, _ => None
      end
  end.

(** [null] sets the slice to nil and an empty array sets it to a fresh empty
    slice; any other array is decoded in place and the slice cut to its
    length, the slots behind staying as they are. *)
Definition unmarshalCards (v : json) (old : cardSlice) : option cardSlice :=
  match v with
  | JNull | JArray [] => Some (mkCardSlice [] [])
  | JArray items =>
      let backing := slice old ++ behind old in
      cards ← unmarshalCardItems items backing;
      Some (mkCardSlice cards (drop (length items) backing))
  | _ => None
  end.

(** ** Actions ([actions.go]) *)

Record act : Type := mkAct { Name : string; PlayerID : Z }.

(** The interface [Action] with its six implementations, as a closed
    variant.  A nil [Action] is [None] of [option Action]. *)
Inductive Action : Type :=
| ActionDrawFromDrawPile (a : act)
| ActionDrawFromDiscardPile (a : act)
| ActionDiscardCard (a : act) (card : Card)
| ActionMeldCards (a : act) (cards : list Card) (meldType : MeldType)
| ActionKnock (a : act)
| ActionConfirmRoundFinished (a : act).

Definition act_of (action : Action) : act :=
  match action with
  | ActionDrawFromDrawPile a | ActionDrawFromDiscardPile a
  | ActionDiscardCard a _ | ActionMeldCards a _ _
  | ActionKnock a | ActionConfirmRoundFinished a => a
  end.

Definition GetName (action : Action) : string := Name (act_of action).
Definition GetPlayerID (action : Action) : Z := PlayerID (act_of action).
Definition GetPriority (action : Action) : Z := 0.
Definition AllowLowerPriority (action : Action) : bool := false.

Definition NewActionDrawFromDrawPile (playerID : Z) : Action :=
  ActionDrawFromDrawPile (mkAct DRAW_FROM_DRAW_PILE playerID).
Definition NewActionDrawFromDiscardPile (playerID : Z) : Action :=
  ActionDrawFromDiscardPile (mkAct DRAW_FROM_DISCARD_PILE playerID).
Definition NewActionDiscardCard (card : Card) (playerID : Z) : Action :=
  ActionDiscardCard (mkAct DISCARD_CARD playerID) card.
Definition NewActionMeldCards (cards : list Card) (meldType : MeldType)
    (playerID : Z) : Action :=
  ActionMeldCards (mkAct MELD_CARDS playerID) cards meldType.
Definition NewActionKnock (playerID : Z) : Action :=
  ActionKnock (mkAct KNOCK playerID).
(** Modelled from the spec: the type [ActionConfirmRoundFinished] is not
    among the sources; its constructor in [actions.go] fills the embedded
    [act] only. *)
Definition NewActionConfirmRoundFinished (playerID : Z) : Action :=
  ActionConfirmRoundFinished (mkAct CONFIRM_ROUND_FINISHED playerID).

(** ** The action codec ([SerializeAction], [DeserializeAction]) *)

Definition marshalAct (a : act) : list (string * json) :=
  [("name", marshalString (Name a)); ("playerID", JNumber (PlayerID a))].

Definition SerializeAction (action : Action) : json :=
  match action with
  | ActionDrawFromDrawPile a | ActionDrawFromDiscardPile a
  | ActionKnock a | ActionConfirmRoundFinished a => JObject (marshalAct a)
  | ActionDiscardCard a card =>
      JObject (marshalAct a ++ [("card", marshalCard card)])
  | ActionMeldCards a cards meldType =>
      JObject (marshalAct a ++
               [("cards", marshalCards cards); ("meldType", marshalString meldType)])
  end.

Inductive codecError : Type :=
| errUnmarshal
| errUnknownAction (bs : json).

Inductive decoded (A : Type) : Type :=
| Decoded (a : A)
| Failed (err : codecError).
Arguments Decoded {A} a.
Arguments Failed {A} err.

(** The first [json.Unmarshal], into [struct { Name string }]. *)
Definition unmarshalActionName (bs : json) : option string :=
  members ← unmarshalMembers bs;
  unmarshalField unmarshalString "name" members "".

Definition unmarshalAct (members : list (string * json)) : option act :=
  name ← unmarshalField unmarshalString "name" members "";
  playerID ← unmarshalField unmarshalInt "playerID" members 0;
  Some (mkAct name playerID).

(** The second [json.Unmarshal], into the variant chosen by the name. *)
Definition unmarshalInto (name : string) (bs : json) : option (option Action) :=
  if decide (name = DRAW_FROM_DRAW_PILE) then
    Some (members ← unmarshalMembers bs; a ← unmarshalAct members;
          Some (ActionDrawFromDrawPile a))
  else if decide (name = DRAW_FROM_DISCARD_PILE) then
    Some (members ← unmarshalMembers bs; a ← unmarshalAct members;
          Some (ActionDrawFromDiscardPile a))
  else if decide (name = DISCARD_CARD) then
    Some (members ← unmarshalMembers bs; a ← unmarshalAct members;
          card ← unmarshalField unmarshalCard "card" members (mkCard 0 "");
          Some (ActionDiscardCard a card))
  else if decide (name = MELD_CARDS) then
    Some (members ← unmarshalMembers bs; a ← unmarshalAct members;
          cards ← unmarshalField unmarshalCards "cards" members (mkCardSlice [] []);
          meldType ← unmarshalField unmarshalString "meldType" members "";
          Some (ActionMeldCards a (slice cards) meldType))
  else if decide (name = KNOCK) then
    Some (members ← unmarshalMembers bs; a ← unmarshalAct members;
          Some (ActionKnock a))
  else if decide (name = CONFIRM_ROUND_FINISHED) then
    Some (members ← unmarshalMembers bs; a ← unmarshalAct members;
          Some (ActionConfirmRoundFinished a))
  else None.

Definition DeserializeAction (bs : json) : decoded Action :=
  match unmarshalActionName bs with
  | None => Failed errUnmarshal
  | Some name =>
      match unmarshalInto name bs with
      | None => Failed (errUnknownAction bs)
      | Some None => Failed errUnmarshal
      | Some (Some action) => Decoded action
      end
  end.

Definition _serializeActions (actions : list Action) : list json :=
  map SerializeAction actions.

(** ** Game state ([chinchon.go]) *)

Record Player : Type := mkPlayer {
  Player_Hand : Hand;
  Melds : list Meld;
  Score : Z }.

(** [Players map[int]*Player] holds exactly the keys 0 and 1: [New] creates
    them, and no code adds or deletes a key or stores nil.  Any other key
    reads as nil. *)
Record PlayerMap : Type := mkPlayers { Player0 : Player; Player1 : Player }.

Record ActionLog : Type := mkActionLog {
  ActionLog_PlayerID : Z;
  ActionLog_Action : json }.

(** [HandsDealt] holds pointers to the very [Hand] objects of the players
    of that round, so it carries nothing beyond them and is left out; no
    function here reads it.  [MeldsDealt] is the map literal as a list of
    key-value pairs. *)
Record RoundLog : Type := mkRoundLog {
  MeldsDealt : list (Z * list Meld);
  RoundLog_KnockedPlayerID : Z;
  RoundLog_WinnerPlayerID : Z;
  LoserPlayerID : Z;
  WinnerDeadwoodPoints : Z;
  LoserDeadwoodPoints : Z;
  PointsAwarded : Z;
  ActionsLog : list ActionLog }.

(** The zero value [RoundLog{}] that [New] puts at index 0. *)
Definition emptyRoundLog : RoundLog := mkRoundLog [] 0 0 0 0 0 0 [].

Record GameState : Type := mkGameState {
  RoundNumber : Z;
  TurnPlayerID : Z;
  TurnOpponentPlayerID : Z;
  Players : PlayerMap;
  PossibleActions : list json;
  DrawPile : Pile;
  DiscardPile : Pile;
  HasDrawnThisTurn : bool;
  HasDiscardedThisTurn : bool;
  KnockedPlayerID : Z;
  IsRoundFinished : bool;
  IsGameEnded : bool;
  WinnerPlayerID : Z;
  RoundsLog : list RoundLog;
  RoundFinishedConfirmedPlayerIDs : gmap Z bool;
  RuleMaxPoints : Z;
  deck : list Card }.

(** Field updates. *)
Definition set_RoundNumber (v : Z) (g : GameState) : GameState :=
  {| RoundNumber := v; TurnPlayerID := TurnPlayerID g;
     TurnOpponentPlayerID := TurnOpponentPlayerID g; Players := Players g;
     PossibleActions := PossibleActions g; DrawPile := DrawPile g;
     DiscardPile := DiscardPile g; HasDrawnThisTurn := HasDrawnThisTurn g;
     HasDiscardedThisTurn := HasDiscardedThisTurn g; KnockedPlayerID := KnockedPlayerID g;
     IsRoundFinished := IsRoundFinished g; IsGameEnded := IsGameEnded g;
     WinnerPlayerID := WinnerPlayerID g; RoundsLog := RoundsLog g;
     RoundFinishedConfirmedPlayerIDs := RoundFinishedConfirmedPlayerIDs g;
     RuleMaxPoints := RuleMaxPoints g; deck := deck g |}.
Definition set_TurnPlayerID (v : Z) (g : GameState) : GameState :=
  {| RoundNumber := RoundNumber g; TurnPlayerID := v;
     TurnOpponentPlayerID := TurnOpponentPlayerID g; Players := Players g;
     PossibleActions := PossibleActions g; DrawPile := DrawPile g;
     DiscardPile := DiscardPile g; HasDrawnThisTurn := HasDrawnThisTurn g;
     HasDiscardedThisTurn := HasDiscardedThisTurn g; KnockedPlayerID := KnockedPlayerID g;
     IsRoundFinished := IsRoundFinished g; IsGameEnded := IsGameEnded g;
     WinnerPlayerID := WinnerPlayerID g; RoundsLog := RoundsLog g;
     RoundFinishedConfirmedPlayerIDs := RoundFinishedConfirmedPlayerIDs g;
     RuleMaxPoints := RuleMaxPoints g; deck := deck g |}.
Definition set_TurnOpponentPlayerID (v : Z) (g : GameState) : GameState :=
  {| RoundNumber := RoundNumber g; TurnPlayerID := TurnPlayerID g; TurnOpponentPlayerID := v;
     Players := Players g; PossibleActions := PossibleActions g; DrawPile := DrawPile g;
     DiscardPile := DiscardPile g; HasDrawnThisTurn := HasDrawnThisTurn g;
     HasDiscardedThisTurn := HasDiscardedThisTurn g; KnockedPlayerID := KnockedPlayerID g;
     IsRoundFinished := IsRoundFinished g; IsGameEnded := IsGameEnded g;
     WinnerPlayerID := WinnerPlayerID g; RoundsLog := RoundsLog g;
     RoundFinishedConfirmedPlayerIDs := RoundFinishedConfirmedPlayerIDs g;
     RuleMaxPoints := RuleMaxPoints g; deck := deck g |}.
Definition set_Players (v : PlayerMap) (g : GameState) : GameState :=
  {| RoundNumber := RoundNumber g; TurnPlayerID := TurnPlayerID g;
     TurnOpponentPlayerID := TurnOpponentPlayerID g; Players := v;
     PossibleActions := PossibleActions g; DrawPile := DrawPile g;
     DiscardPile := DiscardPile g; HasDrawnThisTurn := HasDrawnThisTurn g;
     HasDiscardedThisTurn := HasDiscardedThisTurn g; KnockedPlayerID := KnockedPlayerID g;
     IsRoundFinished := IsRoundFinished g; IsGameEnded := IsGameEnded g;
     WinnerPlayerID := WinnerPlayerID g; RoundsLog := RoundsLog g;
     RoundFinishedConfirmedPlayerIDs := RoundFinishedConfirmedPlayerIDs g;
     RuleMaxPoints := RuleMaxPoints g; deck := deck g |}.
Definition set_PossibleActions (v : list json) (g : GameState) : GameState :=
  {| RoundNumber := RoundNumber g; TurnPlayerID := TurnPlayerID g;
     TurnOpponentPlayerID := TurnOpponentPlayerID g; Players := Players g;
     PossibleActions := v; DrawPile := DrawPile g; DiscardPile := DiscardPile g;
     HasDrawnThisTurn := HasDrawnThisTurn g; HasDiscardedThisTurn := HasDiscardedThisTurn g;
     KnockedPlayerID := KnockedPlayerID g; IsRoundFinished := IsRoundFinished g;
     IsGameEnded := IsGameEnded g; WinnerPlayerID := WinnerPlayerID g;
     RoundsLog := RoundsLog g;
     RoundFinishedConfirmedPlayerIDs := RoundFinishedConfirmedPlayerIDs g;
     RuleMaxPoints := RuleMaxPoints g; deck := deck g |}.
Definition set_DrawPile (v : Pile) (g : GameState) : GameState :=
  {| RoundNumber := RoundNumber g; TurnPlayerID := TurnPlayerID g;
     TurnOpponentPlayerID := TurnOpponentPlayerID g; Players := Players g;
     PossibleActions := PossibleActions g; DrawPile := v; DiscardPile := DiscardPile g;
     HasDrawnThisTurn := HasDrawnThisTurn g; HasDiscardedThisTurn := HasDiscardedThisTurn g;
     KnockedPlayerID := KnockedPlayerID g; IsRoundFinished := IsRoundFinished g;
     IsGameEnded := IsGameEnded g; WinnerPlayerID := WinnerPlayerID g;
     RoundsLog := RoundsLog g;
     RoundFinishedConfirmedPlayerIDs := RoundFinishedConfirmedPlayerIDs g;
     RuleMaxPoints := RuleMaxPoints g; deck := deck g |}.
Definition set_DiscardPile (v : Pile) (g : GameState) : GameState :=
  {| RoundNumber := RoundNumber g; TurnPlayerID := TurnPlayerID g;
     TurnOpponentPlayerID := TurnOpponentPlayerID g; Players := Players g;
     PossibleActions := PossibleActions g; DrawPile := DrawPile g; DiscardPile := v;
     HasDrawnThisTurn := HasDrawnThisTurn g; HasDiscardedThisTurn := HasDiscardedThisTurn g;
     KnockedPlayerID := KnockedPlayerID g; IsRoundFinished := IsRoundFinished g;
     IsGameEnded := IsGameEnded g; WinnerPlayerID := WinnerPlayerID g;
     RoundsLog := RoundsLog g;
     RoundFinishedConfirmedPlayerIDs := RoundFinishedConfirmedPlayerIDs g;
     RuleMaxPoints := RuleMaxPoints g; deck := deck g |}.
Definition set_HasDrawnThisTurn (v : bool) (g : GameState) : GameState :=
  {| RoundNumber := RoundNumber g; TurnPlayerID := TurnPlayerID g;
     TurnOpponentPlayerID := TurnOpponentPlayerID g; Players := Players g;
     PossibleActions := PossibleActions g; DrawPile := DrawPile g;
     DiscardPile := DiscardPile g; HasDrawnThisTurn := v;
     HasDiscardedThisTurn := HasDiscardedThisTurn g; KnockedPlayerID := KnockedPlayerID g;
     IsRoundFinished := IsRoundFinished g; IsGameEnded := IsGameEnded g;
     WinnerPlayerID := WinnerPlayerID g; RoundsLog := RoundsLog g;
     RoundFinishedConfirmedPlayerIDs := RoundFinishedConfirmedPlayerIDs g;
     RuleMaxPoints := RuleMaxPoints g; deck := deck g |}.
Definition set_HasDiscardedThisTurn (v : bool) (g : GameState) : GameState :=
  {| RoundNumber := RoundNumber g; TurnPlayerID := TurnPlayerID g;
     TurnOpponentPlayerID := TurnOpponentPlayerID g; Players := Players g;
     PossibleActions := PossibleActions g; DrawPile := DrawPile g;
     DiscardPile := DiscardPile g; HasDrawnThisTurn := HasDrawnThisTurn g;
     HasDiscardedThisTurn := v; KnockedPlayerID := KnockedPlayerID g;
     IsRoundFinished := IsRoundFinished g; IsGameEnded := IsGameEnded g;
     WinnerPlayerID := WinnerPlayerID g; RoundsLog := RoundsLog g;
     RoundFinishedConfirmedPlayerIDs := RoundFinishedConfirmedPlayerIDs g;
     RuleMaxPoints := RuleMaxPoints g; deck := deck g |}.
Definition set_KnockedPlayerID (v : Z) (g : GameState) : GameState :=
  {| RoundNumber := RoundNumber g; TurnPlayerID := TurnPlayerID g;
     TurnOpponentPlayerID := TurnOpponentPlayerID g; Players := Players g;
     PossibleActions := PossibleActions g; DrawPile := DrawPile g;
     DiscardPile := DiscardPile g; HasDrawnThisTurn := HasDrawnThisTurn g;
     HasDiscardedThisTurn := HasDiscardedThisTurn g; KnockedPlayerID := v;
     IsRoundFinished := IsRoundFinished g; IsGameEnded := IsGameEnded g;
     WinnerPlayerID := WinnerPlayerID g; RoundsLog := RoundsLog g;
     RoundFinishedConfirmedPlayerIDs := RoundFinishedConfirmedPlayerIDs g;
     RuleMaxPoints := RuleMaxPoints g; deck := deck g |}.
Definition set_IsRoundFinished (v : bool) (g : GameState) : GameState :=
  {| RoundNumber := RoundNumber g; TurnPlayerID := TurnPlayerID g;
     TurnOpponentPlayerID := TurnOpponentPlayerID g; Players := Players g;
     PossibleActions := PossibleActions g; DrawPile := DrawPile g;
     DiscardPile := DiscardPile g; HasDrawnThisTurn := HasDrawnThisTurn g;
     HasDiscardedThisTurn := HasDiscardedThisTurn g; KnockedPlayerID := KnockedPlayerID g;
     IsRoundFinished := v; IsGameEnded := IsGameEnded g; WinnerPlayerID := WinnerPlayerID g;
     RoundsLog := RoundsLog g;
     RoundFinishedConfirmedPlayerIDs := RoundFinishedConfirmedPlayerIDs g;
     RuleMaxPoints := RuleMaxPoints g; deck := deck g |}.
Definition set_IsGameEnded (v : bool) (g : GameState) : GameState :=
  {| RoundNumber := RoundNumber g; TurnPlayerID := TurnPlayerID g;
     TurnOpponentPlayerID := TurnOpponentPlayerID g; Players := Players g;
     PossibleActions := PossibleActions g; DrawPile := DrawPile g;
     DiscardPile := DiscardPile g; HasDrawnThisTurn := HasDrawnThisTurn g;
     HasDiscardedThisTurn := HasDiscardedThisTurn g; KnockedPlayerID := KnockedPlayerID g;
     IsRoundFinished := IsRoundFinished g; IsGameEnded := v;
     WinnerPlayerID := WinnerPlayerID g; RoundsLog := RoundsLog g;
     RoundFinishedConfirmedPlayerIDs := RoundFinishedConfirmedPlayerIDs g;
     RuleMaxPoints := RuleMaxPoints g; deck := deck g |}.
Definition set_WinnerPlayerID (v : Z) (g : GameState) : GameState :=
  {| RoundNumber := RoundNumber g; TurnPlayerID := TurnPlayerID g;
     TurnOpponentPlayerID := TurnOpponentPlayerID g; Players := Players g;
     PossibleActions := PossibleActions g; DrawPile := DrawPile g;
     DiscardPile := DiscardPile g; HasDrawnThisTurn := HasDrawnThisTurn g;
     HasDiscardedThisTurn := HasDiscardedThisTurn g; KnockedPlayerID := KnockedPlayerID g;
     IsRoundFinished := IsRoundFinished g; IsGameEnded := IsGameEnded g; WinnerPlayerID := v;
     RoundsLog := RoundsLog g;
     RoundFinishedConfirmedPlayerIDs := RoundFinishedConfirmedPlayerIDs g;
     RuleMaxPoints := RuleMaxPoints g; deck := deck g |}.
Definition set_RoundsLog (v : list RoundLog) (g : GameState) : GameState :=
  {| RoundNumber := RoundNumber g; TurnPlayerID := TurnPlayerID g;
     TurnOpponentPlayerID := TurnOpponentPlayerID g; Players := Players g;
     PossibleActions := PossibleActions g; DrawPile := DrawPile g;
     DiscardPile := DiscardPile g; HasDrawnThisTurn := HasDrawnThisTurn g;
     HasDiscardedThisTurn := HasDiscardedThisTurn g; KnockedPlayerID := KnockedPlayerID g;
     IsRoundFinished := IsRoundFinished g; IsGameEnded := IsGameEnded g;
     WinnerPlayerID := WinnerPlayerID g; RoundsLog := v;
     RoundFinishedConfirmedPlayerIDs := RoundFinishedConfirmedPlayerIDs g;
     RuleMaxPoints := RuleMaxPoints g; deck := deck g |}.
Definition set_RoundFinishedConfirmedPlayerIDs (v : gmap Z bool) (g : GameState) : GameState :=
  {| RoundNumber := RoundNumber g; TurnPlayerID := TurnPlayerID g;
     TurnOpponentPlayerID := TurnOpponentPlayerID g; Players := Players g;
     PossibleActions := PossibleActions g; DrawPile := DrawPile g;
     DiscardPile := DiscardPile g; HasDrawnThisTurn := HasDrawnThisTurn g;
     HasDiscardedThisTurn := HasDiscardedThisTurn g; KnockedPlayerID := KnockedPlayerID g;
     IsRoundFinished := IsRoundFinished g; IsGameEnded := IsGameEnded g;
     WinnerPlayerID := WinnerPlayerID g; RoundsLog := RoundsLog g;
     RoundFinishedConfirmedPlayerIDs := v; RuleMaxPoints := RuleMaxPoints g; deck := deck g |}.
Definition set_RuleMaxPoints (v : Z) (g : GameState) : GameState :=
  {| RoundNumber := RoundNumber g; TurnPlayerID := TurnPlayerID g;
     TurnOpponentPlayerID := TurnOpponentPlayerID g; Players := Players g;
     PossibleActions := PossibleActions g; DrawPile := DrawPile g;
     DiscardPile := DiscardPile g; HasDrawnThisTurn := HasDrawnThisTurn g;
     HasDiscardedThisTurn := HasDiscardedThisTurn g; KnockedPlayerID := KnockedPlayerID g;
     IsRoundFinished := IsRoundFinished g; IsGameEnded := IsGameEnded g;
     WinnerPlayerID := WinnerPlayerID g; RoundsLog := RoundsLog g;
     RoundFinishedConfirmedPlayerIDs := RoundFinishedConfirmedPlayerIDs g; RuleMaxPoints := v;
     deck := deck g |}.
Definition set_deck (v : list Card) (g : GameState) : GameState :=
  {| RoundNumber := RoundNumber g; TurnPlayerID := TurnPlayerID g;
     TurnOpponentPlayerID := TurnOpponentPlayerID g; Players := Players g;
     PossibleActions := PossibleActions g; DrawPile := DrawPile g;
     DiscardPile := DiscardPile g; HasDrawnThisTurn := HasDrawnThisTurn g;
     HasDiscardedThisTurn := HasDiscardedThisTurn g; KnockedPlayerID := KnockedPlayerID g;
     IsRoundFinished := IsRoundFinished g; IsGameEnded := IsGameEnded g;
     WinnerPlayerID := WinnerPlayerID g; RoundsLog := RoundsLog g;
     RoundFinishedConfirmedPlayerIDs := RoundFinishedConfirmedPlayerIDs g;
     RuleMaxPoints := RuleMaxPoints g; deck := v |}.
Definition set_MeldsDealt (v : list (Z * list Meld)) (r : RoundLog) : RoundLog :=
  {| MeldsDealt := v; RoundLog_KnockedPlayerID := RoundLog_KnockedPlayerID r;
     RoundLog_WinnerPlayerID := RoundLog_WinnerPlayerID r; LoserPlayerID := LoserPlayerID r;
     WinnerDeadwoodPoints := WinnerDeadwoodPoints r;
     LoserDeadwoodPoints := LoserDeadwoodPoints r; PointsAwarded := PointsAwarded r;
     ActionsLog := ActionsLog r |}.
Definition set_RoundLog_KnockedPlayerID (v : Z) (r : RoundLog) : RoundLog :=
  {| MeldsDealt := MeldsDealt r; RoundLog_KnockedPlayerID := v;
     RoundLog_WinnerPlayerID := RoundLog_WinnerPlayerID r; LoserPlayerID := LoserPlayerID r;
     WinnerDeadwoodPoints := WinnerDeadwoodPoints r;
     LoserDeadwoodPoints := LoserDeadwoodPoints r; PointsAwarded := PointsAwarded r;
     ActionsLog := ActionsLog r |}.
Definition set_RoundLog_WinnerPlayerID (v : Z) (r : RoundLog) : RoundLog :=
  {| MeldsDealt := MeldsDealt r; RoundLog_KnockedPlayerID := RoundLog_KnockedPlayerID r;
     RoundLog_WinnerPlayerID := v; LoserPlayerID := LoserPlayerID r;
     WinnerDeadwoodPoints := WinnerDeadwoodPoints r;
     LoserDeadwoodPoints := LoserDeadwoodPoints r; PointsAwarded := PointsAwarded r;
     ActionsLog := ActionsLog r |}.
Definition set_LoserPlayerID (v : Z) (r : RoundLog) : RoundLog :=
  {| MeldsDealt := MeldsDealt r; RoundLog_KnockedPlayerID := RoundLog_KnockedPlayerID r;
     RoundLog_WinnerPlayerID := RoundLog_WinnerPlayerID r; LoserPlayerID := v;
     WinnerDeadwoodPoints := WinnerDeadwoodPoints r;
     LoserDeadwoodPoints := LoserDeadwoodPoints r; PointsAwarded := PointsAwarded r;
     ActionsLog := ActionsLog r |}.
Definition set_WinnerDeadwoodPoints (v : Z) (r : RoundLog) : RoundLog :=
  {| MeldsDealt := MeldsDealt r; RoundLog_KnockedPlayerID := RoundLog_KnockedPlayerID r;
     RoundLog_WinnerPlayerID := RoundLog_WinnerPlayerID r; LoserPlayerID := LoserPlayerID r;
     WinnerDeadwoodPoints := v; LoserDeadwoodPoints := LoserDeadwoodPoints r;
     PointsAwarded := PointsAwarded r; ActionsLog := ActionsLog r |}.
Definition set_LoserDeadwoodPoints (v : Z) (r : RoundLog) : RoundLog :=
  {| MeldsDealt := MeldsDealt r; RoundLog_KnockedPlayerID := RoundLog_KnockedPlayerID r;
     RoundLog_WinnerPlayerID := RoundLog_WinnerPlayerID r; LoserPlayerID := LoserPlayerID r;
     WinnerDeadwoodPoints := WinnerDeadwoodPoints r; LoserDeadwoodPoints := v;
     PointsAwarded := PointsAwarded r; ActionsLog := ActionsLog r |}.
Definition set_PointsAwarded (v : Z) (r : RoundLog) : RoundLog :=
  {| MeldsDealt := MeldsDealt r; RoundLog_KnockedPlayerID := RoundLog_KnockedPlayerID r;
     RoundLog_WinnerPlayerID := RoundLog_WinnerPlayerID r; LoserPlayerID := LoserPlayerID r;
     WinnerDeadwoodPoints := WinnerDeadwoodPoints r;
     LoserDeadwoodPoints := LoserDeadwoodPoints r; PointsAwarded := v;
     ActionsLog := ActionsLog r |}.
Definition set_ActionsLog (v : list ActionLog) (r : RoundLog) : RoundLog :=
  {| MeldsDealt := MeldsDealt r; RoundLog_KnockedPlayerID := RoundLog_KnockedPlayerID r;
     RoundLog_WinnerPlayerID := RoundLog_WinnerPlayerID r; LoserPlayerID := LoserPlayerID r;
     WinnerDeadwoodPoints := WinnerDeadwoodPoints r;
     LoserDeadwoodPoints := LoserDeadwoodPoints r; PointsAwarded := PointsAwarded r;
     ActionsLog := v |}.

Definition getPlayer (g : GameState) (playerID : Z) : option Player :=
  if decide (playerID = 0) then Some (Player0 (Players g))
  else if decide (playerID = 1) then Some (Player1 (Players g))
  else None.

Definition setPlayer (playerID : Z) (p : Player) (g : GameState) : GameState :=
  if decide (playerID = 0) then set_Players (mkPlayers p (Player1 (Players g))) g
  else if decide (playerID = 1) then set_Players (mkPlayers (Player0 (Players g)) p) g
  else g.

Definition set_Revealed (hand : list Card) (p : Player) : Player :=
  mkPlayer (mkHand hand) (Melds p) (Score p).
Definition set_Melds (melds : list Meld) (p : Player) : Player :=
  mkPlayer (Player_Hand p) melds (Score p).
Definition set_Score (score : Z) (p : Player) : Player :=
  mkPlayer (Player_Hand p) (Melds p) score.

(** [g.RoundsLog[g.RoundNumber]]: a negative or too large index panics. *)
Definition currentRoundLog (g : GameState) : res RoundLog :=
  if decide (RoundNumber g < 0) then Panic
  else deref (RoundsLog g !! Z.to_nat (RoundNumber g)).

Definition set_currentRoundLog (r : RoundLog) (g : GameState) : GameState :=
  set_RoundsLog (<[Z.to_nat (RoundNumber g) := r]> (RoundsLog g)) g.

(** What the run of a game does not determine: the permutation that
    [deck.shuffle] picks, and the order in which [range g.Players] visits
    the two keys.  The type [deck] and its [shuffle] are not among the
    sources: the deck is the slice [g.deck.cards] that [startNewRound]
    consumes, and the shuffle is a parameter here; where a proof needs it,
    it is assumed to be what spec 4.1 says, a permutation ([shuffles]
    below). *)
Record Env : Type := mkEnv {
  shuffle : list Card -> list Card;
  zeroFirst : bool }.

Definition rangePlayers (e : Env) : list Z :=
  if zeroFirst e then [0; 1] else [1; 0].

Definition OpponentOf (e : Env) (g : GameState) (playerID : Z) : Z :=
  default (-1) (head (filter (fun id => id ≠ playerID) (rangePlayers e))).

Definition changeTurn (g : GameState) : GameState :=
  set_TurnOpponentPlayerID (TurnPlayerID g)
    (set_TurnPlayerID (TurnOpponentPlayerID g) g).

(** ** Errors of [RunAction] *)

Inductive error : Type :=
| errActionNotPossible
| errGameIsEnded
| errNotYourTurn
| errWrap (inner : error) (context : string) (action : Action).

Fixpoint errorsIs (err target : error) : Prop :=
  err = target \/
  match err with
  | errWrap inner _ _ => errorsIs inner target
  | _ => False
  end.

(** ** Drawing ([action_draw_card.go]) *)

Definition DrawFromDrawPile_IsPossible (a : act) (g : GameState) : bool :=
  bool_decide (TurnPlayerID g = PlayerID a) &&
  negb (HasDrawnThisTurn g) &&
  negb (IsEmpty (DrawPile g)) &&
  negb (IsRoundFinished g).

Definition appendToHand (playerID : Z) (card : Card) (g : GameState)
    : res GameState :=
  p ← deref (getPlayer g playerID);
  Ret (setPlayer playerID (set_Revealed (Revealed (Player_Hand p) ++ [card]) p) g).

Definition DrawFromDrawPile_Run (a : act) (g : GameState)
    : res (GameState * option error) :=
  if negb (DrawFromDrawPile_IsPossible a g) then Ret (g, Some errActionNotPossible)
  else
    let '(pile, card, err) := DrawCard (DrawPile g) in
    let g := set_DrawPile pile g in
    match err with
    | None =>
        g ← appendToHand (PlayerID a) card g;
        Ret (set_HasDrawnThisTurn true g, None)
    | Some _ => Ret (g, None)
    end.

Definition DrawFromDiscardPile_IsPossible (a : act) (g : GameState) : bool :=
  bool_decide (TurnPlayerID g = PlayerID a) &&
  negb (HasDrawnThisTurn g) &&
  negb (IsEmpty (DiscardPile g)) &&
  negb (IsRoundFinished g).

Definition DrawFromDiscardPile_Run (a : act) (g : GameState)
    : res (GameState * option error) :=
  if negb (DrawFromDiscardPile_IsPossible a g) then Ret (g, Some errActionNotPossible)
  else
    let '(pile, card, err) := DrawCard (DiscardPile g) in
    let g := set_DiscardPile pile g in
    match err with
    | None =>
        g ← appendToHand (PlayerID a) card g;
        Ret (set_HasDrawnThisTurn true g, None)
    | Some _ => Ret (g, None)
    end.

(** ** Discarding ([action_discard_card.go]) *)

Definition DiscardCard_IsPossible (a : act) (card : Card) (g : GameState)
    : res bool :=
  if bool_decide (TurnPlayerID g ≠ PlayerID a) || negb (HasDrawnThisTurn g)
     || HasDiscardedThisTurn g || IsRoundFinished g
  then Ret false
  else
    p ← deref (getPlayer g (PlayerID a));
    Ret (bool_decide (card ∈ Revealed (Player_Hand p))).

Definition DiscardCard_Run (a : act) (card : Card) (g : GameState)
    : res (GameState * option error) :=
  possible ← DiscardCard_IsPossible a card g;
  if negb possible then Ret (g, Some errActionNotPossible)
  else
    p ← deref (getPlayer g (PlayerID a));
    let newHand := filter (fun c => c ≠ card) (Revealed (Player_Hand p)) in
    let g := setPlayer (PlayerID a) (set_Revealed newHand p) g in
    let g := set_DiscardPile (AddCard (DiscardPile g) card) g in
    Ret (set_HasDiscardedThisTurn true g, None).

(** ** Melding ([action_meld_cards.go]) *)

(** The exchange sort written out twice in the sources (in [isValidRun] and
    in [generateRunMeldActions]):
    [for i { for j > i { if s[i].Number > s[j].Number { swap } } }].
    [sortPass cur rest] is the inner loop for one [i], with [cur] the
    running content of [s[i]]; it returns the final [s[i]] and the rest. *)
Fixpoint sortPass (cur : Card) (rest : list Card) : Card * list Card :=
  match rest with
  | [] => (cur, [])
  | c :: rest' =>
      if bool_decide (Number cur > Number c)
      then let '(m, out) := sortPass c rest' in (m, cur :: out)
      else let '(m, out) := sortPass cur rest' in (m, c :: out)
  end.

Fixpoint sortLoop (iterations : nat) (s : list Card) : list Card :=
  match iterations, s with
  | S n, c :: rest => let '(m, out) := sortPass c rest in m :: sortLoop n out
  | _, _ => s
  end.

Definition sortByNumber (cards : list Card) : list Card :=
  sortLoop (Nat.pred (length cards)) cards.

(** [for i := 1; i < len; i++ { if s[i].Number != s[i-1].Number+1 ... }] *)
Fixpoint consecutiveFrom (prev : Card) (rest : list Card) : bool :=
  match rest with
  | [] => true
  | c :: rest' =>
      bool_decide (Number c = int64_wrap (Number prev + 1)) &&
      consecutiveFrom c rest'
  end.

Definition consecutiveNumbers (s : list Card) : bool :=
  match s with
  | [] => true
  | c :: rest => consecutiveFrom c rest
  end.

(** The loop over [suits map[string]bool]. *)
Fixpoint noDuplicateSuit (suits : list string) (cards : list Card) : bool :=
  match cards with
  | [] => true
  | c :: rest =>
      if bool_decide (Suit c ∈ suits) then false
      else noDuplicateSuit (Suit c :: suits) rest
  end.

Definition MeldCards_isValidSet (cards : list Card) : bool :=
  match cards with
  | [] => false
  | first :: _ =>
      if bool_decide (length cards < 3)%nat then false
      else
        forallb (fun c => bool_decide (Number c = Number first)) cards &&
        noDuplicateSuit [] cards
  end.

Definition MeldCards_isValidRun (cards : list Card) : bool :=
  match cards with
  | [] => false
  | first :: _ =>
      if bool_decide (length cards < 3)%nat then false
      else
        forallb (fun c => bool_decide (Suit c = Suit first)) cards &&
        consecutiveNumbers (sortByNumber cards)
  end.

Definition isValidMeld (cards : list Card) (meldType : MeldType) : bool :=
  if bool_decide (length cards < 3)%nat then false
  else if decide (meldType = MeldTypeSet) then MeldCards_isValidSet cards
  else if decide (meldType = MeldTypeRun) then MeldCards_isValidRun cards
  else false.

Definition MeldCards_IsPossible (a : act) (cards : list Card)
    (meldType : MeldType) (g : GameState) : res bool :=
  if bool_decide (TurnPlayerID g ≠ PlayerID a) || IsRoundFinished g
  then Ret false
  else
    p ← deref (getPlayer g (PlayerID a));
    let hand := Revealed (Player_Hand p) in
    if negb (forallb (fun c => bool_decide (c ∈ hand)) cards) then Ret false
    else Ret (isValidMeld cards meldType).

Definition MeldCards_Run (a : act) (cards : list Card) (meldType : MeldType)
    (g : GameState) : res (GameState * option error) :=
  possible ← MeldCards_IsPossible a cards meldType g;
  if negb possible then Ret (g, Some errActionNotPossible)
  else
    p ← deref (getPlayer g (PlayerID a));
    let newHand := filter (fun c => c ∉ cards) (Revealed (Player_Hand p)) in
    let g := setPlayer (PlayerID a) (set_Revealed newHand p) g in
    p ← deref (getPlayer g (PlayerID a));
    Ret (setPlayer (PlayerID a) (set_Melds (Melds p ++ [mkMeld meldType cards]) p) g,
         None).

(** ** Scoring ([calculateRoundScore]) *)

(** [roundLog] is a pointer into [g.RoundsLog]; every assignment through it
    lands in the entry at index [g.RoundNumber].  The two deadwood totals
    are sums of hand cards, so [points] stays far inside the range of
    [int]; the addition to the score is the one that can wrap. *)
Definition calculateRoundScore (g : GameState) : res GameState :=
  roundLog ← currentRoundLog g;
  p0 ← deref (getPlayer g 0);
  p1 ← deref (getPlayer g 1);
  let player0Deadwood := calculateDeadwoodPoints (Revealed (Player_Hand p0)) (Melds p0) in
  let player1Deadwood := calculateDeadwoodPoints (Revealed (Player_Hand p1)) (Melds p1) in
  let roundLog := set_WinnerDeadwoodPoints player0Deadwood roundLog in
  let roundLog := set_LoserDeadwoodPoints player1Deadwood roundLog in
  let roundLog := set_RoundLog_WinnerPlayerID 0 roundLog in
  let roundLog := set_LoserPlayerID 1 roundLog in
  let roundLog :=
    if bool_decide (player1Deadwood < player0Deadwood) then
      set_LoserPlayerID 0 (set_RoundLog_WinnerPlayerID 1
        (set_LoserDeadwoodPoints player0Deadwood
          (set_WinnerDeadwoodPoints player1Deadwood roundLog)))
    else if bool_decide (player1Deadwood = player0Deadwood) then
      if bool_decide (RoundLog_KnockedPlayerID roundLog = 0) then
        set_LoserPlayerID 0 (set_RoundLog_WinnerPlayerID 1 roundLog)
      else
        set_LoserPlayerID 1 (set_RoundLog_WinnerPlayerID 0 roundLog)
    else roundLog in
  let winnerDeadwood := WinnerDeadwoodPoints roundLog in
  let loserDeadwood := LoserDeadwoodPoints roundLog in
  let points := loserDeadwood - winnerDeadwood in
  let points := if bool_decide (winnerDeadwood = 0) then points + 25 else points in
  let points :=
    if bool_decide (RoundLog_KnockedPlayerID roundLog ≠ -1) &&
       bool_decide (RoundLog_KnockedPlayerID roundLog ≠ RoundLog_WinnerPlayerID roundLog)
    then points + 10 else points in
  let roundLog := set_PointsAwarded points roundLog in
  let g := set_currentRoundLog roundLog g in
  winner ← deref (getPlayer g (RoundLog_WinnerPlayerID roundLog));
  Ret (setPlayer (RoundLog_WinnerPlayerID roundLog)
         (set_Score (int64_wrap (Score winner + points)) winner) g).

(** ** Knocking ([ActionKnock], in [action_meld_cards.go]) *)

Definition hasValidMelds (a : act) (g : GameState) : res bool :=
  p ← deref (getPlayer g (PlayerID a));
  let deadwood := calculateDeadwoodPoints (Revealed (Player_Hand p)) (Melds p) in
  Ret (bool_decide (deadwood <= 10)).

Definition Knock_IsPossible (a : act) (g : GameState) : res bool :=
  if bool_decide (TurnPlayerID g ≠ PlayerID a) || negb (HasDrawnThisTurn g)
     || negb (HasDiscardedThisTurn g) || IsRoundFinished g
  then Ret false
  else hasValidMelds a g.

Definition Knock_Run (a : act) (g : GameState) : res (GameState * option error) :=
  possible ← Knock_IsPossible a g;
  if negb possible then Ret (g, Some errActionNotPossible)
  else
    let g := set_KnockedPlayerID (PlayerID a) g in
    g ← calculateRoundScore g;
    roundLog ← currentRoundLog g;
    let roundLog := set_RoundLog_KnockedPlayerID (PlayerID a) roundLog in
    p0 ← deref (getPlayer g 0);
    p1 ← deref (getPlayer g 1);
    let roundLog := set_MeldsDealt [(0, Melds p0); (1, Melds p1)] roundLog in
    let g := set_currentRoundLog roundLog g in
    Ret (set_IsRoundFinished true g, None).

(** ** Confirming the end of a round *)

(** Modelled from the spec: the methods of [ActionConfirmRoundFinished] are
    not among the sources.  Spec 4.2: legal when the round is finished, with
    no turn-ownership restriction; the effect records the actor id in the
    confirmed set of the round; as every [apply], it re-checks legality
    first and fails with ActionNotPossible. *)
Definition ConfirmRoundFinished_IsPossible (a : act) (g : GameState) : bool :=
  IsRoundFinished g.

Definition ConfirmRoundFinished_Run (a : act) (g : GameState)
    : res (GameState * option error) :=
  if negb (ConfirmRoundFinished_IsPossible a g) then Ret (g, Some errActionNotPossible)
  else
    Ret (set_RoundFinishedConfirmedPlayerIDs
           (<[PlayerID a := true]> (RoundFinishedConfirmedPlayerIDs g)) g,
         None).

(** ** Dispatch on the variant *)

Definition IsPossible (action : Action) (g : GameState) : res bool :=
  match action with
  | ActionDrawFromDrawPile a => Ret (DrawFromDrawPile_IsPossible a g)
  | ActionDrawFromDiscardPile a => Ret (DrawFromDiscardPile_IsPossible a g)
  | ActionDiscardCard a card => DiscardCard_IsPossible a card g
  | ActionMeldCards a cards meldType => MeldCards_IsPossible a cards meldType g
  | ActionKnock a => Knock_IsPossible a g
  | ActionConfirmRoundFinished a => Ret (ConfirmRoundFinished_IsPossible a g)
  end.

Definition Run (action : Action) (g : GameState) : res (GameState * option error) :=
  match action with
  | ActionDrawFromDrawPile a => DrawFromDrawPile_Run a g
  | ActionDrawFromDiscardPile a => DrawFromDiscardPile_Run a g
  | ActionDiscardCard a card => DiscardCard_Run a card g
  | ActionMeldCards a cards meldType => MeldCards_Run a cards meldType g
  | ActionKnock a => Knock_Run a g
  | ActionConfirmRoundFinished a => ConfirmRoundFinished_Run a g
  end.

(** The two draws, the discard and the knock override [YieldsTurn]; melding
    inherits [act.YieldsTurn], which answers true.  For the confirm action
    the spec leaves it open and [RunAction] never consults it with effect,
    so it is given the inherited answer. *)
Definition YieldsTurn (action : Action) (g : GameState) : bool :=
  match action with
  | ActionDrawFromDrawPile _ | ActionDrawFromDiscardPile _ => false
  | ActionDiscardCard _ _ | ActionKnock _ => true
  | ActionMeldCards _ _ _ | ActionConfirmRoundFinished _ => true
  end.

(** [act.Enrich] does nothing. *)
Definition Enrich (action : Action) (g : GameState) : Action := action.

(** ** The meld-candidate generator *)

Fixpoint generateCombinations (cards : list Card) (k : nat) : list (list Card) :=
  match k with
  | O => [[]]
  | S k' =>
      if bool_decide (length cards < k)%nat then []
      else
        match cards with
        | [] => []
        | first :: remaining =>
            map (cons first) (generateCombinations remaining k') ++
            generateCombinations remaining k
        end
  end.

(** [GameState.isValidSet]: one loop checks rank and suit together. *)
Fixpoint isValidSetLoop (rank : Z) (suits : list string) (cards : list Card) : bool :=
  match cards with
  | [] => true
  | c :: rest =>
      if bool_decide (Number c ≠ rank) then false
      else if bool_decide (Suit c ∈ suits) then false
      else isValidSetLoop rank (Suit c :: suits) rest
  end.

Definition isValidSet (cards : list Card) : bool :=
  match cards with
  | [] => false
  | first :: _ =>
      if bool_decide (length cards < 3)%nat then false
      else isValidSetLoop (Number first) [] cards
  end.

(** [rankGroups] and [suitGroups] are maps from a key to the cards of the
    hand with that key, in hand order.  Go visits the keys of a map in an
    unspecified order; here they are visited in order of first appearance
    in the hand, and nothing below depends on that choice. *)
Definition groupKeys {K} `{EqDecision K} (key : Card -> K) (hand : list Card) : list K :=
  remove_dups (map key hand).

Definition groupOf {K} `{EqDecision K} (key : Card -> K) (k : K) (hand : list Card)
    : list Card :=
  filter (fun c => key c = k) hand.

Definition generateSetMeldActions (hand : list Card) (playerID : Z) : list Action :=
  rank ← groupKeys Number hand;
  let cards := groupOf Number rank hand in
  if bool_decide (3 <= length cards)%nat then
    map (fun combo => NewActionMeldCards combo MeldTypeSet playerID)
        (filter (fun combo => isValidSet combo = true) (generateCombinations cards 3))
  else [].

(** The inner loop of [findConsecutiveRuns]: starting at the card [prev],
    advance while the next card has the next number.  Returns the cards
    walked over and what follows them. *)
Fixpoint runFrom (prev : Card) (rest : list Card) : list Card * list Card :=
  match rest with
  | [] => ([], [])
  | c :: rest' =>
      if bool_decide (Number c = int64_wrap (Number prev + 1))
      then let '(run, after) := runFrom c rest' in (c :: run, after)
      else ([], rest)
  end.

(** [for length := 3..runLength { for startIdx := 0..runLength-length {
      runCards[startIdx : startIdx+length] } }] *)
Definition subRuns (runCards : list Card) : list (list Card) :=
  let runLength := length runCards in
  len ← seq 3 (runLength - 2);
  startIdx ← seq 0 (runLength - len + 1);
  [take len (drop startIdx runCards)].

Fixpoint findRunsLoop (fuel : nat) (cards : list Card) : list (list Card) :=
  match fuel, cards with
  | S fuel', first :: rest =>
      let '(run, after) := runFrom first rest in
      let runCards := first :: run in
      (if bool_decide (3 <= length runCards)%nat then subRuns runCards else []) ++
      findRunsLoop fuel' after
  | _, _ => []
  end.

(** The outer loop consumes at least one card per iteration, so the length
    of the slice bounds the number of iterations. *)
Definition findConsecutiveRuns (sortedCards : list Card) : list (list Card) :=
  findRunsLoop (length sortedCards) sortedCards.

Definition generateRunMeldActions (hand : list Card) (playerID : Z) : list Action :=
  suit ← groupKeys Suit hand;
  let cards := groupOf Suit suit hand in
  if bool_decide (3 <= length cards)%nat then
    map (fun run => NewActionMeldCards run MeldTypeRun playerID)
        (findConsecutiveRuns (sortByNumber cards))
  else [].

Definition generatePossibleMeldActions (g : GameState) (playerID : Z)
    : res (list Action) :=
  p ← deref (getPlayer g playerID);
  let hand := Revealed (Player_Hand p) in
  Ret (generateSetMeldActions hand playerID ++ generateRunMeldActions hand playerID).

(** ** The legal-action set ([CalculatePossibleActions]) *)

Definition candidateActions (g : GameState) : res (list Action) :=
  if IsRoundFinished g then
    Ret [NewActionConfirmRoundFinished (TurnPlayerID g);
         NewActionConfirmRoundFinished (TurnOpponentPlayerID g)]
  else if negb (HasDrawnThisTurn g) then
    Ret [NewActionDrawFromDrawPile (TurnPlayerID g);
         NewActionDrawFromDiscardPile (TurnPlayerID g)]
  else if negb (HasDiscardedThisTurn g) then
    p ← deref (getPlayer g (TurnPlayerID g));
    Ret (map (fun card => NewActionDiscardCard card (TurnPlayerID g))
             (Revealed (Player_Hand p)))
  else
    meldActions ← generatePossibleMeldActions g (TurnPlayerID g);
    Ret (NewActionKnock (TurnPlayerID g) :: meldActions).

Fixpoint keepPossible (allActions : list Action) (g : GameState) : res (list Action) :=
  match allActions with
  | [] => Ret []
  | action :: rest =>
      let action := Enrich action g in
      possible ← IsPossible action g;
      possibleActions ← keepPossible rest g;
      Ret (if (possible : bool) then action :: possibleActions else possibleActions)
  end.

Definition CalculatePossibleActions (g : GameState) : res (list Action) :=
  allActions ← candidateActions g;
  keepPossible allActions g.

Definition countActionsOfTurnPlayer (g : GameState) : res nat :=
  actions ← CalculatePossibleActions g;
  Ret (length (filter (fun a => GetPlayerID a = TurnPlayerID g) actions)).

(** ** Reading the log of the current round *)

(** A failed [DeserializeAction] leaves a nil [Action]. *)
Definition deserializeOrNil (bs : json) : option Action :=
  match DeserializeAction bs with
  | Decoded action => Some action
  | Failed _ => None
  end.

(** Indexing an empty [ActionsLog] at [len-1] panics. *)
Definition _deserializeCurrentRoundLastAction (g : GameState) : res (option Action) :=
  roundLog ← currentRoundLog g;
  lastAction ← deref (last (ActionsLog roundLog));
  Ret (deserializeOrNil (ActionLog_Action lastAction)).

Definition _deserializeCurrentRoundActions (g : GameState) : res (list (option Action)) :=
  roundLog ← currentRoundLog g;
  Ret (map (fun actionLog => deserializeOrNil (ActionLog_Action actionLog))
           (ActionsLog roundLog)).

(** ** The view of one player ([ToClientGameState]) *)

Record ClientGameState : Type := mkClientGameState {
  Client_RoundNumber : Z;
  Client_TurnPlayerID : Z;
  YouPlayerID : Z;
  ThemPlayerID : Z;
  YourScore : Z;
  TheirScore : Z;
  YourHandCards : list Card;
  TheirHandCards : list Card;
  YourMelds : list Meld;
  TheirMelds : list Meld;
  DiscardPileTopCard : Card;
  Client_PossibleActions : list json;
  Client_IsGameEnded : bool;
  Client_IsRoundFinished : bool;
  Client_WinnerPlayerID : Z;
  Client_KnockedPlayerID : Z;
  YourDeadwoodPoints : Z;
  TheirDeadwoodPoints : Z;
  LastActionLog : option ActionLog;
  Client_RuleMaxPoints : Z }.

(** [g.Players[id]] of an id that is no key is nil, and reading a field of
    it panics, as does indexing [g.RoundsLog] out of range.  [LastActionLog]
    points at the last entry of the log of the current round and stays nil
    when that log is empty. *)
Definition ToClientGameState (e : Env) (g : GameState) (youPlayerID : Z)
    : res ClientGameState :=
  let themPlayerID := OpponentOf e g youPlayerID in
  possibleActions ← CalculatePossibleActions g;
  let filteredPossibleActions :=
    filter (fun a => GetPlayerID a = youPlayerID) possibleActions in
  you ← deref (getPlayer g youPlayerID);
  them ← deref (getPlayer g themPlayerID);
  roundLog ← currentRoundLog g;
  Ret {| Client_RoundNumber := RoundNumber g;
         Client_TurnPlayerID := TurnPlayerID g;
         YouPlayerID := youPlayerID;
         ThemPlayerID := themPlayerID;
         YourScore := Score you;
         TheirScore := Score them;
         YourHandCards := Revealed (Player_Hand you);
         TheirHandCards := Revealed (Player_Hand them);
         YourMelds := Melds you;
         TheirMelds := Melds them;
         DiscardPileTopCard := (TopCard (DiscardPile g)).1;
         Client_PossibleActions := _serializeActions filteredPossibleActions;
         Client_IsGameEnded := IsGameEnded g;
         Client_IsRoundFinished := IsRoundFinished g;
         Client_WinnerPlayerID := WinnerPlayerID g;
         Client_KnockedPlayerID := KnockedPlayerID g;
         YourDeadwoodPoints :=
           calculateDeadwoodPoints (Revealed (Player_Hand you)) (Melds you);
         TheirDeadwoodPoints :=
           calculateDeadwoodPoints (Revealed (Player_Hand them)) (Melds them);
         LastActionLog := last (ActionsLog roundLog);
         Client_RuleMaxPoints := RuleMaxPoints g |}.

(** ** Rounds ([startNewRound]) *)

(** Modelled from the spec: [newDeck] is not among the sources.  Spec 2:
    a 40-card Spanish-suited deck, ranks 1-7 and 10-12 in four suits. *)
Definition newDeck : list Card :=
  suit ← ["oro"; "copa"; "espada"; "basto"];
  number ← [1; 2; 3; 4; 5; 6; 7; 10; 11; 12];
  [mkCard number suit].

(** The dealing loop: seven times, the head of the deck to player 0 and the
    next head to player 1.  Indexing an exhausted deck panics. *)
Fixpoint deal (n : nat) (player0Hand player1Hand cards : list Card)
    : res (list Card * list Card * list Card) :=
  match n with
  | O => Ret (player0Hand, player1Hand, cards)
  | S n' =>
      match cards with
      | c0 :: c1 :: rest => deal n' (player0Hand ++ [c0]) (player1Hand ++ [c1]) rest
      | _ => Panic
      end
  end.

Definition startNewRound (e : Env) (g : GameState) : res GameState :=
  let g := set_deck (shuffle e (deck g)) g in
  let g := set_RoundNumber (int64_wrap (RoundNumber g + 1)) g in
  let g := set_TurnPlayerID (OpponentOf e g (TurnPlayerID g)) g in
  let g := set_TurnOpponentPlayerID (OpponentOf e g (TurnPlayerID g)) g in
  '(player0Hand, player1Hand, rest) ← deal 7 [] [] (deck g);
  let g := set_deck rest g in
  let g := set_Players
             (mkPlayers (mkPlayer (mkHand player0Hand) [] (Score (Player0 (Players g))))
                        (mkPlayer (mkHand player1Hand) [] (Score (Player1 (Players g))))) g in
  let g := set_DrawPile (mkPile (deck g)) g in
  let g := set_DiscardPile (mkPile []) g in
  let g :=
    if negb (IsEmpty (DrawPile g)) then
      let '(pile, card, err) := DrawCard (DrawPile g) in
      let g := set_DrawPile pile g in
      match err with
      | None => set_DiscardPile (AddCard (DiscardPile g) card) g
      | Some _ => g
      end
    else g in
  let g := set_KnockedPlayerID (-1) g in
  let g := set_HasDrawnThisTurn false g in
  let g := set_HasDiscardedThisTurn false g in
  let g := set_IsRoundFinished false g in
  let g := set_RoundFinishedConfirmedPlayerIDs ∅ g in
  let g := set_RoundsLog
             (RoundsLog g ++
              [mkRoundLog [(0, Melds (Player0 (Players g))); (1, Melds (Player1 (Players g)))]
                          (-1) (-1) (-1) 0 0 0 []]) g in
  possibleActions ← CalculatePossibleActions g;
  Ret (set_PossibleActions (_serializeActions possibleActions) g).

(** ** [RunAction] *)

Definition appendActionLog (action : Action) (g : GameState) : res GameState :=
  roundLog ← currentRoundLog g;
  Ret (set_currentRoundLog
         (set_ActionsLog
            (ActionsLog roundLog ++ [mkActionLog (TurnPlayerID g) (SerializeAction action)])
            roundLog) g).

(** One iteration of [for playerID := range g.Players]. *)
Definition endGameIfReached (g : GameState) (playerID : Z) : GameState :=
  match getPlayer g playerID with
  | Some p =>
      if bool_decide (Score p >= RuleMaxPoints g) then
        let g := setPlayer playerID (set_Score (RuleMaxPoints g) p) g in
        let g := set_IsGameEnded true g in
        set_WinnerPlayerID playerID g
      else g
  | None => g
  end.

Definition confirmed (g : GameState) (playerID : Z) : bool :=
  default false (RoundFinishedConfirmedPlayerIDs g !! playerID).

(** Everything [RunAction] does once [action.Run] has returned nil. *)
Definition afterRun (e : Env) (action : Action) (g : GameState)
    : res (GameState * option error) :=
  g ← (if bool_decide (GetName action ≠ CONFIRM_ROUND_FINISHED)
       then appendActionLog action g else Ret g);
  if negb (IsGameEnded g) && IsRoundFinished g &&
     bool_decide (size (RoundFinishedConfirmedPlayerIDs g) = 2%nat)
  then
    g ← startNewRound e g;
    Ret (g, None)
  else
    let g :=
      if negb (IsGameEnded g) && negb (IsRoundFinished g) && YieldsTurn action g
      then set_HasDiscardedThisTurn false (set_HasDrawnThisTurn false (changeTurn g))
      else g in
    let g :=
      if negb (IsGameEnded g) && IsRoundFinished g &&
         bool_decide (size (RoundFinishedConfirmedPlayerIDs g) = 1%nat)
      then if confirmed g (TurnPlayerID g) then changeTurn g else g
      else g in
    let g := foldl endGameIfReached g (rangePlayers e) in
    possibleActions ← CalculatePossibleActions g;
    count ← countActionsOfTurnPlayer g;
    '(g, possibleActions) ←
      (if bool_decide (count = 0%nat) then
         let g := changeTurn g in
         possibleActions ← CalculatePossibleActions g;
         Ret (g, possibleActions)
       else Ret (g, possibleActions));
    Ret (set_PossibleActions (_serializeActions possibleActions) g, None).

Definition RunAction (e : Env) (action : option Action) (g : GameState)
    : res (GameState * option error) :=
  match action with
  | None => Ret (g, None)
  | Some action =>
      if IsGameEnded g then
        Ret (g, Some (errWrap errGameIsEnded " trying to run" action))
      else if negb (IsRoundFinished g) && bool_decide (GetPlayerID action ≠ TurnPlayerID g)
      then Ret (g, Some errNotYourTurn)
      else
        possible ← IsPossible action g;
        if negb possible then
          Ret (g, Some (errWrap errActionNotPossible " trying to run" action))
        else
          '(g, err) ← Run action g;
          match err with
          | Some err =>
              Ret (g, Some (errWrap err " trying to run after checking it was possible" action))
          | None => afterRun e action g
          end
  end.

(** ** Creating a game ([New], [WithMaxPoints]) *)

Definition WithMaxPoints (maxPoints : Z) (gs : GameState) : GameState :=
  set_RuleMaxPoints maxPoints gs.

(** The struct literal of [New].  The players' hands are nil until the first
    round is dealt; a nil hand is never read before that and is written here
    as the empty hand. *)
Definition newGame : GameState :=
  {| RoundNumber := 0;
     TurnPlayerID := 0;
     TurnOpponentPlayerID := 1;
     Players := mkPlayers (mkPlayer (mkHand []) [] 0) (mkPlayer (mkHand []) [] 0);
     PossibleActions := [];
     DrawPile := mkPile [];
     DiscardPile := mkPile [];
     HasDrawnThisTurn := false;
     HasDiscardedThisTurn := false;
     KnockedPlayerID := -1;
     IsRoundFinished := false;
     IsGameEnded := false;
     WinnerPlayerID := -1;
     RoundsLog := [emptyRoundLog];
     RoundFinishedConfirmedPlayerIDs := ∅;
     RuleMaxPoints := DefaultMaxPoints;
     deck := newDeck |}.

Definition New (e : Env) (opts : list (GameState -> GameState)) : res GameState :=
  let gs := foldl (fun gs opt => opt gs) newGame opts in
  startNewRound e gs.

(** * Vocabulary of the specification *)

Definition handOf (p : Player) : list Card := Revealed (Player_Hand p).

(** Deadwood of a player: the points of the cards in hand that no meld of
    the player covers. *)
Definition deadwoodOf (p : Player) : Z :=
  calculateDeadwoodPoints (handOf p) (Melds p).

(** Deadwood in the words of the spec (section 4.2 and the glossary): a
    card is covered iff it appears, by value, in any of the player's melds;
    a card that is not covered scores its face value for the ranks 1 to 7
    and 10 for the ranks 10 to 12; the deadwood is the sum of the point
    values of the player's cards that are not covered.  The spec gives no
    value to a rank outside those of the deck, and so no deadwood to a hand
    that holds such a card uncovered. *)
Definition spec_covered (melds : list Meld) (card : Card) : Prop :=
  Exists (fun meld => card ∈ Meld_Cards meld) melds.

Definition spec_pointValue (card : Card) : option Z :=
  if decide (1 <= Number card <= 7) then Some (Number card)
  else if decide (10 <= Number card <= 12) then Some 10
  else None.

Fixpoint spec_deadwood (hand : list Card) (melds : list Meld) : option Z :=
  match hand with
  | [] => Some 0
  | card :: rest =>
      if decide (spec_covered melds card) then spec_deadwood rest melds
      else
        value ← spec_pointValue card;
        total ← spec_deadwood rest melds;
        Some (value + total)
  end.

(** Score of seat 0 or 1. *)
Definition scoreOf (playerID : Z) (g : GameState) : Z :=
  match getPlayer g playerID with
  | Some p => Score p
  | None => 0
  end.

(** Every [Number] of the cards is a value of the Go type [int]. *)
Definition intCards (cards : list Card) : Prop :=
  Forall (fun c => is_int (Number c)) cards.

Definition byNumber (c d : Card) : Prop := Number c <= Number d.

(** Ranks that go up by exactly one from each card to the next. *)
Fixpoint ascendingConsecutive (cards : list Card) : Prop :=
  match cards with
  | c :: (d :: _) as rest => Number d = Number c + 1 /\ ascendingConsecutive rest
  | _ => True
  end.

(** The six names [DeserializeAction] switches on. *)
Definition knownNames : list string :=
  [DRAW_FROM_DRAW_PILE; DRAW_FROM_DISCARD_PILE; DISCARD_CARD; MELD_CARDS; KNOCK;
   CONFIRM_ROUND_FINISHED].

(** Action values built by one of the six constructors. *)
Inductive constructed : Action -> Prop :=
| constructed_draw playerID : constructed (NewActionDrawFromDrawPile playerID)
| constructed_draw_discard playerID : constructed (NewActionDrawFromDiscardPile playerID)
| constructed_discard card playerID : constructed (NewActionDiscardCard card playerID)
| constructed_meld cards meldType playerID :
    constructed (NewActionMeldCards cards meldType playerID)
| constructed_knock playerID : constructed (NewActionKnock playerID)
| constructed_confirm playerID : constructed (NewActionConfirmRoundFinished playerID).

(** The [int] fields of an action. *)
Definition intsOf (action : Action) : list Z :=
  GetPlayerID action ::
  match action with
  | ActionDiscardCard _ card => [Number card]
  | ActionMeldCards _ cards _ => map Number cards
  | _ => []
  end.

(** Valid UTF-8: a string that the coercion of [encoding/json] leaves as it
    is (each byte it replaces becomes three). *)
Definition validUTF8 (s : string) : Prop := toValidUTF8 s = s.

(** The strings of an action besides its name. *)
Definition stringsOf (action : Action) : list string :=
  match action with
  | ActionDiscardCard _ card => [Suit card]
  | ActionMeldCards _ cards meldType => meldType :: map Suit cards
  | _ => []
  end.

(** A card whose number is a Go [int] and whose suit is valid UTF-8. *)
Definition wfCard (c : Card) : Prop := is_int (Number c) /\ validUTF8 (Suit c).

(** Cards that are in play and not melded, and the count of the
    conservation property:
    [|drawPile| + |discardPile| + sum |hand| + sum (cards in melds)]. *)
Definition unmelded (g : GameState) : list Card :=
  Pile_Cards (DrawPile g) ++ Pile_Cards (DiscardPile g) ++
  handOf (Player0 (Players g)) ++ handOf (Player1 (Players g)).

Definition cardCount (g : GameState) : nat :=
  (length (unmelded g) +
   length (meldedCards (Melds (Player0 (Players g)))) +
   length (meldedCards (Melds (Player1 (Players g)))))%nat.

(** A shuffle reorders the deck and does nothing else. *)
Definition shuffles (e : Env) : Prop := forall cards, shuffle e cards ≡ₚ cards.

Definition maxPointsOption (opt : GameState -> GameState) : Prop :=
  exists maxPoints, opt = WithMaxPoints maxPoints.

(** States reachable from a fresh game by successful [RunAction] calls.  Each
    call may see another shuffle and another map iteration order. *)
Inductive reachable : GameState -> Prop :=
| reachable_New e opts g :
    shuffles e -> Forall maxPointsOption opts -> New e opts = Ret g -> reachable g
| reachable_RunAction e action g g' :
    reachable g -> shuffles e -> RunAction e action g = Ret (g', None) -> reachable g'.

(** ** Example states *)

Definition identityEnv : Env := mkEnv (fun cards => cards) true.

Definition oro (n : Z) : Card := mkCard n "oro".
Definition copa (n : Z) : Card := mkCard n "copa".
Definition espada (n : Z) : Card := mkCard n "espada".
Definition basto (n : Z) : Card := mkCard n "basto".

(** A state in the middle of round 1 in which the turn player has drawn and
    discarded: the 40 cards are split between the two players and the
    piles, the discard pile holding one card. *)
Definition midRound (turnPlayerID : Z) (player0 player1 : Player) (maxPoints : Z)
    : GameState :=
  let held := handOf player0 ++ meldedCards (Melds player0) ++
              handOf player1 ++ meldedCards (Melds player1) in
  let pile := filter (fun c => c ∉ held) newDeck in
  let g :=
    {| RoundNumber := 1;
       TurnPlayerID := turnPlayerID;
       TurnOpponentPlayerID := 1 - turnPlayerID;
       Players := mkPlayers player0 player1;
       PossibleActions := [];
       DrawPile := mkPile (removelast pile);
       DiscardPile := mkPile (option_list (last pile));
       HasDrawnThisTurn := true;
       HasDiscardedThisTurn := true;
       KnockedPlayerID := -1;
       IsRoundFinished := false;
       IsGameEnded := false;
       WinnerPlayerID := -1;
       RoundsLog := [emptyRoundLog; mkRoundLog [(0, []); (1, [])] (-1) (-1) (-1) 0 0 0 []];
       RoundFinishedConfirmedPlayerIDs := ∅;
       RuleMaxPoints := maxPoints;
       deck := pile |} in
  match CalculatePossibleActions g with
  | Ret actions => set_PossibleActions (_serializeActions actions) g
  | Panic => g
  end.

Definition lowHand : list Card :=
  [oro 1; copa 1; espada 1; basto 1; oro 2; copa 2; espada 2].

Definition twoRuns : list Meld :=
  [mkMeld MeldTypeRun [oro 4; oro 5; oro 6]; mkMeld MeldTypeRun [copa 4; copa 5; copa 6]].

(** Player 0 is to move with 10 points of deadwood; player 1 has melded two
    runs and holds one card worth 10. *)
Definition tiedGame : GameState :=
  midRound 0 (mkPlayer (mkHand lowHand) [] 0)
             (mkPlayer (mkHand [oro 10]) twoRuns 0) DefaultMaxPoints.

(** As [tiedGame], but player 1 holds a 3. *)
Definition undercutGame : GameState :=
  midRound 0 (mkPlayer (mkHand lowHand) [] 0)
             (mkPlayer (mkHand [basto 3]) twoRuns 0) DefaultMaxPoints.

(** Player 0 is to move with everything melded and 95 points; player 1
    holds 43 points of deadwood. *)
Definition matchPoint : GameState :=
  midRound 0
    (mkPlayer (mkHand [])
       [mkMeld MeldTypeRun [oro 1; oro 2; oro 3];
        mkMeld MeldTypeRun [copa 1; copa 2; copa 3; copa 4]] 95)
    (mkPlayer (mkHand [basto 10; basto 11; basto 12; espada 1; espada 3; espada 5; espada 4])
       [] 20)
    DefaultMaxPoints.

(** What a knock leaves in the log of the current round. *)
Definition roundLogAfter (e : Env) (action : Action) (g : GameState) : option RoundLog :=
  match RunAction e (Some action) g with
  | Ret (g', None) => RoundsLog g' !! Z.to_nat (RoundNumber g')
  | _ => None
  end.

(** A fresh game with [maxPoints = 0] after its first draw: the game has
    ended while the round is still open. *)
Definition endedInRound : res GameState :=
  g ← New identityEnv [WithMaxPoints 0];
  '(g, _) ← RunAction identityEnv (Some (NewActionDrawFromDrawPile 1)) g;
  Ret g.

(** A fresh game with [maxPoints = -1]. *)
Definition negativeTarget : res GameState := New identityEnv [WithMaxPoints (-1)].

(** Run a list of actions, stopping at the first rejection. *)
Fixpoint play (e : Env) (actions : list Action) (g : GameState) : res GameState :=
  match actions with
  | [] => Ret g
  | action :: rest =>
      '(g', err) ← RunAction e (Some action) g;
      match err with
      | None => play e rest g'
      | Some _ => Panic
      end
  end.

(** A fresh game followed by a list of actions. *)
Definition playFromNew (e : Env) (opts : list (GameState -> GameState))
    (actions : list Action) : res GameState :=
  g ← New e opts;
  play e actions g.

(** Player 1 draws and discards, player 0 takes the discard and discards it
    again, player 1 draws and discards the 2 of copas, player 0 takes it and
    melds the run 1-2-3 of copas. *)
Definition openingActions : list Action :=
  [NewActionDrawFromDrawPile 1; NewActionDiscardCard (oro 12) 1;
   NewActionDrawFromDiscardPile 0; NewActionDiscardCard (oro 12) 0;
   NewActionDrawFromDrawPile 1; NewActionDiscardCard (copa 2) 1;
   NewActionDrawFromDiscardPile 0;
   NewActionMeldCards [copa 1; copa 2; copa 3] MeldTypeRun 0].

(** The scores of both seats before and after one action. *)
Definition scoresAround (e : Env) (action : Action) (start : res GameState)
    : option (Z * Z * (Z * Z)) :=
  match start with
  | Ret g =>
      match RunAction e (Some action) g with
      | Ret (g', None) => Some (scoreOf 0 g, scoreOf 1 g, (scoreOf 0 g', scoreOf 1 g'))
      | _ => None
      end
  | Panic => None
  end.

(** ** Invariants *)

(** The cards of a round: none is held twice, and they are 40. *)
Definition cardsInv (g : GameState) : Prop :=
  NoDup (unmelded g) /\ cardCount g = 40%nat.

(** What the bookkeeping of [RunAction] must leave alone for [cardsInv]. *)
Definition table (g : GameState) :=
  (DrawPile g, DiscardPile g,
   Player_Hand (Player0 (Players g)), Melds (Player0 (Players g)),
   Player_Hand (Player1 (Players g)), Melds (Player1 (Players g)),
   IsRoundFinished g).

(** Between two calls of [RunAction] on a game started by [New], the round
    is open and the discard flag is down. *)
Definition roundInv (g : GameState) : Prop :=
  IsRoundFinished g = false /\ HasDiscardedThisTurn g = false /\ cardsInv g.

Definition score0 (g : GameState) : Z := Score (Player0 (Players g)).
Definition score1 (g : GameState) : Z := Score (Player1 (Players g)).

(** No score is above the target (and each is a Go [int]). *)
Definition scoresSettled (g : GameState) : Prop :=
  (- 2 ^ 63 <= scoreOf 0 g <= RuleMaxPoints g) /\
  (- 2 ^ 63 <= scoreOf 1 g <= RuleMaxPoints g).

(** The points of a round added to a settled score fit a Go [int]: a round
    awards at most the loser's deadwood plus 35. *)
Definition roomForPoints (g : GameState) : Prop :=
  RuleMaxPoints g +
  10 * Z.of_nat (length (handOf (Player0 (Players g))) + length (handOf (Player1 (Players g))))
  + 35 < 2 ^ 63.

(** What [RunAction] decides about the end of the game. *)
Definition verdict (g : GameState) :=
  (Players g, RuleMaxPoints g, IsGameEnded g, WinnerPlayerID g).

Definition clamp (maxPoints score : Z) : Z :=
  if bool_decide (score >= maxPoints) then maxPoints else score.

(** ** Invariants of a game started by [New] *)

(** Every card in play: the two piles, the hands and the melds. *)
Definition allCards (g : GameState) : list Card :=
  unmelded g ++ meldedCards (Melds (Player0 (Players g))) ++
  meldedCards (Melds (Player1 (Players g))).

(** The two seats hold the turn between them. *)
Definition seated (g : GameState) : Prop :=
  (TurnPlayerID g = 0 /\ TurnOpponentPlayerID g = 1) \/
  (TurnPlayerID g = 1 /\ TurnOpponentPlayerID g = 0).

(** What the actions of an open round and the bookkeeping after them leave
    alone. *)
Definition frame (g : GameState) :=
  (RoundNumber g, length (RoundsLog g), KnockedPlayerID g,
   RoundFinishedConfirmedPlayerIDs g, RuleMaxPoints g).

(** The fields that only [calculateRoundScore], [startNewRound] and the
    bookkeeping of [RunAction] write. *)
Definition ledger (g : GameState) :=
  (frame g, RoundsLog g, TurnPlayerID g, TurnOpponentPlayerID g,
   Score (Player0 (Players g)), Score (Player1 (Players g)),
   IsGameEnded g, WinnerPlayerID g).

(** What the end-of-game loop of [RunAction] leaves alone. *)
Definition turnState (g : GameState) :=
  (RoundsLog g, TurnPlayerID g, TurnOpponentPlayerID g,
   HasDrawnThisTurn g, HasDiscardedThisTurn g, IsRoundFinished g).

(** Who is to move and what they have done this turn. *)
Definition turnOf (g : GameState) :=
  (TurnPlayerID g, TurnOpponentPlayerID g, HasDrawnThisTurn g, HasDiscardedThisTurn g).

(** The bookkeeping of a game that is still in the round [New] dealt. *)
Definition firstRound (g : GameState) : Prop :=
  RoundNumber g = 1 /\ length (RoundsLog g) = 2%nat /\ seated g /\
  KnockedPlayerID g = -1 /\ RoundFinishedConfirmedPlayerIDs g = ∅.

(** Nobody has scored and nobody has won. *)
Definition scoreless (g : GameState) : Prop :=
  scoreOf 0 g = 0 /\ scoreOf 1 g = 0 /\ IsGameEnded g = false /\ WinnerPlayerID g = -1.

(** Every meld on the table passes [Meld.IsValid]. *)
Definition meldsValid (g : GameState) : Prop :=
  Forall (fun m => Meld_IsValid m = true) (Melds (Player0 (Players g))) /\
  Forall (fun m => Meld_IsValid m = true) (Melds (Player1 (Players g))).

(** The stored field [PossibleActions] is the serialized legal-action set
    of the state it is stored in. *)
Definition storedActionsFresh (g : GameState) : Prop :=
  exists actions,
    CalculatePossibleActions g = Ret actions /\
    PossibleActions g = _serializeActions actions.

(** Everything that holds between two calls of [RunAction] on a game that
    [New] started. *)
Definition playInv (g : GameState) : Prop :=
  firstRound g /\ allCards g ≡ₚ newDeck /\ meldsValid g /\ storedActionsFresh g /\
  (0 < RuleMaxPoints g -> scoreless g).

(** ** More example states *)

(** A fresh game after player 1 has drawn from the draw pile. *)
Definition firstDraw : list Action := [NewActionDrawFromDrawPile 1].

(** [openingActions] without its last action, the meld. *)
Definition beforeMeld : list Action :=
  [NewActionDrawFromDrawPile 1; NewActionDiscardCard (oro 12) 1;
   NewActionDrawFromDiscardPile 0; NewActionDiscardCard (oro 12) 0;
   NewActionDrawFromDrawPile 1; NewActionDiscardCard (copa 2) 1;
   NewActionDrawFromDiscardPile 0].

(** A serialized discard of the 12 of oros by player 1 as a client may
    send it: a key in upper case, a second [card] member that names no
    field of the card, and a member the decoder skips. *)
Definition discardJson : json :=
  JObject [("NAME", JString "discard_card"); ("playerID", JNumber 1);
           ("card", JObject [("number", JNumber 12); ("suit", JString "oro")]);
           ("Card", JObject [("rank", JNumber 1)]);
           ("note", JNull)].

(** * Proofs *)

Ltac res_unfold := unfold mbind, res_bind, mret, res_ret, deref in *.

Ltac decide_strings :=
  repeat match goal with
  | |- context [decide (?a = ?b)] =>
      first [ rewrite (decide_True (P := a = b)) by reflexivity
            | rewrite (decide_False (P := a = b)) by discriminate ]
  end.

Ltac player_cases a :=
  unfold getPlayer, setPlayer in *;
  destruct (decide (PlayerID a = 0)); [|destruct (decide (PlayerID a = 1))];
  simplify_eq.

Ltac fold_scores :=
  repeat match goal with
  | |- context [scoreOf 0 ?g] => change (scoreOf 0 g) with (score0 g)
  | |- context [scoreOf 1 ?g] => change (scoreOf 1 g) with (score1 g)
  | H : context [scoreOf 0 ?g] |- _ => change (scoreOf 0 g) with (score0 g) in H
  | H : context [scoreOf 1 ?g] |- _ => change (scoreOf 1 g) with (score1 g) in H
  end.

(** ** Machine integers *)

Lemma int64_wrap_id z : is_int z -> int64_wrap z = z.
Proof.
  unfold is_int, int64_wrap. intros H.
  rewrite Z.mod_small by lia. lia.
Qed.

(** A successor computed with wrap-around that is not below its argument is
    the true successor. *)
Lemma int64_succ_ascending c d :
  is_int c -> d = int64_wrap (c + 1) -> c <= d -> d = c + 1.
Proof.
  unfold is_int, int64_wrap. intros Hc -> Hle.
  destruct (decide (c + 1 < 2 ^ 63)) as [Hlt|Hge].
  - rewrite Z.mod_small by lia. lia.
  - assert (c = 2 ^ 63 - 1) as -> by lia.
    exfalso. revert Hle. vm_compute. intros H; apply H; reflexivity.
Qed.

Lemma int64_succ_ne c : int64_wrap (c + 1) ≠ c.
Proof.
  unfold int64_wrap. intros H.
  pose proof (Z.div_mod (c + 1 + 2 ^ 63) (2 ^ 64)) as Hdm.
  assert ((c + 1 + 2 ^ 63) `mod` 2 ^ 64 = c + 2 ^ 63) as Hm by lia.
  rewrite Hm in Hdm. lia.
Qed.

(** ** Players and piles *)

Lemma getPlayer_0 g : getPlayer g 0 = Some (Player0 (Players g)).
Proof. reflexivity. Qed.

Lemma getPlayer_1 g : getPlayer g 1 = Some (Player1 (Players g)).
Proof. reflexivity. Qed.

Lemma setPlayer_0 p g : setPlayer 0 p g = set_Players (mkPlayers p (Player1 (Players g))) g.
Proof. reflexivity. Qed.

Lemma setPlayer_1 p g : setPlayer 1 p g = set_Players (mkPlayers (Player0 (Players g)) p) g.
Proof. reflexivity. Qed.

Lemma last_removelast {A} (l : list A) c :
  last l = Some c -> l = removelast l ++ [c].
Proof.
  induction l as [|x [|y l] IH]; intros H; simpl in *; simplify_eq; [done|].
  f_equal. by apply IH.
Qed.

Lemma DrawCard_spec p pile card :
  DrawCard p = (pile, card, None) -> Pile_Cards p = Pile_Cards pile ++ [card].
Proof.
  unfold DrawCard. destruct (last (Pile_Cards p)) eqn:Hlast; intros H; simplify_eq.
  simpl. by apply last_removelast.
Qed.

Lemma DrawCard_error p pile card err :
  DrawCard p = (pile, card, Some err) -> Pile_Cards p = [].
Proof.
  unfold DrawCard. destruct (last (Pile_Cards p)) eqn:Hlast; intros H; simplify_eq.
  by apply last_None.
Qed.

(** ** The codec *)

(** Decides [namesField] on a key and a field that are both given. *)
Ltac fold_fields :=
  repeat match goal with
  | |- context [namesField ?field ?key] =>
      let b := eval vm_compute in (namesField field key) in
      change (namesField field key) with b
  end.

Lemma runeLen_coerceFrom c rest n :
  runeLen (String c rest) = S n -> runeLen (String c (coerceFrom n rest)) = S n.
Proof.
  unfold runeLen.
  destruct (inRange 0 127 c); [by intros [= <-]|].
  destruct (firstByte c) as [size [lo hi]].
  repeat (case_match; simplify_eq/=; try done).
Qed.

Lemma coerceFrom_idemp s : forall n, coerceFrom n (coerceFrom n s) = coerceFrom n s.
Proof.
  induction s as [|c rest IH]; intros n; [reflexivity|].
  destruct n as [|n].
  - cbn [coerceFrom]. destruct (runeLen (String c rest)) as [|n] eqn:Hlen.
    + change (coerceFrom 0 (replacementChar +:+ coerceFrom 0 rest))
        with (replacementChar +:+ coerceFrom 0 (coerceFrom 0 rest)).
      by rewrite IH.
    + cbn [coerceFrom]. rewrite (runeLen_coerceFrom _ _ _ Hlen). by rewrite IH.
  - cbn [coerceFrom]. by rewrite IH.
Qed.

(** What the coercion returns is valid UTF-8. *)
Lemma toValidUTF8_valid s : validUTF8 (toValidUTF8 s).
Proof. apply coerceFrom_idemp. Qed.

Lemma unmarshalInt_in_range z old : is_int z -> unmarshalInt (JNumber z) old = Some z.
Proof.
  intros [Hlo Hhi]. unfold unmarshalInt.
  by rewrite !bool_decide_eq_true_2.
Qed.

Lemma unmarshalCard_marshalCard c old :
  wfCard c -> unmarshalCard (marshalCard c) old = Some c.
Proof.
  intros [Hn Hs]. destruct c as [n s]. cbn in Hn, Hs.
  unfold unmarshalCard, marshalCard, unmarshalField, marshalString.
  cbn -[unmarshalInt namesField toValidUTF8]. fold_fields.
  cbn -[unmarshalInt toValidUTF8]. rewrite unmarshalInt_in_range by done.
  by rewrite !Hs.
Qed.

Lemma unmarshalCardItems_marshal cards : forall backing,
  Forall wfCard cards ->
  unmarshalCardItems (map marshalCard cards) backing = Some cards.
Proof.
  induction cards as [|c cards IH]; intros backing Hall; [reflexivity|].
  apply Forall_cons in Hall as [Hc Hall].
  cbn [map unmarshalCardItems]. by rewrite unmarshalCard_marshalCard, IH.
Qed.

Lemma unmarshalCards_marshalCards cards :
  Forall wfCard cards ->
  unmarshalCards (marshalCards cards) (mkCardSlice [] []) = Some (mkCardSlice cards []).
Proof.
  intros Hall. destruct cards as [|c cards]; [reflexivity|].
  unfold unmarshalCards, marshalCards.
  cbn [map slice behind app]. rewrite <- (map_cons marshalCard).
  rewrite unmarshalCardItems_marshal by done.
  reflexivity.
Qed.

Lemma unmarshalInto_unknown name bs :
  name ∉ knownNames -> unmarshalInto name bs = None.
Proof.
  intros Hname. unfold unmarshalInto.
  repeat case_decide; try reflexivity; subst; exfalso; apply Hname;
    unfold knownNames; set_solver.
Qed.

Lemma wfAction_cards a cards meldType :
  Forall is_int (intsOf (ActionMeldCards a cards meldType)) ->
  Forall validUTF8 (stringsOf (ActionMeldCards a cards meldType)) ->
  is_int (PlayerID a) /\ validUTF8 meldType /\ Forall wfCard cards.
Proof.
  cbn. intros [Hid Hn]%Forall_cons [Hm Hs]%Forall_cons.
  split; [done|]. split; [done|].
  rewrite List.Forall_map in Hn, Hs. rewrite Forall_forall in *.
  intros c Hc. split; [by apply Hn | by apply Hs].
Qed.

(** The six names are ASCII. *)
Lemma knownNames_valid : Forall validUTF8 knownNames.
Proof. repeat (constructor; [vm_compute; reflexivity|]). constructor. Qed.

Ltac coerce_names :=
  repeat first
    [ progress change (toValidUTF8 DRAW_FROM_DRAW_PILE) with DRAW_FROM_DRAW_PILE
    | progress change (toValidUTF8 DRAW_FROM_DISCARD_PILE) with DRAW_FROM_DISCARD_PILE
    | progress change (toValidUTF8 DISCARD_CARD) with DISCARD_CARD
    | progress change (toValidUTF8 MELD_CARDS) with MELD_CARDS
    | progress change (toValidUTF8 KNOCK) with KNOCK
    | progress change (toValidUTF8 CONFIRM_ROUND_FINISHED) with CONFIRM_ROUND_FINISHED ].

Ltac codec_step :=
  cbn -[unmarshalInt namesField toValidUTF8 marshalCard unmarshalCard
        marshalCards unmarshalCards];
  fold_fields;
  cbn -[unmarshalInt namesField toValidUTF8 marshalCard unmarshalCard
        marshalCards unmarshalCards];
  coerce_names.

(** The round trip of the codec on an action built by a constructor. *)
Lemma DeserializeAction_SerializeAction action :
  constructed action -> Forall is_int (intsOf action) ->
  Forall validUTF8 (stringsOf action) ->
  DeserializeAction (SerializeAction action) = Decoded action.
Proof.
  intros Hc Hints Hstrings.
  destruct Hc as [playerID|playerID|card playerID|cards meldType playerID|playerID|playerID].
  1, 2, 5, 6:
    apply Forall_cons in Hints as [Hid _]; change (is_int playerID) in Hid;
    unfold DeserializeAction, unmarshalActionName, SerializeAction, marshalAct,
      marshalString, unmarshalField;
    codec_step; unfold unmarshalInto; decide_strings;
    unfold unmarshalAct, unmarshalField; codec_step;
    rewrite unmarshalInt_in_range by done; reflexivity.
  - apply Forall_cons in Hints as [Hid [Hn _]%Forall_cons].
    apply Forall_cons in Hstrings as [Hs _].
    change (is_int playerID) in Hid. assert (wfCard card) as Hcard by done.
    unfold DeserializeAction, unmarshalActionName, SerializeAction, marshalAct,
      marshalString, unmarshalField, NewActionDiscardCard.
    codec_step. unfold unmarshalInto. decide_strings.
    unfold unmarshalAct, unmarshalField. codec_step.
    rewrite unmarshalInt_in_range by done.
    cbn -[marshalCard unmarshalCard].
    by rewrite unmarshalCard_marshalCard.
  - apply wfAction_cards in Hstrings as (Hid & Hm & Hcards); [|done].
    change (is_int playerID) in Hid.
    unfold DeserializeAction, unmarshalActionName, SerializeAction, marshalAct,
      marshalString, unmarshalField, NewActionMeldCards.
    codec_step. unfold unmarshalInto. decide_strings.
    unfold unmarshalAct, unmarshalField. codec_step.
    rewrite unmarshalInt_in_range by done.
    cbn -[marshalCards unmarshalCards toValidUTF8].
    rewrite unmarshalCards_marshalCards by done.
    cbn -[toValidUTF8]. by rewrite !Hm.
Qed.

(** C9, the claim as stated fails: [json.Marshal] writes U+FFFD for a byte
    that is not UTF-8, so a meld action built by [NewActionMeldCards] with
    the meld type made of the one byte FF is deserialized, without an
    error, as a meld action with another meld type. *)
Lemma codec_rewrites_invalid_utf8 :
  let action := NewActionMeldCards [] (String "255" "") 0 in
  constructed action /\ Forall is_int (intsOf action) /\
  DeserializeAction (SerializeAction action)
  = Decoded (NewActionMeldCards [] replacementChar 0) /\
  NewActionMeldCards [] replacementChar 0 ≠ action.
Proof.
  split; [constructor|]. split.
  - constructor; [unfold is_int; cbn; lia | constructor].
  - split; [vm_compute; reflexivity | discriminate].
Qed.

(** C9, amended. Action codec round-trip and unknown-tag failure: for every
    action built by one of the six constructors whose strings (the suits of
    its cards, its meld type) are valid UTF-8, its [int] fields being Go
    ints, deserializing its serialization succeeds and yields the very same
    action (same variant, name, player id and variant fields), also when
    the cards of a meld are the nil slice, which is written as [null]; and
    a serialized record whose name, as the decoder reads it, is none of the
    six known names fails to deserialize with the unknown-action error. *)
Theorem action_codec_roundtrip :
  (forall action,
      constructed action -> Forall is_int (intsOf action) ->
      Forall validUTF8 (stringsOf action) ->
      DeserializeAction (SerializeAction action) = Decoded action) /\
  (forall meldType playerID,
      is_int playerID -> validUTF8 meldType ->
      DeserializeAction
        (JObject (marshalAct (mkAct MELD_CARDS playerID) ++
                  [("cards", JNull); ("meldType", marshalString meldType)]))
      = Decoded (NewActionMeldCards [] meldType playerID)) /\
  (forall bs name,
      unmarshalActionName bs = Some name -> name ∉ knownNames ->
      DeserializeAction bs = Failed (errUnknownAction bs)).
Proof.
  split; [|split].
  - apply DeserializeAction_SerializeAction.
  - intros meldType playerID Hid Hm.
    unfold DeserializeAction, unmarshalActionName, marshalAct, marshalString,
      unmarshalField, NewActionMeldCards.
    codec_step. unfold unmarshalInto. decide_strings.
    unfold unmarshalAct, unmarshalField. codec_step.
    rewrite unmarshalInt_in_range by done.
    cbn -[toValidUTF8]. by rewrite !Hm.
  - intros bs name Hname Hunknown. unfold DeserializeAction.
    by rewrite Hname, unmarshalInto_unknown.
Qed.

Lemma action_codec_roundtrip_witness :
  let action := NewActionMeldCards [oro 4; oro 5; oro 6] MeldTypeRun 1 in
  let unknown := JObject [("Name", JString "flor"); ("playerID", JNumber 0)] in
  (constructed action /\ Forall is_int (intsOf action) /\
   Forall validUTF8 (stringsOf action) /\
   DeserializeAction (SerializeAction action) = Decoded action) /\
  (unmarshalActionName unknown = Some "flor" /\ ("flor" ∉ knownNames) /\
   DeserializeAction unknown = Failed (errUnknownAction unknown)).
Proof.
  intros action unknown.
  assert (constructed action) as Hc by constructor.
  assert (Forall is_int (intsOf action)) as Hints.
  { change (Forall is_int [1; 4; 5; 6]).
    repeat (constructor; [unfold is_int; lia|]). constructor. }
  assert (Forall validUTF8 (stringsOf action)) as Hstrings.
  { change (Forall validUTF8 ["run"; "oro"; "oro"; "oro"]).
    repeat (constructor; [reflexivity|]). constructor. }
  assert (unmarshalActionName unknown = Some "flor") as Hname by reflexivity.
  assert ("flor" ∉ knownNames) as Hunknown.
  { unfold knownNames. rewrite !elem_of_cons, elem_of_nil. intros H.
    repeat destruct H as [H|H]; try discriminate H. exact H. }
  destruct action_codec_roundtrip as (Hround & _ & Hfail).
  split.
  - split; [exact Hc|]. split; [exact Hints|]. split; [exact Hstrings|].
    exact (Hround action Hc Hints Hstrings).
  - split; [exact Hname|]. split; [exact Hunknown|].
    exact (Hfail unknown "flor" Hname Hunknown).
Defined.

(** ** The shape of [RunAction] *)

Lemma RunAction_success e action g g' :
  RunAction e (Some action) g = Ret (g', None) ->
  IsGameEnded g = false /\ IsPossible action g = Ret true /\
  exists g1, Run action g = Ret (g1, None) /\ afterRun e action g1 = Ret (g', None).
Proof.
  unfold RunAction. res_unfold. intros H.
  destruct (IsGameEnded g); [discriminate|].
  destruct (_ && _); [discriminate|].
  destruct (IsPossible action g) as [[|]|]; simpl in H; try discriminate.
  destruct (Run action g) as [[g1 [err|]]|]; try discriminate.
  eauto.
Qed.

Lemma afterRun_no_error e action g g' err :
  afterRun e action g = Ret (g', Some err) -> False.
Proof.
  unfold afterRun. res_unfold. intros H.
  repeat case_match; simplify_eq.
Qed.

Lemma Run_error_unchanged action g g' err :
  Run action g = Ret (g', Some err) -> g' = g.
Proof.
  destruct action; simpl;
    unfold DrawFromDrawPile_Run, DrawFromDiscardPile_Run, DiscardCard_Run,
      MeldCards_Run, Knock_Run, ConfirmRoundFinished_Run, appendToHand;
    res_unfold; intros H; repeat case_match; simplify_eq; reflexivity.
Qed.

(** C4. Rejection atomicity: whenever [RunAction] returns an error, whatever
    the state and the action, the state it leaves is the state it was given:
    no field changed, no log grew, the stored possible actions are the
    same. *)
Theorem RunAction_rejection_leaves_state e action g g' err :
  RunAction e action g = Ret (g', Some err) -> g' = g.
Proof.
  unfold RunAction. res_unfold. intros H.
  repeat case_match; simplify_eq; try reflexivity.
  - eauto using Run_error_unchanged.
  - exfalso; eauto using afterRun_no_error.
Qed.

Lemma RunAction_rejection_leaves_state_witness :
  let action := NewActionDrawFromDrawPile 0 in
  let err := errWrap errActionNotPossible " trying to run" action in
  RunAction identityEnv (Some action) tiedGame = Ret (tiedGame, Some err) /\
  tiedGame = tiedGame.
Proof.
  intros action err.
  assert (RunAction identityEnv (Some action) tiedGame = Ret (tiedGame, Some err)) as Hrun
      by (vm_compute; reflexivity).
  split; [exact Hrun|].
  exact (RunAction_rejection_leaves_state identityEnv (Some action) tiedGame tiedGame err Hrun).
Defined.

(** C10. Nil-action no-op: [RunAction] with a nil action returns no error
    and leaves the state untouched, also when the game has ended. *)
Theorem RunAction_nil e g : RunAction e None g = Ret (g, None).
Proof. reflexivity. Qed.

(** C5, the claim as stated fails: in a game that has ended while its round
    is still open (a fresh game with target 0 after its first draw), an
    action of the player who is not to move is rejected with the game-ended
    error, which is not the not-your-turn error. *)
Lemma turn_check_comes_after_game_end :
  match endedInRound with
  | Ret g =>
      let action := NewActionDrawFromDrawPile 0 in
      let err := errWrap errGameIsEnded " trying to run" action in
      IsRoundFinished g = false /\ GetPlayerID action ≠ TurnPlayerID g /\
      RunAction identityEnv (Some action) g = Ret (g, Some err) /\
      ~ errorsIs err errNotYourTurn
  | Panic => False
  end.
Proof.
  vm_compute. split; [reflexivity|]. split; [discriminate|]. split; [reflexivity|].
  intros [H|[H|[]]]; discriminate H.
Qed.

(** C5, amended. Turn exclusivity: in a game that has not ended and whose
    round is not finished, an action whose player id differs from the turn
    player id is rejected with the not-your-turn error, and the state is
    left as it was. *)
Theorem RunAction_not_your_turn e action g :
  IsGameEnded g = false -> IsRoundFinished g = false ->
  GetPlayerID action ≠ TurnPlayerID g ->
  RunAction e (Some action) g = Ret (g, Some errNotYourTurn).
Proof.
  intros Hended Hround Hturn. unfold RunAction.
  rewrite Hended, Hround. simpl.
  by rewrite bool_decide_eq_true_2.
Qed.

Lemma RunAction_not_your_turn_witness :
  let action := NewActionKnock 1 in
  IsGameEnded tiedGame = false /\ IsRoundFinished tiedGame = false /\
  GetPlayerID action ≠ TurnPlayerID tiedGame /\
  RunAction identityEnv (Some action) tiedGame = Ret (tiedGame, Some errNotYourTurn).
Proof.
  intros action.
  assert (IsGameEnded tiedGame = false) as Hended by reflexivity.
  assert (IsRoundFinished tiedGame = false) as Hround by reflexivity.
  assert (GetPlayerID action ≠ TurnPlayerID tiedGame) as Hturn by (vm_compute; discriminate).
  split; [exact Hended|]. split; [exact Hround|]. split; [exact Hturn|].
  exact (RunAction_not_your_turn identityEnv action tiedGame Hended Hround Hturn).
Defined.

(** ** Knocking *)

Lemma Knock_IsPossible_spec a g :
  Knock_IsPossible a g = Ret true <->
  TurnPlayerID g = PlayerID a /\ HasDrawnThisTurn g = true /\
  HasDiscardedThisTurn g = true /\ IsRoundFinished g = false /\
  exists p, getPlayer g (PlayerID a) = Some p /\ deadwoodOf p <= 10.
Proof.
  unfold Knock_IsPossible, hasValidMelds, deadwoodOf. res_unfold.
  destruct (HasDrawnThisTurn g), (HasDiscardedThisTurn g), (IsRoundFinished g);
    simpl; rewrite ?orb_true_r, ?orb_false_r;
    try (split; [intros H; discriminate H | intros (_ & ? & ? & ? & _); discriminate]).
  destruct (bool_decide_reflect (TurnPlayerID g ≠ PlayerID a)) as [Hne|Heq]; simpl.
  - split; [discriminate | intros [? _]; contradiction].
  - apply dec_stable in Heq. destruct (getPlayer g (PlayerID a)) as [p|] eqn:Hp.
    + split.
      * intros [= Hd]. apply bool_decide_eq_true in Hd. eauto 10.
      * intros (_ & _ & _ & _ & p' & [= <-] & Hd). f_equal. by apply bool_decide_eq_true.
    + split; [discriminate | intros (_ & _ & _ & _ & p' & [=] & _)].
Qed.

(** C1, the code at a tie: player 0 knocks in [tiedGame], where both
    players hold 10 points of deadwood.  The knock is applied and the round
    log names player 0, the knocker, as the winner.  [calculateRoundScore]
    breaks the tie on [roundLog.KnockedPlayerID], which [ActionKnock.Run]
    sets only after the score has been calculated. *)
Theorem knock_tie_goes_to_knocker_0 :
  deadwoodOf (Player0 (Players tiedGame)) = deadwoodOf (Player1 (Players tiedGame)) /\
  option_map
    (fun r => (RoundLog_KnockedPlayerID r, RoundLog_WinnerPlayerID r, LoserPlayerID r))
    (roundLogAfter identityEnv (NewActionKnock 0) tiedGame)
  = Some (0, 0, 1).
Proof. split; vm_compute; reflexivity. Qed.

(** C2, the code at an undercut: player 0 knocks in [undercutGame] with 10
    points of deadwood against 3.  Player 1 wins the round and is awarded
    7 points, the bare difference: the undercut bonus of 10 is not added,
    for the same reason as in C1. *)
Theorem knock_undercut_bonus_missing :
  option_map
    (fun r => (RoundLog_KnockedPlayerID r, RoundLog_WinnerPlayerID r,
               WinnerDeadwoodPoints r, LoserDeadwoodPoints r, PointsAwarded r))
    (roundLogAfter identityEnv (NewActionKnock 0) undercutGame)
  = Some (0, 1, 3, 10, 7).
Proof. vm_compute; reflexivity. Qed.

(** ** The meld-candidate generator *)

(** *** The exchange sort *)

Lemma sortPass_spec rest : forall cur m out,
  sortPass cur rest = (m, out) ->
  m :: out ≡ₚ cur :: rest /\ Forall (byNumber m) out /\ byNumber m cur.
Proof.
  unfold byNumber.
  induction rest as [|c rest IH]; intros cur m out Hpass; simpl in Hpass.
  - simplify_eq. split; [done|]. split; [constructor | lia].
  - case_bool_decide as Hgt.
    + destruct (sortPass c rest) as [m' out'] eqn:Hrec. simplify_eq.
      destruct (IH _ _ _ Hrec) as (Hperm & Hall & Hle).
      split; [|split].
      * etrans; [apply perm_swap|]. by apply perm_skip.
      * constructor; [lia | done].
      * lia.
    + destruct (sortPass cur rest) as [m' out'] eqn:Hrec. simplify_eq.
      destruct (IH _ _ _ Hrec) as (Hperm & Hall & Hle).
      split; [|split].
      * etrans; [apply perm_swap|]. etrans; [apply perm_skip, Hperm|]. apply perm_swap.
      * constructor; [lia | done].
      * done.
Qed.

Lemma sortLoop_perm n : forall s, sortLoop n s ≡ₚ s.
Proof.
  induction n as [|n IH]; intros [|c rest]; simpl; try done.
  destruct (sortPass c rest) as [m out] eqn:Hpass.
  apply sortPass_spec in Hpass as (Hperm & _ & _).
  by rewrite IH.
Qed.

Lemma sortLoop_sorted n : forall s,
  (length s <= S n)%nat -> StronglySorted byNumber (sortLoop n s).
Proof.
  induction n as [|n IH]; intros [|c rest] Hlen; simpl in *.
  - constructor.
  - destruct rest; [|simpl in Hlen; lia]. repeat constructor.
  - constructor.
  - destruct (sortPass c rest) as [m out] eqn:Hpass.
    apply sortPass_spec in Hpass as (Hperm & Hall & _).
    assert (length out = length rest) as Hout.
    { apply Permutation_length in Hperm. simpl in Hperm. lia. }
    constructor.
    + apply IH. lia.
    + by rewrite sortLoop_perm.
Qed.

Lemma sortByNumber_perm cards : sortByNumber cards ≡ₚ cards.
Proof. apply sortLoop_perm. Qed.

Lemma sortByNumber_sorted cards : StronglySorted byNumber (sortByNumber cards).
Proof. apply sortLoop_sorted. lia. Qed.

(** *** Consecutive runs *)

Lemma consecutiveFrom_app prev l1 l2 :
  consecutiveFrom prev (l1 ++ l2) = true ->
  consecutiveFrom prev l1 = true /\ consecutiveNumbers l2 = true.
Proof.
  revert prev. induction l1 as [|c l1 IH]; intros prev H; simpl in *.
  - split; [done|]. destruct l2 as [|d l2]; [done|].
    simpl in H. by apply andb_prop in H as [_ H].
  - apply andb_prop in H as [Hc H]. apply IH in H as [H1 H2].
    by rewrite Hc, H1.
Qed.

Lemma consecutiveNumbers_app l1 l2 :
  consecutiveNumbers (l1 ++ l2) = true ->
  consecutiveNumbers l1 = true /\ consecutiveNumbers l2 = true.
Proof.
  destruct l1 as [|c l1]; simpl; [done|]. apply consecutiveFrom_app.
Qed.

Lemma consecutiveNumbers_segment before x after :
  consecutiveNumbers (before ++ x ++ after) = true -> consecutiveNumbers x = true.
Proof.
  intros H. apply consecutiveNumbers_app in H as [_ H].
  by apply consecutiveNumbers_app in H as [H _].
Qed.

Lemma segment_take_drop {A} (l : list A) start len :
  l = take start l ++ take len (drop start l) ++ drop len (drop start l).
Proof. by rewrite !take_drop. Qed.

Lemma runFrom_spec rest : forall prev r aft,
  runFrom prev rest = (r, aft) ->
  rest = r ++ aft /\ consecutiveFrom prev r = true.
Proof.
  induction rest as [|c rest IH]; intros prev r aft H; simpl in H.
  - by simplify_eq.
  - case_bool_decide as Hc.
    + destruct (runFrom c rest) as [r' aft'] eqn:Hrec. simplify_eq.
      destruct (IH _ _ _ Hrec) as [-> Hr]. split; [done|].
      simpl. by rewrite bool_decide_eq_true_2.
    + by simplify_eq.
Qed.

Lemma elem_of_subRuns x runCards :
  x ∈ subRuns runCards <->
  exists len startIdx,
    (3 <= len)%nat /\ (startIdx + len <= length runCards)%nat /\
    x = take len (drop startIdx runCards).
Proof.
  unfold subRuns. rewrite list_elem_of_bind. split.
  - intros (len & Hx & Hlen). apply list_elem_of_bind in Hx as (start & Hx & Hstart).
    apply elem_of_seq in Hlen, Hstart. apply list_elem_of_singleton in Hx.
    exists len, start. repeat split; [lia | lia | done].
  - intros (len & start & Hlen & Hfit & ->). exists len. split.
    + apply list_elem_of_bind. exists start. split; [by apply list_elem_of_singleton|].
      apply elem_of_seq. lia.
    + apply elem_of_seq. lia.
Qed.

Lemma findRunsLoop_sound fuel : forall s x,
  x ∈ findRunsLoop fuel s ->
  (3 <= length x)%nat /\ consecutiveNumbers x = true /\
  exists before after, s = before ++ x ++ after.
Proof.
  induction fuel as [|fuel IH]; intros [|first rest] x Hx; simpl in Hx;
    try by apply elem_of_nil in Hx.
  destruct (runFrom first rest) as [r aft] eqn:Hrun.
  apply runFrom_spec in Hrun as [-> Hchain].
  apply elem_of_app in Hx as [Hx|Hx].
  - case_bool_decide; [|by apply elem_of_nil in Hx].
    apply elem_of_subRuns in Hx as (len & start & Hlen & Hfit & ->).
    split; [|split].
    + rewrite length_take, length_drop. lia.
    + eapply (consecutiveNumbers_segment (take start (first :: r)) _
                (drop len (drop start (first :: r)))).
      by rewrite <- segment_take_drop.
    + exists (take start (first :: r)), (drop len (drop start (first :: r)) ++ aft).
      by rewrite (app_assoc (take len _)), take_drop, app_assoc, take_drop.
  - apply IH in Hx as (Hlen & Hc & before & after & ->).
    split; [done|]. split; [done|].
    exists (first :: r ++ before), after. simpl. by rewrite <- app_assoc.
Qed.

(** A run at the head of the rest is walked over completely. *)
Lemma runFrom_prefix run : forall prev after,
  consecutiveFrom prev run = true ->
  exists more aft, runFrom prev (run ++ after) = (run ++ more, aft) /\
                   (length aft <= length after)%nat.
Proof.
  induction run as [|c run IH]; intros prev after H; simpl in *.
  - destruct (runFrom prev after) as [r aft] eqn:Hrun.
    exists r, aft. split; [done|].
    apply runFrom_spec in Hrun as [-> _]. rewrite length_app. lia.
  - apply andb_prop in H as [Hc H]. rewrite Hc.
    destruct (IH c after H) as (more & aft & -> & Hlen). eauto.
Qed.

(** A run further down is either walked over completely or left whole. *)
Lemma runFrom_segment pre : forall prev run after r aft,
  consecutiveNumbers run = true ->
  runFrom prev (pre ++ run ++ after) = (r, aft) ->
  (exists more, r = pre ++ run ++ more) \/
  (exists pre', aft = pre' ++ run ++ after).
Proof.
  induction pre as [|p pre IH]; intros prev run after r aft Hrun H; simpl in H.
  - destruct run as [|c run]; simpl in *.
    + left. exists r. done.
    + case_bool_decide as Hc.
      * destruct (runFrom_prefix run c after Hrun) as (more & aft' & Heq & _).
        rewrite Heq in H. simplify_eq. left. eauto.
      * simplify_eq. right. by exists [].
  - case_bool_decide as Hp.
    + destruct (runFrom p (pre ++ run ++ after)) as [r' aft'] eqn:Hrec. simplify_eq.
      destruct (IH _ _ _ _ _ Hrun Hrec) as [[more ->]|[pre' ->]].
      * left. by exists more.
      * right. by exists pre'.
    + simplify_eq. right. by exists (p :: pre).
Qed.

Lemma findRunsLoop_complete fuel : forall s before run after,
  (length s <= fuel)%nat ->
  s = before ++ run ++ after ->
  (3 <= length run)%nat -> consecutiveNumbers run = true ->
  run ∈ findRunsLoop fuel s.
Proof.
  induction fuel as [|fuel IH]; intros s before run after Hfuel -> Hlen Hrun.
  - rewrite !length_app in Hfuel. lia.
  - destruct before as [|b before].
    + destruct run as [|c run]; simpl in *; [lia|].
      destruct (runFrom_prefix run c after Hrun) as (more & aft & -> & _).
      apply elem_of_app. left.
      rewrite bool_decide_eq_true_2 by (simpl; rewrite length_app; lia).
      apply elem_of_subRuns. exists (length (c :: run)), 0%nat.
      split; [simpl; lia|]. split; [simpl; rewrite !length_app; simpl; lia|].
      rewrite drop_0. change (c :: run ++ more) with ((c :: run) ++ more).
      by rewrite take_app_length.
    + simpl. destruct (runFrom b (before ++ run ++ after)) as [r aft] eqn:Hfrom.
      pose proof (runFrom_spec _ _ _ _ Hfrom) as [Hrest _].
      apply elem_of_app.
      destruct (runFrom_segment _ _ _ _ _ _ Hrun Hfrom) as [[more ->]|[pre' ->]].
      * left.
        rewrite bool_decide_eq_true_2 by (simpl; rewrite !length_app; lia).
        apply elem_of_subRuns. exists (length run), (length (b :: before)).
        split; [done|]. split; [simpl; rewrite !length_app; lia|].
        change (b :: before ++ run ++ more) with ((b :: before) ++ run ++ more).
        by rewrite drop_app_length, take_app_length.
      * right. eapply IH; [|done..].
        simpl in Hfuel. rewrite Hrest, length_app in Hfuel. lia.
Qed.

(** *** From the code's wrap-around successor test to true successors *)

Lemma consecutive_ascending cards :
  intCards cards -> StronglySorted byNumber cards ->
  consecutiveNumbers cards = true -> ascendingConsecutive cards.
Proof.
  induction cards as [|c [|d cards] IH]; intros Hint Hsorted Hchain; simpl; try done.
  apply Forall_cons in Hint as [Hc Hint].
  apply StronglySorted_inv in Hsorted as [Hsorted Hall].
  simpl in Hchain. apply andb_prop in Hchain as [Hd Hchain].
  apply bool_decide_eq_true in Hd. apply Forall_cons in Hall as [Hle _].
  split; [by apply int64_succ_ascending | by apply IH].
Qed.

Lemma ascending_consecutive cards :
  intCards cards -> ascendingConsecutive cards -> consecutiveNumbers cards = true.
Proof.
  induction cards as [|c [|d cards] IH]; intros Hint Hasc; try done.
  apply Forall_cons in Hint as [Hc Hint]. destruct Hasc as [Hd Hasc].
  pose proof Hint as Hint'. apply Forall_cons in Hint' as [Hdint _].
  change (consecutiveNumbers (c :: d :: cards))
    with (bool_decide (Number d = int64_wrap (Number c + 1)) && consecutiveNumbers (d :: cards)).
  rewrite (IH Hint Hasc), andb_true_r. apply bool_decide_eq_true.
  rewrite int64_wrap_id; [done | by rewrite <- Hd].
Qed.

(** *** Sets *)

Lemma generateCombinations_length cards : forall k combo,
  combo ∈ generateCombinations cards k -> length combo = k.
Proof.
  induction cards as [|first remaining IH]; intros [|k] combo Hin; simpl in Hin.
  - by apply list_elem_of_singleton in Hin as ->.
  - by apply elem_of_nil in Hin.
  - by apply list_elem_of_singleton in Hin as ->.
  - case_bool_decide; [by apply elem_of_nil in Hin|].
    apply elem_of_app in Hin as [Hin|Hin].
    + change (map (cons first) ?l) with (cons first <$> l) in Hin.
      apply list_elem_of_fmap in Hin as (combo' & -> & Hin). simpl. f_equal. eauto.
    + eauto.
Qed.

Lemma isValidSet_three c1 c2 c3 :
  isValidSet [c1; c2; c3] = true ->
  Number c2 = Number c1 /\ Number c3 = Number c1 /\
  Suit c1 ≠ Suit c2 /\ Suit c1 ≠ Suit c3 /\ Suit c2 ≠ Suit c3.
Proof.
  unfold isValidSet. simpl.
  repeat (case_bool_decide; try discriminate). intros _.
  repeat match goal with H : ¬ _ ≠ _ |- _ => apply dec_stable in H end.
  set_solver.
Qed.

Lemma groupOf_sorted_suit suit hand c :
  c ∈ sortByNumber (groupOf Suit suit hand) -> Suit c = suit /\ c ∈ hand.
Proof.
  rewrite sortByNumber_perm. unfold groupOf. by rewrite list_elem_of_filter.
Qed.

Lemma intCards_segment whole before seg after :
  intCards whole -> whole = before ++ seg ++ after -> intCards seg.
Proof.
  unfold intCards. intros H ->. rewrite !Forall_app in H. tauto.
Qed.

Lemma intCards_sorted_group suit hand :
  intCards hand -> intCards (sortByNumber (groupOf Suit suit hand)).
Proof.
  unfold intCards. rewrite !Forall_forall. intros H c Hc.
  apply groupOf_sorted_suit in Hc as [_ Hc]. auto.
Qed.

(** C7. Meld-candidate generator, validity and completeness: for every hand
    (of cards whose numbers are Go ints), every set candidate consists of 3
    cards of one rank with pairwise distinct suits; every run candidate
    consists of at least 3 cards of one suit whose ranks go up by one from
    each card to the next; and for every suit, every consecutive-rank run
    found in the sorted cards of that suit (the maximal ones included), and
    every start and length from 3 up to the length of that run, the
    contiguous sub-run is among the run candidates. *)
Theorem meld_candidates_valid_and_complete (hand : list Card) (playerID : Z) :
  intCards hand ->
  (forall action,
      action ∈ generateSetMeldActions hand playerID ->
      exists c1 c2 c3,
        action = NewActionMeldCards [c1; c2; c3] MeldTypeSet playerID /\
        Number c2 = Number c1 /\ Number c3 = Number c1 /\
        Suit c1 ≠ Suit c2 /\ Suit c1 ≠ Suit c3 /\ Suit c2 ≠ Suit c3) /\
  (forall action,
      action ∈ generateRunMeldActions hand playerID ->
      exists suit cards,
        action = NewActionMeldCards cards MeldTypeRun playerID /\
        (3 <= length cards)%nat /\
        Forall (fun c => Suit c = suit) cards /\
        ascendingConsecutive cards) /\
  (forall suit before run after startIdx len,
      sortByNumber (groupOf Suit suit hand) = before ++ run ++ after ->
      ascendingConsecutive run ->
      (3 <= len)%nat -> (startIdx + len <= length run)%nat ->
      NewActionMeldCards (take len (drop startIdx run)) MeldTypeRun playerID
        ∈ generateRunMeldActions hand playerID).
Proof.
  intros Hint. split; [|split].
  - intros action Hin. unfold generateSetMeldActions in Hin.
    apply list_elem_of_bind in Hin as (rank & Hin & _).
    case_bool_decide; [|by apply elem_of_nil in Hin].
    change (map ?f ?l) with (f <$> l) in Hin.
    apply list_elem_of_fmap in Hin as (combo & -> & Hin).
    apply list_elem_of_filter in Hin as [Hvalid Hin].
    apply generateCombinations_length in Hin.
    destruct combo as [|c1 [|c2 [|c3 [|]]]]; try discriminate Hin.
    exists c1, c2, c3. split; [done|]. by apply isValidSet_three.
  - intros action Hin. unfold generateRunMeldActions in Hin.
    apply list_elem_of_bind in Hin as (suit & Hin & _).
    case_bool_decide; [|by apply elem_of_nil in Hin].
    change (map ?f ?l) with (f <$> l) in Hin.
    apply list_elem_of_fmap in Hin as (run & -> & Hin).
    apply findRunsLoop_sound in Hin as (Hlen & Hchain & before & after & Hseg).
    exists suit, run. split; [done|]. split; [done|]. split.
    + apply Forall_forall. intros c Hc.
      eapply groupOf_sorted_suit. rewrite Hseg, !elem_of_app. eauto.
    + apply consecutive_ascending; [| |done].
      * eapply intCards_segment; [|exact Hseg]. by apply intCards_sorted_group.
      * pose proof (sortByNumber_sorted (groupOf Suit suit hand)) as Hsorted.
        rewrite Hseg in Hsorted.
        apply StronglySorted_app_1_r, StronglySorted_app_1_l in Hsorted. done.
  - intros suit before run after startIdx len Hseg Hasc Hlen Hfit.
    set (sub := take len (drop startIdx run)).
    assert (length sub = len) as Hsublen.
    { unfold sub. rewrite length_take, length_drop. lia. }
    assert (exists c, c ∈ sub) as [c Hc].
    { destruct sub as [|c sub']; [simpl in Hsublen; lia|]. exists c. left. }
    assert (sortByNumber (groupOf Suit suit hand)
            = (before ++ take startIdx run) ++ sub ++ (drop len (drop startIdx run) ++ after))
      as Hseg'.
    { rewrite Hseg. unfold sub. rewrite <- !app_assoc. f_equal.
      rewrite (app_assoc (take len _)), take_drop, app_assoc, take_drop. done. }
    assert (c ∈ sortByNumber (groupOf Suit suit hand)) as Hcsorted.
    { rewrite Hseg', !elem_of_app. eauto. }
    apply groupOf_sorted_suit in Hcsorted as [Hsuit Hchand].
    unfold generateRunMeldActions. apply list_elem_of_bind. exists suit. split.
    + assert (length (sortByNumber (groupOf Suit suit hand)) = length (groupOf Suit suit hand))
        as Hlensort by (by rewrite sortByNumber_perm).
      rewrite bool_decide_eq_true_2.
      2:{ rewrite <- Hlensort, Hseg', !length_app. lia. }
      change (map ?f ?l) with (f <$> l). apply list_elem_of_fmap.
      exists sub. split; [done|].
      eapply findRunsLoop_complete; [done | exact Hseg' | lia |].
      eapply (consecutiveNumbers_segment (take startIdx run) _ (drop len (drop startIdx run))).
      unfold sub. rewrite <- segment_take_drop. apply ascending_consecutive; [|done].
      eapply intCards_segment; [|exact Hseg]. by apply intCards_sorted_group.
    + unfold groupKeys. apply elem_of_remove_dups.
      change (map ?f ?l) with (f <$> l). rewrite <- Hsuit. by apply list_elem_of_fmap_2.
Qed.

Lemma meld_candidates_valid_and_complete_witness :
  let hand := [oro 3; copa 1; oro 1; espada 1; oro 4; basto 5; oro 2] in
  intCards hand /\
  sortByNumber (groupOf Suit "oro" hand) = [oro 1] ++ [oro 2; oro 3; oro 4] ++ [] /\
  ascendingConsecutive [oro 2; oro 3; oro 4] /\
  NewActionMeldCards [oro 2; oro 3; oro 4] MeldTypeRun 0 ∈ generateRunMeldActions hand 0.
Proof.
  intros hand.
  assert (intCards hand) as Hint
      by (unfold hand; repeat (constructor; [unfold is_int; simpl; lia|]); constructor).
  assert (sortByNumber (groupOf Suit "oro" hand) = [oro 1] ++ [oro 2; oro 3; oro 4] ++ [])
    as Hsorted by (vm_compute; reflexivity).
  assert (ascendingConsecutive [oro 2; oro 3; oro 4]) as Hasc by (simpl; lia).
  split; [exact Hint|]. split; [exact Hsorted|]. split; [exact Hasc|].
  exact (proj2 (proj2 (meld_candidates_valid_and_complete hand 0 Hint))
           "oro" [oro 1] [oro 2; oro 3; oro 4] [] 0%nat 3%nat Hsorted Hasc
           (le_n 3) (le_n 3)).
Defined.

(** ** Conservation of cards *)

(** Taking one card out of a hand without duplicates. *)
Lemma filter_remove_one (card : Card) hand :
  NoDup hand -> card ∈ hand ->
  filter (fun c => c ≠ card) hand ++ [card] ≡ₚ hand.
Proof.
  intros Hnd Hin.
  rewrite <- (filter_app_complement (fun c => c ≠ card) hand) at 2.
  f_equiv. apply NoDup_Permutation.
  - apply NoDup_singleton.
  - by apply NoDup_filter.
  - intros c. rewrite list_elem_of_singleton, list_elem_of_filter. split.
    + intros ->. split; [|done]. by intros Hne.
    + intros [Heq _]. by apply dec_stable in Heq.
Qed.

Lemma filter_remove_all (cards hand : list Card) :
  NoDup hand -> NoDup cards -> cards ⊆ hand ->
  filter (fun c => c ∉ cards) hand ++ cards ≡ₚ hand.
Proof.
  intros Hnd Hcards Hsub.
  rewrite <- (filter_app_complement (fun c => c ∉ cards) hand) at 2.
  f_equiv. apply NoDup_Permutation.
  - done.
  - by apply NoDup_filter.
  - intros c. rewrite list_elem_of_filter. split.
    + intros Hc. split; [by intros Hn | by apply Hsub].
    + intros [Hc _]. by apply dec_stable in Hc.
Qed.

(** *** Valid melds have no repeated card *)

Lemma noDuplicateSuit_NoDup cards : forall suits,
  noDuplicateSuit suits cards = true -> NoDup cards.
Proof.
  assert (forall suits, noDuplicateSuit suits cards = true ->
            NoDup cards /\ forall c, c ∈ cards -> Suit c ∉ suits) as H.
  { induction cards as [|c cards IH]; intros suits H; simpl in H.
    - split; [constructor | set_solver].
    - case_bool_decide as Hc; [done|].
      destruct (IH _ H) as [Hnd Hfresh]. split.
      + constructor; [|done]. intros Hin. apply Hfresh in Hin. apply Hin. left.
      + intros d [->|Hd]%elem_of_cons; [done|]. apply Hfresh in Hd.
        intros Hd'. apply Hd. by right. }
  intros suits Hs. by apply H in Hs as [? _].
Qed.

Lemma sorted_consecutive_NoDup cards :
  StronglySorted byNumber cards -> consecutiveNumbers cards = true -> NoDup cards.
Proof.
  induction cards as [|c [|d cards] IH]; intros Hsorted Hchain.
  - constructor.
  - apply NoDup_singleton.
  - apply StronglySorted_inv in Hsorted as [Hsorted Hall].
    simpl in Hchain. apply andb_prop in Hchain as [Hd Hchain].
    apply bool_decide_eq_true in Hd.
    constructor; [|by apply IH].
    pose proof (int64_succ_ne (Number c)) as Hne.
    apply Forall_cons in Hall as [Hcd _].
    apply StronglySorted_inv in Hsorted as [_ Hdall].
    unfold byNumber in *.
    intros [Heq|Hin]%elem_of_cons.
    + subst d. lia.
    + rewrite Forall_forall in Hdall. apply Hdall in Hin. lia.
Qed.

Lemma isValidMeld_NoDup cards meldType :
  isValidMeld cards meldType = true -> NoDup cards.
Proof.
  unfold isValidMeld, MeldCards_isValidSet, MeldCards_isValidRun.
  intros H. repeat case_match; try discriminate.
  - apply andb_prop in H as [_ H]. by eapply noDuplicateSuit_NoDup.
  - apply andb_prop in H as [_ H].
    rewrite <- (sortByNumber_perm _).
    apply sorted_consecutive_NoDup; [apply sortByNumber_sorted | done].
Qed.

(** *** One action on the cards of a round *)

Lemma meldedCards_snoc melds meldType cards :
  meldedCards (melds ++ [mkMeld meldType cards]) = meldedCards melds ++ cards.
Proof.
  unfold meldedCards. rewrite map_app, concat_app. simpl. by rewrite app_nil_r.
Qed.

Lemma cardsInv_perm g g1 :
  unmelded g1 ≡ₚ unmelded g ->
  Melds (Player0 (Players g1)) = Melds (Player0 (Players g)) ->
  Melds (Player1 (Players g1)) = Melds (Player1 (Players g)) ->
  cardsInv g -> cardsInv g1.
Proof.
  unfold cardsInv, cardCount. intros Hperm -> -> [Hnd Hcount].
  by rewrite Hperm.
Qed.

Lemma Run_draw_cards a g g1 :
  cardsInv g ->
  DrawFromDrawPile_Run a g = Ret (g1, None) ->
  cardsInv g1 /\ IsRoundFinished g1 = IsRoundFinished g /\
  IsGameEnded g1 = IsGameEnded g /\ HasDiscardedThisTurn g1 = HasDiscardedThisTurn g.
Proof.
  intros Hinv. unfold DrawFromDrawPile_Run, appendToHand. res_unfold.
  destruct (negb _); [discriminate|].
  destruct (DrawCard (DrawPile g)) as [[pile card] [err|]] eqn:Hdraw.
  - intros [= <-]. apply DrawCard_error in Hdraw as Hempty.
    unfold DrawCard in Hdraw. rewrite Hempty in Hdraw. simpl in Hdraw. simplify_eq.
    split; [|done]. destruct g; done.
  - apply DrawCard_spec in Hdraw. intros Hrun. player_cases a; simplify_eq; (split; [|done]).
    + eapply cardsInv_perm; [| | |done]; [|done..].
      unfold unmelded, handOf. cbn. rewrite Hdraw. solve_Permutation.
    + eapply cardsInv_perm; [| | |done]; [|done..].
      unfold unmelded, handOf. cbn. rewrite Hdraw. solve_Permutation.
Qed.

Lemma Run_draw_discard_cards a g g1 :
  cardsInv g ->
  DrawFromDiscardPile_Run a g = Ret (g1, None) ->
  cardsInv g1 /\ IsRoundFinished g1 = IsRoundFinished g /\
  IsGameEnded g1 = IsGameEnded g /\ HasDiscardedThisTurn g1 = HasDiscardedThisTurn g.
Proof.
  intros Hinv. unfold DrawFromDiscardPile_Run, appendToHand. res_unfold.
  destruct (negb _); [discriminate|].
  destruct (DrawCard (DiscardPile g)) as [[pile card] [err|]] eqn:Hdraw.
  - intros [= <-]. apply DrawCard_error in Hdraw as Hempty.
    unfold DrawCard in Hdraw. rewrite Hempty in Hdraw. simpl in Hdraw. simplify_eq.
    split; [|done]. destruct g; done.
  - apply DrawCard_spec in Hdraw. intros Hrun. player_cases a; simplify_eq; (split; [|done]).
    + eapply cardsInv_perm; [| | |done]; [|done..].
      unfold unmelded, handOf. cbn. rewrite Hdraw. solve_Permutation.
    + eapply cardsInv_perm; [| | |done]; [|done..].
      unfold unmelded, handOf. cbn. rewrite Hdraw. solve_Permutation.
Qed.

Lemma NoDup_unmelded_hands g :
  NoDup (unmelded g) ->
  NoDup (handOf (Player0 (Players g))) /\ NoDup (handOf (Player1 (Players g))).
Proof.
  unfold unmelded. rewrite !NoDup_app. tauto.
Qed.

Lemma Run_discard_cards a card g g1 :
  cardsInv g ->
  DiscardCard_Run a card g = Ret (g1, None) ->
  cardsInv g1 /\ IsRoundFinished g1 = IsRoundFinished g /\
  IsGameEnded g1 = IsGameEnded g.
Proof.
  intros Hinv. unfold DiscardCard_Run, DiscardCard_IsPossible. res_unfold.
  destruct (_ || _); simpl; [discriminate|].
  pose proof (NoDup_unmelded_hands g (proj1 Hinv)) as [Hnd0 Hnd1].
  player_cases a; try discriminate; unfold AddCard;
    case_bool_decide as Hin; simpl; try discriminate;
    intros [= <-]; (split; [|done]);
    (eapply cardsInv_perm; [| | |done]; [|done..]);
    unfold unmelded, handOf in *; cbn.
  - rewrite <- (filter_remove_one card _ Hnd0 Hin) at 2.
    set (filter _ _). solve_Permutation.
  - rewrite <- (filter_remove_one card _ Hnd1 Hin) at 2.
    set (filter _ _). solve_Permutation.
Qed.

Lemma cardsInv_meld g g1 cards :
  cardsInv g -> NoDup cards ->
  unmelded g1 ++ cards ≡ₚ unmelded g ->
  meldedCards (Melds (Player0 (Players g1))) ++ meldedCards (Melds (Player1 (Players g1)))
    ≡ₚ meldedCards (Melds (Player0 (Players g))) ++
       meldedCards (Melds (Player1 (Players g))) ++ cards ->
  cardsInv g1.
Proof.
  unfold cardsInv, cardCount. intros [Hnd Hcount] Hcards Hperm Hmelds.
  rewrite <- Hperm in Hnd. split; [by apply NoDup_app in Hnd as [? _]|].
  apply Permutation_length in Hperm, Hmelds. rewrite !length_app in *. lia.
Qed.

Lemma Run_meld_cards a cards meldType g g1 :
  cardsInv g ->
  MeldCards_Run a cards meldType g = Ret (g1, None) ->
  cardsInv g1 /\ IsRoundFinished g1 = IsRoundFinished g /\
  IsGameEnded g1 = IsGameEnded g /\ HasDiscardedThisTurn g1 = HasDiscardedThisTurn g.
Proof.
  intros Hinv. unfold MeldCards_Run, MeldCards_IsPossible. res_unfold.
  destruct (_ || _); simpl; [discriminate|].
  pose proof (NoDup_unmelded_hands g (proj1 Hinv)) as [Hnd0 Hnd1].
  player_cases a; try discriminate;
    destruct (forallb _ cards) eqn:Hall; simpl; try discriminate;
    destruct (isValidMeld cards meldType) eqn:Hvalid; simpl; try discriminate;
    apply isValidMeld_NoDup in Hvalid;
    intros Hrun; rewrite ?decide_True in Hrun by done;
    rewrite ?decide_False in Hrun by done; rewrite ?decide_True in Hrun by done;
    simplify_eq; (split; [|done]);
    (assert (cards ⊆ _) as Hsub
       by (intros c Hc; rewrite forallb_forall in Hall;
           apply list_elem_of_In, Hall, bool_decide_eq_true in Hc; exact Hc));
    (eapply (cardsInv_meld _ _ cards); [done|done| |]);
    unfold unmelded, handOf in *; cbn -[meldedCards]; rewrite ?meldedCards_snoc.
  - rewrite <- (filter_remove_all cards _ Hnd0 Hvalid Hsub) at 2.
    set (F := filter _ _). clearbody F. solve_Permutation.
  - solve_Permutation.
  - rewrite <- (filter_remove_all cards _ Hnd1 Hvalid Hsub) at 2.
    set (F := filter _ _). clearbody F. solve_Permutation.
  - solve_Permutation.
Qed.

(** *** The bookkeeping of [RunAction] leaves the cards alone *)

Lemma table_cardsInv g g' : table g' = table g -> cardsInv g -> cardsInv g'.
Proof.
  unfold table, cardsInv, cardCount, unmelded, handOf. intros [= -> -> -> -> -> -> _]. done.
Qed.

Lemma endGameIfReached_table g playerID :
  table (endGameIfReached g playerID) = table g /\
  HasDiscardedThisTurn (endGameIfReached g playerID) = HasDiscardedThisTurn g.
Proof.
  unfold endGameIfReached, getPlayer, setPlayer.
  repeat case_decide; try done; case_bool_decide; done.
Qed.

Lemma handleEndOfGame_table e g :
  table (foldl endGameIfReached g (rangePlayers e)) = table g /\
  HasDiscardedThisTurn (foldl endGameIfReached g (rangePlayers e)) = HasDiscardedThisTurn g.
Proof.
  unfold rangePlayers. destruct (zeroFirst e); simpl.
  - destruct (endGameIfReached_table (endGameIfReached g 0) 1) as [-> ->].
    apply endGameIfReached_table.
  - destruct (endGameIfReached_table (endGameIfReached g 1) 0) as [-> ->].
    apply endGameIfReached_table.
Qed.

Lemma appendActionLog_table action g g' :
  appendActionLog action g = Ret g' ->
  table g' = table g /\ HasDiscardedThisTurn g' = HasDiscardedThisTurn g /\
  IsGameEnded g' = IsGameEnded g /\
  RoundFinishedConfirmedPlayerIDs g' = RoundFinishedConfirmedPlayerIDs g.
Proof.
  unfold appendActionLog. res_unfold. destruct (currentRoundLog g); intros [= <-]. done.
Qed.

Lemma afterRun_round_open e action g g' :
  IsRoundFinished g = false -> IsGameEnded g = false ->
  afterRun e action g = Ret (g', None) ->
  table g' = table g /\
  HasDiscardedThisTurn g' =
    (if YieldsTurn action g then false else HasDiscardedThisTurn g).
Proof.
  intros Hround Hended. unfold afterRun. res_unfold.
  set (logged := if bool_decide (GetName action ≠ CONFIRM_ROUND_FINISHED)
                 then appendActionLog action g else Ret g).
  assert (forall g1, logged = Ret g1 ->
            table g1 = table g /\ HasDiscardedThisTurn g1 = HasDiscardedThisTurn g /\
            IsGameEnded g1 = IsGameEnded g) as Hlogged.
  { unfold logged. intros g1. case_bool_decide.
    - intros H1. apply appendActionLog_table in H1. tauto.
    - by intros [= <-]. }
  destruct logged as [g1|]; [|discriminate].
  destruct (Hlogged g1 eq_refl) as (Htable & Hdiscarded & Hended1).
  assert (IsRoundFinished g1 = false) as Hround1.
  { unfold table in Htable. congruence. }
  rewrite Hround1, Hended1, Hended. simpl.
  set (g2 := if YieldsTurn action g1 then _ else g1).
  assert (table g2 = table g /\
          HasDiscardedThisTurn g2 = (if YieldsTurn action g then false else HasDiscardedThisTurn g))
    as [Htable2 Hdiscarded2].
  { unfold g2. assert (YieldsTurn action g1 = YieldsTurn action g) as -> by (by destruct action).
    destruct (YieldsTurn action g); [|done]. split; [|done]. by rewrite <- Htable. }
  clearbody g2.
  assert (IsRoundFinished g2 = false) as Hround2.
  { unfold table in Htable2. congruence. }
  rewrite Hround2, andb_false_r. simpl.
  destruct (handleEndOfGame_table e g2) as [Htable3 Hdiscarded3].
  generalize dependent (foldl endGameIfReached g2 (rangePlayers e)). intros g3 Htable3 Hdiscarded3.
  destruct (CalculatePossibleActions g3); [|discriminate].
  destruct (countActionsOfTurnPlayer g3); [|discriminate].
  case_bool_decide.
  - destruct (CalculatePossibleActions (changeTurn g3)); [|discriminate].
    intros [= <-]. split; [by rewrite <- Htable2, <- Htable3 | by rewrite <- Hdiscarded2, <- Hdiscarded3].
  - intros [= <-]. split; [by rewrite <- Htable2, <- Htable3 | by rewrite <- Hdiscarded2, <- Hdiscarded3].
Qed.

(** *** The invariant of an open round *)

Lemma RunAction_roundInv e action g g' :
  roundInv g -> RunAction e action g = Ret (g', None) -> roundInv g'.
Proof.
  intros (Hround & Hdiscarded & Hcards) Hrun.
  destruct action as [action|]; [|simpl in Hrun; simplify_eq; exact (conj Hround (conj Hdiscarded Hcards))].
  apply RunAction_success in Hrun as (Hended & Hpossible & g1 & Hrun & Hafter).
  assert (cardsInv g1 /\ IsRoundFinished g1 = false /\ IsGameEnded g1 = false /\
          (if YieldsTurn action g1 then false else HasDiscardedThisTurn g1) = false)
    as (Hcards1 & Hround1 & Hended1 & Hdiscarded1).
  { destruct action as [a|a|a card|a cards meldType|a|a]; simpl in Hrun, Hpossible.
    - apply (Run_draw_cards _ _ _ Hcards) in Hrun as (? & ? & ? & ?).
      simpl. split; [done|]. split; [congruence|]. split; congruence.
    - apply (Run_draw_discard_cards _ _ _ Hcards) in Hrun as (? & ? & ? & ?).
      simpl. split; [done|]. split; [congruence|]. split; congruence.
    - apply (Run_discard_cards _ _ _ _ Hcards) in Hrun as (? & ? & ?).
      simpl. split; [done|]. split; [congruence|]. split; congruence.
    - apply (Run_meld_cards _ _ _ _ _ Hcards) in Hrun as (? & ? & ? & ?).
      simpl. split; [done|]. split; [congruence|]. split; congruence.
    - unfold Knock_IsPossible in Hpossible. rewrite Hdiscarded in Hpossible.
      simpl in Hpossible. rewrite !orb_true_r in Hpossible. discriminate.
    - unfold ConfirmRoundFinished_IsPossible in Hpossible. congruence. }
  destruct (afterRun_round_open _ _ _ _ Hround1 Hended1 Hafter) as [Htable Hdiscarded'].
  split; [|split].
  - unfold table in Htable. congruence.
  - congruence.
  - by eapply table_cardsInv.
Qed.

Lemma deal_spec n : forall player0Hand player1Hand cards h0 h1 rest,
  deal n player0Hand player1Hand cards = Ret (h0, h1, rest) ->
  h0 ++ h1 ++ rest ≡ₚ player0Hand ++ player1Hand ++ cards.
Proof.
  induction n as [|n IH]; intros p0 p1 cards h0 h1 rest H; simpl in H.
  - by simplify_eq.
  - destruct cards as [|c0 [|c1 cards]]; try discriminate.
    apply IH in H. rewrite H. solve_Permutation.
Qed.

Lemma foldl_options_deck opts : forall gs,
  Forall maxPointsOption opts ->
  deck (foldl (fun gs opt => opt gs) gs opts) = deck gs.
Proof.
  induction opts as [|opt opts IH]; intros gs Hopts; [done|].
  apply Forall_cons in Hopts as [[maxPoints ->] Hopts].
  simpl. by rewrite IH.
Qed.

Lemma newDeck_NoDup : NoDup newDeck.
Proof. apply (bool_decide_unpack _). vm_compute. exact I. Qed.

Lemma startNewRound_roundInv e g g' :
  shuffles e -> NoDup (deck g) -> length (deck g) = 40%nat ->
  startNewRound e g = Ret g' -> roundInv g'.
Proof.
  intros Hshuffle Hnd Hlen. unfold startNewRound. res_unfold.
  cbn -[deal CalculatePossibleActions IsEmpty DrawCard AddCard].
  destruct (deal 7 [] [] (shuffle e (deck g))) as [[[h0 h1] rest]|] eqn:Hdeal;
    [|discriminate].
  apply deal_spec in Hdeal. simpl in Hdeal. rewrite (Hshuffle _) in Hdeal.
  destruct (CalculatePossibleActions _); [|discriminate]. intros [= <-].
  split; [done|]. split; [done|].
  assert (forall draw discard : list Card,
            draw ++ discard = rest ->
            NoDup (draw ++ discard ++ h0 ++ h1) /\
            (length (draw ++ discard ++ h0 ++ h1) + 0 + 0)%nat = 40%nat) as Hsplit.
  { intros draw discard <-. split.
    - rewrite <- Hdeal in Hnd. eapply NoDup_Permutation_proper; [|exact Hnd].
      solve_Permutation.
    - rewrite !Nat.add_0_r, <- Hlen, <- Hdeal. apply Permutation_length.
      solve_Permutation. }
  destruct (negb (IsEmpty (mkPile rest))).
  - destruct (DrawCard (mkPile rest)) as [[pile card] [err|]] eqn:Hdraw.
    + apply DrawCard_error in Hdraw as Hempty. unfold DrawCard in Hdraw.
      rewrite Hempty in Hdraw. simpl in *. simplify_eq.
      apply (Hsplit [] []). done.
    + apply DrawCard_spec in Hdraw. simpl in Hdraw.
      apply (Hsplit (Pile_Cards pile) [card]). done.
  - apply (Hsplit rest []). by rewrite app_nil_r.
Qed.

Lemma res_bind_Ret {A B} (m : res A) (k : A -> res B) b :
  m ≫= k = Ret b -> exists a, m = Ret a /\ k a = Ret b.
Proof. destruct m as [a|]; [eauto | discriminate]. Qed.

Lemma play_reachable e actions : forall g g',
  shuffles e -> reachable g -> play e actions g = Ret g' -> reachable g'.
Proof.
  induction actions as [|action actions IH]; intros g g' He Hg Hplay; cbn [play] in Hplay.
  - by simplify_eq.
  - apply res_bind_Ret in Hplay as ([g1 [err|]] & Hrun & Hplay); [discriminate|].
    apply (IH g1 g' He); [|exact Hplay].
    by eapply reachable_RunAction.
Qed.

Lemma playFromNew_reachable e opts actions g :
  shuffles e -> Forall maxPointsOption opts ->
  playFromNew e opts actions = Ret g -> reachable g.
Proof.
  intros He Hopts. unfold playFromNew. intros Hplay.
  apply res_bind_Ret in Hplay as (g0 & Hnew & Hplay).
  eapply play_reachable; [exact He| |exact Hplay].
  by eapply reachable_New.
Qed.

Lemma newDeck_length : length newDeck = 40%nat.
Proof. vm_compute. reflexivity. Qed.

Lemma New_unfold e opts :
  New e opts = startNewRound e (foldl (fun gs opt => opt gs) newGame opts).
Proof. reflexivity. Qed.

Lemma New_roundInv e opts g :
  shuffles e -> Forall maxPointsOption opts -> New e opts = Ret g -> roundInv g.
Proof.
  intros He Hopts Hnew. rewrite New_unfold in Hnew.
  assert (deck (foldl (fun gs opt => opt gs) newGame opts) = newDeck) as Hdeck
      by (by rewrite foldl_options_deck).
  apply (startNewRound_roundInv e (foldl (fun gs opt => opt gs) newGame opts) g He).
  - rewrite Hdeck. apply newDeck_NoDup.
  - rewrite Hdeck. apply newDeck_length.
  - exact Hnew.
Qed.

Lemma reachable_roundInv g : reachable g -> roundInv g.
Proof.
  induction 1 as [e opts g He Hopts Hnew|e action g g' _ IH He Hrun].
  - by eapply New_roundInv.
  - by eapply RunAction_roundInv.
Qed.

(** No knock is possible in a state reached from a fresh game: a discard
    hands the turn over and lowers the discard flag in the same call. *)
Lemma knock_not_possible_when_reachable a g :
  reachable g -> Knock_IsPossible a g = Ret false.
Proof.
  intros Hreach. apply reachable_roundInv in Hreach as (_ & Hdiscarded & _).
  unfold Knock_IsPossible. rewrite Hdiscarded. simpl.
  by rewrite orb_true_r.
Qed.

(** C3. Card conservation: in every state reachable from a fresh game by
    successful [RunAction] calls, the cards of the draw pile, of the discard
    pile, of both hands and of all melds of both players are 40 together. *)
Theorem card_conservation g : reachable g -> cardCount g = 40%nat.
Proof.
  intros Hreach. apply reachable_roundInv in Hreach as (_ & _ & _ & Hcount). exact Hcount.
Qed.

Lemma card_conservation_witness :
  exists g, playFromNew identityEnv [] openingActions = Ret g /\
            reachable g /\ cardCount g = 40%nat.
Proof.
  assert (exists g, playFromNew identityEnv [] openingActions = Ret g) as [g Hg]
      by (vm_compute; eexists; reflexivity).
  assert (shuffles identityEnv) as He by (intros cards; reflexivity).
  assert (reachable g) as Hreach
      by exact (playFromNew_reachable identityEnv [] openingActions g He (Forall_nil_2 _) Hg).
  exists g. split; [exact Hg|]. split; [exact Hreach|].
  exact (card_conservation g Hreach).
Defined.

(** ** Scores and the end of the game *)

Lemma cardPoints_bounds card : 1 <= cardPoints card <= 10.
Proof. unfold cardPoints. repeat case_bool_decide; simpl; lia. Qed.

Lemma calculateDeadwoodPoints_bounds hand melds :
  0 <= calculateDeadwoodPoints hand melds <= 10 * Z.of_nat (length hand).
Proof.
  unfold calculateDeadwoodPoints.
  assert (forall acc,
            acc <= fold_left
                     (fun points card =>
                        if bool_decide (card ∈ meldedCards melds) then points
                        else points + cardPoints card) hand acc
                <= acc + 10 * Z.of_nat (length hand)) as H.
  { induction hand as [|card hand IH]; intros acc; simpl; [lia|].
    pose proof (cardPoints_bounds card).
    case_bool_decide; [specialize (IH acc) | specialize (IH (acc + cardPoints card))]; lia. }
  specialize (H 0). lia.
Qed.

Lemma calculateRoundScore_scores g g1 :
  scoresSettled g -> roomForPoints g ->
  calculateRoundScore g = Ret g1 ->
  score0 g <= score0 g1 /\ score1 g <= score1 g1 /\
  (score0 g1 = score0 g \/ score1 g1 = score1 g) /\
  RuleMaxPoints g1 = RuleMaxPoints g /\
  IsGameEnded g1 = IsGameEnded g /\
  IsRoundFinished g1 = IsRoundFinished g /\
  RoundFinishedConfirmedPlayerIDs g1 = RoundFinishedConfirmedPlayerIDs g /\
  RoundNumber g1 = RoundNumber g /\ length (RoundsLog g1) = length (RoundsLog g).
Proof.
  unfold scoresSettled, roomForPoints, scoreOf, handOf, score0, score1.
  rewrite !getPlayer_0, !getPlayer_1.
  intros [Hs0 Hs1] Hroom. unfold calculateRoundScore. res_unfold.
  destruct (currentRoundLog g) as [roundLog|]; [|discriminate].
  rewrite !getPlayer_0, !getPlayer_1.
  pose proof (calculateDeadwoodPoints_bounds
                (Revealed (Player_Hand (Player0 (Players g)))) (Melds (Player0 (Players g)))) as Hd0.
  pose proof (calculateDeadwoodPoints_bounds
                (Revealed (Player_Hand (Player1 (Players g)))) (Melds (Player1 (Players g)))) as Hd1.
  generalize dependent (calculateDeadwoodPoints
                (Revealed (Player_Hand (Player0 (Players g)))) (Melds (Player0 (Players g)))).
  generalize dependent (calculateDeadwoodPoints
                (Revealed (Player_Hand (Player1 (Players g)))) (Melds (Player1 (Players g)))).
  intros d1 Hd1 d0 Hd0.
  rewrite Nat2Z.inj_add in Hroom.
  repeat case_bool_decide; cbn -[int64_wrap getPlayer setPlayer];
    rewrite ?getPlayer_0, ?getPlayer_1, ?setPlayer_0, ?setPlayer_1;
    intros [= <-]; cbn -[int64_wrap]; rewrite length_insert;
    (rewrite int64_wrap_id by (unfold is_int; cbn; lia)).
  all: repeat split; first [lia | by left | by right].
Qed.

Lemma Knock_Run_scores a g g1 :
  scoresSettled g -> roomForPoints g ->
  Knock_Run a g = Ret (g1, None) ->
  score0 g <= score0 g1 /\ score1 g <= score1 g1 /\
  (score0 g1 = score0 g \/ score1 g1 = score1 g) /\
  RuleMaxPoints g1 = RuleMaxPoints g /\
  IsGameEnded g1 = IsGameEnded g /\
  IsRoundFinished g = false /\
  RoundFinishedConfirmedPlayerIDs g1 = RoundFinishedConfirmedPlayerIDs g.
Proof.
  intros Hsettled Hroom. unfold Knock_Run, Knock_IsPossible. res_unfold.
  destruct (IsRoundFinished g) eqn:Hround; [rewrite !orb_true_r; discriminate|].
  destruct (_ || _); [discriminate|].
  destruct (hasValidMelds a g) as [[|]|]; simpl; try discriminate.
  destruct (calculateRoundScore (set_KnockedPlayerID (PlayerID a) g)) as [g2|] eqn:Hscore;
    [|discriminate].
  apply calculateRoundScore_scores in Hscore; [|done..].
  destruct Hscore as (? & ? & ? & ? & ? & ? & ? & ? & ?).
  destruct (currentRoundLog g2); [|discriminate].
  rewrite ?getPlayer_0, ?getPlayer_1. intros [= <-].
  unfold score0, score1 in *. cbn in *. done.
Qed.

Lemma Run_scores action g g1 :
  scoresSettled g -> roomForPoints g ->
  Run action g = Ret (g1, None) ->
  score0 g <= score0 g1 /\ score1 g <= score1 g1 /\
  (score0 g1 = score0 g \/ score1 g1 = score1 g) /\
  RuleMaxPoints g1 = RuleMaxPoints g /\
  IsGameEnded g1 = IsGameEnded g /\
  ((score0 g1 = score0 g /\ score1 g1 = score1 g) \/
   (IsRoundFinished g = false /\
    RoundFinishedConfirmedPlayerIDs g1 = RoundFinishedConfirmedPlayerIDs g)).
Proof.
  intros Hsettled Hroom.
  destruct action as [a|a|a card|a cards meldType|a|a]; simpl.
  5:{ intros Hrun. apply Knock_Run_scores in Hrun; [|done..]. tauto. }
  all: unfold DrawFromDrawPile_Run, DrawFromDiscardPile_Run, DiscardCard_Run,
         MeldCards_Run, ConfirmRoundFinished_Run, appendToHand;
       res_unfold; unfold score0, score1, getPlayer, setPlayer;
       intros Hrun; repeat case_match; simplify_eq; cbn;
       repeat split; first [lia | by left | done].
Qed.

Lemma handleEndOfGame_spec e g :
  let g' := foldl endGameIfReached g (rangePlayers e) in
  RuleMaxPoints g' = RuleMaxPoints g /\
  score0 g' = clamp (RuleMaxPoints g) (score0 g) /\
  score1 g' = clamp (RuleMaxPoints g) (score1 g) /\
  (RuleMaxPoints g <= score0 g -> score1 g < RuleMaxPoints g ->
   IsGameEnded g' = true /\ WinnerPlayerID g' = 0) /\
  (RuleMaxPoints g <= score1 g -> score0 g < RuleMaxPoints g ->
   IsGameEnded g' = true /\ WinnerPlayerID g' = 1).
Proof.
  unfold rangePlayers, clamp, score0, score1.
  destruct (zeroFirst e); simpl; unfold endGameIfReached;
    rewrite ?getPlayer_0, ?getPlayer_1;
    repeat (case_bool_decide; cbn; rewrite ?getPlayer_0, ?getPlayer_1, ?setPlayer_0, ?setPlayer_1; cbn);
    repeat split; intros; first [done | lia].
Qed.

Lemma appendActionLog_verdict action g g' :
  appendActionLog action g = Ret g' ->
  verdict g' = verdict g /\ IsRoundFinished g' = IsRoundFinished g /\
  RoundFinishedConfirmedPlayerIDs g' = RoundFinishedConfirmedPlayerIDs g.
Proof.
  unfold appendActionLog. res_unfold. destruct (currentRoundLog g); intros [= <-]. done.
Qed.

Lemma startNewRound_scores e g g' :
  startNewRound e g = Ret g' ->
  score0 g' = score0 g /\ score1 g' = score1 g /\ RuleMaxPoints g' = RuleMaxPoints g.
Proof.
  unfold startNewRound. res_unfold.
  cbn -[deal CalculatePossibleActions IsEmpty DrawCard AddCard].
  destruct (deal 7 [] [] _) as [[[h0 h1] rest]|]; [|discriminate].
  destruct (CalculatePossibleActions _); [|discriminate]. intros [= <-].
  unfold score0, score1.
  destruct (negb _); [destruct (DrawCard _) as [[pile card] [err|]]|]; done.
Qed.

Lemma afterRun_scores e action g g' :
  afterRun e action g = Ret (g', None) ->
  RuleMaxPoints g' = RuleMaxPoints g /\
  ((IsRoundFinished g = true /\ size (RoundFinishedConfirmedPlayerIDs g) = 2%nat /\
    score0 g' = score0 g /\ score1 g' = score1 g) \/
   (score0 g' = clamp (RuleMaxPoints g) (score0 g) /\
    score1 g' = clamp (RuleMaxPoints g) (score1 g) /\
    (RuleMaxPoints g <= score0 g -> score1 g < RuleMaxPoints g ->
     IsGameEnded g' = true /\ WinnerPlayerID g' = 0) /\
    (RuleMaxPoints g <= score1 g -> score0 g < RuleMaxPoints g ->
     IsGameEnded g' = true /\ WinnerPlayerID g' = 1))).
Proof.
  unfold afterRun. res_unfold.
  set (logged := if bool_decide (GetName action ≠ CONFIRM_ROUND_FINISHED)
                 then appendActionLog action g else Ret g).
  assert (forall g1, logged = Ret g1 ->
            verdict g1 = verdict g /\ IsRoundFinished g1 = IsRoundFinished g /\
            RoundFinishedConfirmedPlayerIDs g1 = RoundFinishedConfirmedPlayerIDs g) as Hlogged.
  { unfold logged. intros g1. case_bool_decide.
    - apply appendActionLog_verdict.
    - by intros [= <-]. }
  destruct logged as [g1|]; [|discriminate].
  destruct (Hlogged g1 eq_refl) as (Hverdict & Hround & Hconfirmed). clear Hlogged.
  assert (score0 g1 = score0 g /\ score1 g1 = score1 g /\ RuleMaxPoints g1 = RuleMaxPoints g)
    as (Hs0 & Hs1 & Hmax).
  { unfold verdict in Hverdict. injection Hverdict as HP HM _ _.
    unfold score0, score1. by rewrite HP, HM. }
  destruct (negb (IsGameEnded g1) && IsRoundFinished g1 &&
            bool_decide (size (RoundFinishedConfirmedPlayerIDs g1) = 2%nat)) eqn:Hnew.
  - destruct (startNewRound e g1) as [g2|] eqn:Hstart; [|discriminate]. intros [= <-].
    apply startNewRound_scores in Hstart as (? & ? & ?).
    apply andb_prop in Hnew as [Hnew Hsize]. apply andb_prop in Hnew as [_ Hfinished].
    apply bool_decide_eq_true in Hsize.
    split; [congruence|]. left. repeat split; congruence.
  - set (g2 := if _ && YieldsTurn action g1 then _ else g1).
    assert (verdict g2 = verdict g1) as Hverdict2 by (unfold g2; by case_match).
    clearbody g2.
    set (g3 := if _ && bool_decide (size (RoundFinishedConfirmedPlayerIDs g2) = 1%nat)
               then _ else g2).
    assert (verdict g3 = verdict g2) as Hverdict3.
    { unfold g3. by repeat case_match. }
    clearbody g3.
    assert (score0 g3 = score0 g /\ score1 g3 = score1 g /\ RuleMaxPoints g3 = RuleMaxPoints g)
      as (Hs0' & Hs1' & Hmax').
    { unfold verdict in Hverdict2, Hverdict3.
      injection Hverdict2 as HP2 HM2 _ _. injection Hverdict3 as HP3 HM3 _ _.
      unfold score0, score1 in *. rewrite HP3, HP2, HM3, HM2. done. }
    pose proof (handleEndOfGame_spec e g3) as Hend. simpl in Hend.
    rewrite Hs0', Hs1', Hmax' in Hend.
    generalize dependent (foldl endGameIfReached g3 (rangePlayers e)). intros g4 Hend.
    destruct (CalculatePossibleActions g4); [|discriminate].
    destruct (countActionsOfTurnPlayer g4) as [count|]; [|discriminate].
    destruct (bool_decide (count = 0%nat)).
    + destruct (CalculatePossibleActions (changeTurn g4)); simpl; [|discriminate].
      intros [= <-]. split; [apply Hend|]. right. apply Hend.
    + intros [= <-]. split; [apply Hend|]. right. apply Hend.
Qed.

(** C8, the claim as stated fails: in a fresh game whose target is -1, the
    first draw is applied and both scores go from 0 down to -1, the value
    they are clamped to. *)
Lemma score_lowered_by_clamp :
  scoresAround identityEnv (NewActionDrawFromDrawPile 1) negativeTarget
  = Some (0, 0, (-1, -1)).
Proof. vm_compute; reflexivity. Qed.

(** C8, amended. Score monotonicity and game end: across every successful
    [RunAction] call from a state in which no score is above [maxPoints]
    (and the points of a round fit a Go int), neither player's score is
    lower after the call than before; and if, in addition, both scores were
    below [maxPoints] before the call and no confirmation is on record
    while the round is open, then a player whose score is at or above
    [maxPoints] after the call has ended the game in that call: the game is
    ended, that player is the winner, and the score is exactly
    [maxPoints]. *)
Theorem score_monotone_and_game_end e action g g' :
  RunAction e action g = Ret (g', None) ->
  scoresSettled g -> roomForPoints g ->
  (scoreOf 0 g <= scoreOf 0 g' /\ scoreOf 1 g <= scoreOf 1 g') /\
  ((IsRoundFinished g = false -> RoundFinishedConfirmedPlayerIDs g = ∅) ->
   scoreOf 0 g < RuleMaxPoints g -> scoreOf 1 g < RuleMaxPoints g ->
   forall playerID,
     playerID = 0 \/ playerID = 1 ->
     RuleMaxPoints g <= scoreOf playerID g' ->
     IsGameEnded g' = true /\ WinnerPlayerID g' = playerID /\
     scoreOf playerID g' = RuleMaxPoints g').
Proof.
  intros Hrun Hsettled Hroom.
  destruct action as [action|].
  2:{ simpl in Hrun. simplify_eq. split; [lia|]. intros _ H0 H1 playerID [->| ->]; lia. }
  apply RunAction_success in Hrun as (Hended & Hpossible & g1 & Hrun & Hafter).
  apply Run_scores in Hrun as (Hle0 & Hle1 & Hone & Hmax1 & Hended1 & Hkind); [|done..].
  apply afterRun_scores in Hafter as [Hmax' Hafter].
  pose proof Hsettled as [Hs0 Hs1]. fold_scores. rewrite Hmax1 in *.
  unfold clamp in Hafter. split.
  - destruct Hafter as [(_ & _ & -> & ->)|(-> & -> & _)]; [done|].
    repeat case_bool_decide; lia.
  - intros Hconfirmed Hlt0 Hlt1 playerID Hplayer Hreached.
    destruct Hafter as [(Hfinished & Hsize & Heq0 & Heq1)|(Heq0 & Heq1 & Hwin0 & Hwin1)].
    + exfalso. destruct Hkind as [[Hk0 Hk1]|[Hopen Hsame]].
      * destruct Hplayer as [-> | ->]; fold_scores; lia.
      * rewrite Hsame, (Hconfirmed Hopen) in Hsize. by rewrite map_size_empty in Hsize.
    + rewrite Hmax'.
      destruct Hplayer as [-> | ->]; fold_scores.
      * rewrite Heq0 in Hreached |- *. case_bool_decide; [|lia].
        assert (score1 g1 = score1 g) by lia.
        destruct Hwin0 as [? ?]; [lia..|]. done.
      * rewrite Heq1 in Hreached |- *. case_bool_decide; [|lia].
        assert (score0 g1 = score0 g) by lia.
        destruct Hwin1 as [? ?]; [lia..|]. done.
Qed.

Lemma score_monotone_and_game_end_witness :
  exists g',
    RunAction identityEnv (Some (NewActionKnock 0)) matchPoint = Ret (g', None) /\
    scoresSettled matchPoint /\ roomForPoints matchPoint /\
    (scoreOf 0 matchPoint <= scoreOf 0 g' /\ scoreOf 1 matchPoint <= scoreOf 1 g') /\
    (IsGameEnded g' = true /\ WinnerPlayerID g' = 0 /\ scoreOf 0 g' = RuleMaxPoints g').
Proof.
  assert (exists g', RunAction identityEnv (Some (NewActionKnock 0)) matchPoint = Ret (g', None)
                     /\ RuleMaxPoints matchPoint <= scoreOf 0 g')
    as (g' & Hrun & Hreached) by (vm_compute; eexists; split; [reflexivity | discriminate]).
  assert (scoresSettled matchPoint) as Hsettled by (vm_compute; intuition discriminate).
  assert (roomForPoints matchPoint) as Hroom by (vm_compute; reflexivity).
  pose proof (score_monotone_and_game_end identityEnv (Some (NewActionKnock 0)) matchPoint g'
                Hrun Hsettled Hroom) as [Hle Hend].
  exists g'. split; [exact Hrun|]. split; [exact Hsettled|]. split; [exact Hroom|].
  split; [exact Hle|].
  apply (Hend (fun _ => eq_refl)); [vm_compute; reflexivity | vm_compute; reflexivity
                                    | left; reflexivity | exact Hreached].
Defined.

(** * Further properties of the code *)

(** ** Piles *)

(** X1. A pile is last in, first out: right after [AddCard] the pile is not
    empty, [TopCard] shows the card just added, and [DrawCard] gives that
    card back and leaves the pile as it was before the [AddCard]. *)
Theorem pile_push_then_draw p card :
  DrawCard (AddCard p card) = (p, card, None) /\
  TopCard (AddCard p card) = (card, None) /\
  IsEmpty (AddCard p card) = false.
Proof.
  destruct p as [cards]. unfold DrawCard, TopCard, AddCard, IsEmpty. simpl.
  rewrite last_snoc. split; [|split].
  - by rewrite removelast_last.
  - done.
  - apply bool_decide_eq_false. rewrite length_app. simpl. lia.
Qed.

(** X2. The empty pile: [DrawCard] and [TopCard] fail exactly when
    [IsEmpty] answers true, returning the zero card and, for [DrawCard],
    the pile untouched; on any other pile both succeed with the same card,
    and adding the drawn card back restores the pile. *)
Theorem pile_draw_cases p :
  (IsEmpty p = true /\ DrawCard p = (p, mkCard 0 "", Some errPileIsEmpty) /\
   TopCard p = (mkCard 0 "", Some errPileIsEmpty)) \/
  (IsEmpty p = false /\
   exists pile card,
     DrawCard p = (pile, card, None) /\ TopCard p = (card, None) /\
     AddCard pile card = p).
Proof.
  destruct p as [cards]. unfold DrawCard, TopCard, AddCard, IsEmpty. simpl.
  destruct (last cards) as [c|] eqn:Hlast.
  - right. split.
    + apply bool_decide_eq_false. destruct cards; [discriminate|]. simpl. lia.
    + exists (mkPile (removelast cards)), c. split; [done|]. split; [done|].
      simpl. f_equal. symmetry. by apply last_removelast.
  - left. apply last_None in Hlast as ->. done.
Qed.

(** ** The exchange sort *)


Lemma sortPass_sorted cur rest :
  Forall (byNumber cur) rest -> sortPass cur rest = (cur, rest).
Proof.
  revert cur. induction rest as [|c rest IH]; intros cur Hall; [done|].
  apply Forall_cons in Hall as [Hc Hall]. simpl.
  rewrite bool_decide_eq_false_2 by (unfold byNumber in Hc; lia).
  by rewrite IH.
Qed.

Lemma sortLoop_sorted_id n : forall s, StronglySorted byNumber s -> sortLoop n s = s.
Proof.
  induction n as [|n IH]; intros [|c rest] Hs; simpl; try done.
  apply StronglySorted_inv in Hs as [Hs Hall].
  rewrite sortPass_sorted by done. by rewrite IH.
Qed.

(** X3. The exchange sort written out in [isValidRun] and in
    [generateRunMeldActions] sorts: its result holds the same cards, in
    ascending order of [Number], and a slice that is already in that order
    comes back unchanged. *)
Theorem sortByNumber_sorts cards :
  sortByNumber cards ≡ₚ cards /\ StronglySorted byNumber (sortByNumber cards) /\
  (StronglySorted byNumber cards -> sortByNumber cards = cards) /\
  sortByNumber (sortByNumber cards) = sortByNumber cards.
Proof.
  split; [apply sortByNumber_perm|]. split; [apply sortByNumber_sorted|].
  split; [apply sortLoop_sorted_id|]. apply sortLoop_sorted_id, sortByNumber_sorted.
Qed.

(** ** Combinations *)

Lemma elem_of_generateCombinations cards k combo :
  combo ∈ generateCombinations cards k <-> sublist combo cards /\ length combo = k.
Proof.
  revert k combo. induction cards as [|first remaining IH]; intros [|k] combo; simpl.
  - rewrite list_elem_of_singleton. split.
    + intros ->. split; [constructor|done].
    + intros [_ Hlen]. by apply nil_length_inv.
  - rewrite elem_of_nil. split; [done|]. intros [Hsub Hlen].
    apply sublist_nil_r in Hsub. subst. discriminate.
  - rewrite list_elem_of_singleton. split.
    + intros ->. split; [apply sublist_nil_l|done].
    + intros [_ Hlen]. by apply nil_length_inv.
  - case_bool_decide as Hshort.
    + rewrite elem_of_nil. split; [done|]. intros [Hsub Hlen].
      apply sublist_length in Hsub. simpl in *. lia.
    + rewrite elem_of_app. change (map (cons first) ?l) with (cons first <$> l).
      rewrite list_elem_of_fmap. setoid_rewrite IH. split.
      * intros [(combo' & -> & Hsub & Hlen)|[Hsub Hlen]].
        -- split; [by constructor | simpl; lia].
        -- split; [by constructor | done].
      * intros [Hsub Hlen]. apply sublist_cons_r in Hsub as [Hsub|(combo' & -> & Hsub)].
        -- right. done.
        -- left. exists combo'. simpl in Hlen. split; [done|]. split; [done|lia].
Qed.

(** X6. [generateCombinations cards k] lists exactly the selections of [k]
    cards that keep the order of [cards]: each of its elements is such a
    selection and every such selection is among them. *)
Theorem generateCombinations_sublists cards k combo :
  combo ∈ generateCombinations cards k <-> sublist combo cards /\ length combo = k.
Proof. apply elem_of_generateCombinations. Qed.

(** ** Validity of melds *)

Lemma noDuplicateSuit_spec cards : forall suits,
  noDuplicateSuit suits cards = true <->
  NoDup (map Suit cards) /\ forall c, c ∈ cards -> Suit c ∉ suits.
Proof.
  induction cards as [|c cards IH]; intros suits; simpl.
  - split; [|done]. intros _. split; [constructor|]. intros c Hc. by apply elem_of_nil in Hc.
  - case_bool_decide as Hin.
    + split; [done|]. intros [_ Hall]. exfalso. apply (Hall c); [left|done].
    + rewrite IH. split.
      * intros [Hnd Hall]. split.
        -- constructor; [|done]. intros Hc.
           change (map Suit cards) with (Suit <$> cards) in Hc.
           apply list_elem_of_fmap in Hc as (d & Hd & Hdin).
           apply (Hall d Hdin). rewrite <- Hd. left.
        -- intros d Hd. apply elem_of_cons in Hd as [->|Hd]; [done|].
           intros Hs. apply (Hall d Hd). by right.
      * intros [Hnd Hall]. apply NoDup_cons in Hnd as [Hc Hnd]. split; [done|].
        intros d Hd Hs. apply elem_of_cons in Hs as [Hs|Hs].
        -- apply Hc. rewrite <- Hs.
           change (map Suit cards) with (Suit <$> cards).
           apply list_elem_of_fmap. by exists d.
        -- apply (Hall d); [by right|done].
Qed.

Lemma noDuplicateSuit_NoDup_suits cards :
  noDuplicateSuit [] cards = true <-> NoDup (map Suit cards).
Proof.
  rewrite noDuplicateSuit_spec. split; [by intros [? _]|].
  intros Hnd. split; [done|]. intros c _ Hc. by apply elem_of_nil in Hc.
Qed.

Lemma isValidSetLoop_split rank cards : forall suits,
  isValidSetLoop rank suits cards =
  forallb (fun c => bool_decide (Number c = rank)) cards && noDuplicateSuit suits cards.
Proof.
  induction cards as [|c cards IH]; intros suits; simpl; [done|].
  destruct (decide (Number c = rank)) as [Heq|Hne].
  - rewrite (bool_decide_eq_false_2 (Number c ≠ rank)) by tauto.
    rewrite (bool_decide_eq_true_2 (Number c = rank)) by done. simpl.
    case_bool_decide; [by rewrite andb_false_r|]. apply IH.
  - rewrite (bool_decide_eq_true_2 (Number c ≠ rank)) by done.
    by rewrite (bool_decide_eq_false_2 (Number c = rank)) by done.
Qed.

Lemma isValidSet_MeldCards_isValidSet cards : isValidSet cards = MeldCards_isValidSet cards.
Proof.
  unfold isValidSet, MeldCards_isValidSet. destruct cards as [|first rest]; [done|].
  case_bool_decide; [done|]. apply isValidSetLoop_split.
Qed.

Lemma consecutiveIntsFrom_map prev rest :
  consecutiveIntsFrom (Number prev) (map Number rest) = consecutiveFrom prev rest.
Proof.
  revert prev. induction rest as [|c rest IH]; intros prev; simpl; [done|].
  by rewrite IH.
Qed.

Lemma consecutiveInts_map cards :
  consecutiveInts (map Number cards) = consecutiveNumbers cards.
Proof. destruct cards as [|c rest]; [done|]. apply consecutiveIntsFrom_map. Qed.

Lemma sortInts_sortByNumber cards :
  sortInts (map Number cards) = map Number (sortByNumber cards).
Proof.
  assert (AntiSymm (=) Z.le) as Hantisymm by (intros x y ? ?; lia).
  unfold sortInts. apply (StronglySorted_unique Z.le).
  - apply StronglySorted_merge_sort; apply _.
  - change (map Number (sortByNumber cards)) with (Number <$> sortByNumber cards).
    apply (StronglySorted_fmap _ byNumber); [|apply sortByNumber_sorted].
    intros x y Hxy. exact Hxy.
  - rewrite merge_sort_Permutation.
    change (map Number ?l) with (Number <$> l).
    by rewrite sortByNumber_perm.
Qed.

Lemma Meld_IsValid_run cards :
  Meld_IsValid (mkMeld MeldTypeRun cards) = isValidMeld cards MeldTypeRun.
Proof.
  unfold Meld_IsValid, isValidMeld, MeldCards_isValidRun.
  cbn [Meld_Type Meld_Cards]. decide_strings.
  destruct cards as [|first rest]; [done|].
  case_bool_decide; [done|].
  by rewrite sortInts_sortByNumber, consecutiveInts_map.
Qed.

Lemma Meld_IsValid_set cards :
  isValidMeld cards MeldTypeSet =
  Meld_IsValid (mkMeld MeldTypeSet cards) && noDuplicateSuit [] cards.
Proof.
  unfold Meld_IsValid, isValidMeld, MeldCards_isValidSet.
  cbn [Meld_Type Meld_Cards]. decide_strings.
  destruct cards as [|first rest]; [done|].
  case_bool_decide; [done|].
  cbn [forallb]. by rewrite bool_decide_eq_true_2 by done.
Qed.

Lemma isValidMeld_Meld_IsValid cards meldType :
  isValidMeld cards meldType = true -> Meld_IsValid (mkMeld meldType cards) = true.
Proof.
  destruct (decide (meldType = MeldTypeSet)) as [->|Hset].
  - rewrite Meld_IsValid_set, andb_true_iff. tauto.
  - destruct (decide (meldType = MeldTypeRun)) as [->|Hrun].
    + by rewrite Meld_IsValid_run.
    + unfold isValidMeld. rewrite !(decide_False (P := meldType = _)) by done.
      by case_bool_decide.
Qed.

(** X4. The two validity checks compared: the meld action's [isValidMeld]
    accepts some cards as a meld of some type exactly when [Meld.IsValid]
    accepts that meld and, for a set, the suits of the cards are all
    different, which [Meld.IsValid] does not ask. *)
Theorem isValidMeld_iff_Meld_IsValid cards meldType :
  isValidMeld cards meldType = true <->
  Meld_IsValid (mkMeld meldType cards) = true /\
  (meldType = MeldTypeSet -> NoDup (map Suit cards)).
Proof.
  destruct (decide (meldType = MeldTypeSet)) as [->|Hset].
  - rewrite Meld_IsValid_set, andb_true_iff, noDuplicateSuit_NoDup_suits. tauto.
  - destruct (decide (meldType = MeldTypeRun)) as [->|Hrun].
    + rewrite Meld_IsValid_run. tauto.
    + unfold isValidMeld, Meld_IsValid. cbn [Meld_Type Meld_Cards].
      rewrite !(decide_False (P := meldType = _)) by done.
      case_bool_decide; split; try done; by intros [? _].
Qed.

Lemma isValidSet_spec cards :
  isValidSet cards = true <->
  (3 <= length cards)%nat /\
  (forall c d, c ∈ cards -> d ∈ cards -> Number c = Number d) /\
  NoDup (map Suit cards).
Proof.
  unfold isValidSet. destruct cards as [|first rest].
  { split; [done|]. simpl. lia. }
  case_bool_decide as Hlen.
  { split; [done|]. lia. }
  rewrite isValidSetLoop_split, andb_true_iff, noDuplicateSuit_NoDup_suits, forallb_forall.
  split.
  - intros [Hall Hnd]. split; [lia|]. split; [|done].
    intros c d Hc Hd. apply list_elem_of_In in Hc, Hd.
    apply Hall in Hc, Hd. apply bool_decide_eq_true in Hc, Hd. congruence.
  - intros (_ & Hsame & Hnd). split; [|done].
    intros c Hc. apply list_elem_of_In in Hc. apply bool_decide_eq_true.
    apply Hsame; [done|left].
Qed.

(** X5. The two set checks agree: [GameState.isValidSet], which the
    generator uses, and [ActionMeldCards.isValidSet], which the action uses,
    give the same answer on every slice of cards, and that answer is true
    exactly for three or more cards of one rank with pairwise different
    suits. *)
Theorem isValidSet_agree cards :
  isValidSet cards = MeldCards_isValidSet cards /\
  (isValidSet cards = true <->
   (3 <= length cards)%nat /\
   (forall c d, c ∈ cards -> d ∈ cards -> Number c = Number d) /\
   NoDup (map Suit cards)).
Proof. split; [apply isValidSet_MeldCards_isValidSet | apply isValidSet_spec]. Qed.

Lemma filter_all {A} (P : A -> Prop) `{forall x, Decision (P x)} (l : list A) :
  Forall P l -> filter P l = l.
Proof.
  induction 1 as [|x l Hx Hl IH]; [done|].
  rewrite filter_cons, decide_True by done. by rewrite IH.
Qed.

Lemma sublist_filter_mono {A} (P : A -> Prop) `{forall x, Decision (P x)} (l1 l2 : list A) :
  sublist l1 l2 -> sublist (filter P l1) (filter P l2).
Proof.
  induction 1 as [|x l1 l2 Hsub IH|x l1 l2 Hsub IH]; [constructor| |].
  - rewrite !filter_cons. destruct (decide (P x)); [by constructor|done].
  - rewrite filter_cons. destruct (decide (P x)); [by constructor|done].
Qed.

Lemma elem_of_generateSetMeldActions hand playerID action :
  action ∈ generateSetMeldActions hand playerID <->
  exists combo,
    action = NewActionMeldCards combo MeldTypeSet playerID /\
    sublist combo hand /\ length combo = 3%nat /\ isValidSet combo = true.
Proof.
  unfold generateSetMeldActions. rewrite list_elem_of_bind. split.
  - intros (rank & Hin & _). case_bool_decide as Hlen; [|by apply elem_of_nil in Hin].
    change (map ?f ?l) with (f <$> l) in Hin.
    apply list_elem_of_fmap in Hin as (combo & -> & Hcombo).
    apply list_elem_of_filter in Hcombo as [Hvalid Hcombo].
    apply elem_of_generateCombinations in Hcombo as [Hsub Hlen3].
    exists combo. split; [done|]. split; [|done].
    etrans; [exact Hsub|]. apply sublist_filter.
  - intros (combo & -> & Hsub & Hlen3 & Hvalid).
    destruct combo as [|c1 rest]; [discriminate|].
    pose proof Hvalid as Hsame. apply isValidSet_spec in Hsame as (_ & Hsame & _).
    assert (filter (fun c => Number c = Number c1) (c1 :: rest) = c1 :: rest) as Hfilter.
    { apply filter_all. apply Forall_forall. intros c Hc. symmetry.
      apply Hsame; [left|done]. }
    assert (sublist (c1 :: rest) (groupOf Number (Number c1) hand)) as Hgroup.
    { unfold groupOf. rewrite <- Hfilter. by apply sublist_filter_mono. }
    exists (Number c1). split.
    + rewrite bool_decide_eq_true_2
        by (apply sublist_length in Hgroup; rewrite Hlen3 in Hgroup; exact Hgroup).
      change (map ?f ?l) with (f <$> l). apply list_elem_of_fmap.
      exists (c1 :: rest). split; [done|].
      apply list_elem_of_filter. split; [done|].
      by apply elem_of_generateCombinations.
    + unfold groupKeys. apply elem_of_remove_dups.
      change (map ?f ?l) with (f <$> l). apply list_elem_of_fmap.
      exists c1. split; [done|].
      eapply elem_of_sublist; [|exact Hsub]. left.
Qed.

Lemma generated_set_valid hand playerID action :
  action ∈ generateSetMeldActions hand playerID ->
  exists cards,
    action = NewActionMeldCards cards MeldTypeSet playerID /\
    cards ⊆ hand /\ isValidMeld cards MeldTypeSet = true.
Proof.
  intros Hin. apply elem_of_generateSetMeldActions in Hin
    as (combo & -> & Hsub & Hlen & Hvalid).
  exists combo. split; [done|]. split.
  - intros c Hc. by eapply elem_of_sublist.
  - unfold isValidMeld. rewrite bool_decide_eq_false_2 by lia. decide_strings.
    by rewrite <- isValidSet_MeldCards_isValidSet.
Qed.

Lemma generated_run_valid hand playerID action :
  action ∈ generateRunMeldActions hand playerID ->
  exists cards,
    action = NewActionMeldCards cards MeldTypeRun playerID /\
    cards ⊆ hand /\ isValidMeld cards MeldTypeRun = true.
Proof.
  unfold generateRunMeldActions. rewrite list_elem_of_bind.
  intros (suit & Hin & _). case_bool_decide as Hlen; [|by apply elem_of_nil in Hin].
  change (map ?f ?l) with (f <$> l) in Hin.
  apply list_elem_of_fmap in Hin as (run & -> & Hrun).
  apply findRunsLoop_sound in Hrun as (Hlen3 & Hcons & before & after & Hseg).
  assert (forall c, c ∈ run -> Suit c = suit /\ c ∈ hand) as Hgroup.
  { intros c Hc. apply (groupOf_sorted_suit suit hand). rewrite Hseg.
    rewrite !elem_of_app. auto. }
  assert (StronglySorted byNumber run) as Hsorted.
  { pose proof (sortByNumber_sorted (groupOf Suit suit hand)) as Hs.
    rewrite Hseg in Hs.
    apply StronglySorted_app_1_r, StronglySorted_app_1_l in Hs. exact Hs. }
  exists run. split; [done|]. split; [intros c Hc; by apply Hgroup|].
  unfold isValidMeld. rewrite bool_decide_eq_false_2 by lia. decide_strings.
  unfold MeldCards_isValidRun. destruct run as [|first rest]; [simpl in Hlen3; lia|].
  rewrite bool_decide_eq_false_2 by lia.
  apply andb_true_iff. split.
  - apply forallb_forall. intros c Hc. apply list_elem_of_In in Hc.
    apply bool_decide_eq_true.
    destruct (Hgroup c Hc) as [-> _]. symmetry. apply Hgroup. left.
  - unfold sortByNumber. by rewrite sortLoop_sorted_id.
Qed.

(** X7. The set candidates characterized: [generateSetMeldActions] proposes
    a meld exactly for every selection of three cards of the hand, in hand
    order, that have one rank and three different suits; a set of four is
    never proposed. *)
Theorem set_candidates_characterized hand playerID action :
  action ∈ generateSetMeldActions hand playerID <->
  exists c1 c2 c3,
    action = NewActionMeldCards [c1; c2; c3] MeldTypeSet playerID /\
    sublist [c1; c2; c3] hand /\
    Number c2 = Number c1 /\ Number c3 = Number c1 /\
    Suit c1 ≠ Suit c2 /\ Suit c1 ≠ Suit c3 /\ Suit c2 ≠ Suit c3.
Proof.
  rewrite elem_of_generateSetMeldActions. split.
  - intros (combo & -> & Hsub & Hlen & Hvalid).
    destruct combo as [|c1 [|c2 [|c3 [|c4 combo]]]]; try discriminate.
    exists c1, c2, c3. split; [done|]. split; [done|]. by apply isValidSet_three.
  - intros (c1 & c2 & c3 & -> & Hsub & H2 & H3 & H12 & H13 & H23).
    exists [c1; c2; c3]. split; [done|]. split; [done|]. split; [done|].
    apply isValidSet_spec. split; [simpl; lia|]. split.
    + intros c d Hc Hd. rewrite !elem_of_cons, elem_of_nil in Hc, Hd.
      destruct Hc as [->|[->|[->|[]]]], Hd as [->|[->|[->|[]]]]; congruence.
    + cbn [map]. repeat constructor; rewrite ?elem_of_cons, ?elem_of_nil;
        intuition congruence.
Qed.

(** X8. Every meld that [generatePossibleMeldActions] proposes for the player
    to move in an open round passes [IsPossible]: its cards are in the hand
    and form a valid set or run, so the filter of [CalculatePossibleActions]
    never drops a generated meld. *)
Theorem generated_melds_are_possible g playerID actions action :
  TurnPlayerID g = playerID -> IsRoundFinished g = false ->
  generatePossibleMeldActions g playerID = Ret actions ->
  action ∈ actions ->
  IsPossible action g = Ret true.
Proof.
  intros Hturn Hopen Hgen Hin. unfold generatePossibleMeldActions in Hgen.
  destruct (getPlayer g playerID) as [p|] eqn:Hp; [|discriminate].
  cbn in Hgen. injection Hgen as <-.
  assert (exists cards meldType,
            action = NewActionMeldCards cards meldType playerID /\
            cards ⊆ Revealed (Player_Hand p) /\ isValidMeld cards meldType = true)
    as (cards & meldType & -> & Hsub & Hvalid).
  { apply elem_of_app in Hin as [Hin|Hin].
    - apply generated_set_valid in Hin as (cards & ? & ? & ?). by exists cards, MeldTypeSet.
    - apply generated_run_valid in Hin as (cards & ? & ? & ?). by exists cards, MeldTypeRun. }
  cbn [IsPossible NewActionMeldCards]. unfold MeldCards_IsPossible. cbn [PlayerID].
  rewrite bool_decide_eq_false_2 by tauto. rewrite Hopen. cbn [orb].
  rewrite Hp. cbn.
  assert (forallb (fun c => bool_decide (c ∈ Revealed (Player_Hand p))) cards = true) as ->.
  { apply forallb_forall. intros c Hc. apply list_elem_of_In in Hc.
    apply bool_decide_eq_true. by apply Hsub. }
  cbn. by rewrite Hvalid.
Qed.

Lemma generated_melds_are_possible_witness :
  let action := NewActionMeldCards [oro 1; copa 1; espada 1] MeldTypeSet 0 in
  exists actions,
    TurnPlayerID tiedGame = 0 /\ IsRoundFinished tiedGame = false /\
    generatePossibleMeldActions tiedGame 0 = Ret actions /\ action ∈ actions /\
    IsPossible action tiedGame = Ret true.
Proof.
  intros action.
  assert (exists actions,
            generatePossibleMeldActions tiedGame 0 = Ret actions /\ action ∈ actions)
    as (actions & Hgen & Hin)
    by (vm_compute; eexists; split; [reflexivity | constructor]).
  assert (TurnPlayerID tiedGame = 0) as Hturn by reflexivity.
  assert (IsRoundFinished tiedGame = false) as Hopen by reflexivity.
  exists actions. split; [exact Hturn|]. split; [exact Hopen|]. split; [exact Hgen|].
  split; [exact Hin|].
  exact (generated_melds_are_possible tiedGame 0 actions action Hturn Hopen Hgen Hin).
Defined.

(** ** Deadwood *)

Lemma deadwood_acc hand melds : forall acc,
  fold_left
    (fun points card =>
       if bool_decide (card ∈ meldedCards melds) then points
       else points + cardPoints card) hand acc
  = acc + calculateDeadwoodPoints hand melds.
Proof.
  unfold calculateDeadwoodPoints.
  induction hand as [|card hand IH]; intros acc; simpl; [lia|].
  case_bool_decide.
  - apply IH.
  - rewrite IH. rewrite (IH (0 + cardPoints card)). lia.
Qed.

Lemma calculateDeadwoodPoints_cons card hand melds :
  calculateDeadwoodPoints (card :: hand) melds =
  (if bool_decide (card ∈ meldedCards melds) then 0 else cardPoints card)
  + calculateDeadwoodPoints hand melds.
Proof.
  unfold calculateDeadwoodPoints at 1. simpl.
  case_bool_decide; rewrite deadwood_acc; lia.
Qed.

(** X9. Deadwood: [calculateDeadwoodPoints] lies between 0 and 10 points
    per card of the hand, is 0 exactly when every card of the hand is in a
    meld, and never grows when a meld is added. *)
Theorem deadwood_bounds_and_zero hand melds :
  0 <= calculateDeadwoodPoints hand melds <= 10 * Z.of_nat (length hand) /\
  (calculateDeadwoodPoints hand melds = 0 <-> hand ⊆ meldedCards melds) /\
  (forall meld, calculateDeadwoodPoints hand (melds ++ [meld])
                <= calculateDeadwoodPoints hand melds).
Proof.
  split; [apply calculateDeadwoodPoints_bounds|]. split.
  - induction hand as [|card hand IH].
    + split; [|done]. intros _ c Hc. by apply elem_of_nil in Hc.
    + rewrite calculateDeadwoodPoints_cons.
      pose proof (calculateDeadwoodPoints_bounds hand melds).
      pose proof (cardPoints_bounds card).
      case_bool_decide as Hin.
      * rewrite Z.add_0_l, IH. split.
        -- intros Hsub c Hc. apply elem_of_cons in Hc as [->|Hc]; [done|by apply Hsub].
        -- intros Hsub c Hc. apply Hsub. by right.
      * split; [lia|]. intros Hsub. exfalso. apply Hin, Hsub. left.
  - intros meld. induction hand as [|card hand IH]; [done|].
    rewrite !calculateDeadwoodPoints_cons.
    pose proof (cardPoints_bounds card).
    destruct meld as [meldType cards]. rewrite meldedCards_snoc.
    repeat case_bool_decide; try lia.
    exfalso. match goal with H : ¬ _ ∈ _ ++ _ |- _ => apply H end.
    apply elem_of_app. by left.
Qed.

(** ** The outcome of a knock *)

Lemma currentRoundLog_Ret g log :
  currentRoundLog g = Ret log <->
  0 <= RoundNumber g /\ RoundsLog g !! Z.to_nat (RoundNumber g) = Some log.
Proof.
  unfold currentRoundLog. destruct (decide (RoundNumber g < 0)).
  - split; [done|]. lia.
  - unfold deref. destruct (RoundsLog g !! _); split.
    + intros [= ->]. split; [lia|done].
    + by intros [_ [= ->]].
    + done.
    + by intros [_ ?].
Qed.

Lemma RoundLog_eq (r r' : RoundLog) :
  MeldsDealt r = MeldsDealt r' ->
  RoundLog_KnockedPlayerID r = RoundLog_KnockedPlayerID r' ->
  RoundLog_WinnerPlayerID r = RoundLog_WinnerPlayerID r' ->
  LoserPlayerID r = LoserPlayerID r' ->
  WinnerDeadwoodPoints r = WinnerDeadwoodPoints r' ->
  LoserDeadwoodPoints r = LoserDeadwoodPoints r' ->
  PointsAwarded r = PointsAwarded r' ->
  ActionsLog r = ActionsLog r' ->
  r = r'.
Proof. destruct r, r'. cbn. by intros -> -> -> -> -> -> -> ->. Qed.

Lemma currentRoundLog_set log g old :
  currentRoundLog g = Ret old ->
  currentRoundLog (set_currentRoundLog log g) = Ret log.
Proof.
  intros Hold. apply currentRoundLog_Ret in Hold as [Hpos Hold].
  apply currentRoundLog_Ret. split; [done|].
  unfold set_currentRoundLog. cbn.
  apply list_lookup_insert_eq. by eapply lookup_lt_Some.
Qed.

(** X10. What a knock records, whoever knocks, when the log of the round is
    as [startNewRound] left it ([KnockedPlayerID] -1): the round is finished
    and the knocker noted; the winner is player 1 if player 1 holds strictly
    less deadwood and player 0 otherwise, ties included; the points awarded
    are the difference of the two deadwoods, plus 25 if the winner has none,
    and no more; they are added to the winner's score, the loser's score
    stays, and no card moves. *)
Theorem Knock_Run_outcome a g g1 old :
  currentRoundLog g = Ret old -> RoundLog_KnockedPlayerID old = -1 ->
  Knock_Run a g = Ret (g1, None) ->
  let d0 := deadwoodOf (Player0 (Players g)) in
  let d1 := deadwoodOf (Player1 (Players g)) in
  let winner := if bool_decide (d1 < d0) then 1 else 0 in
  let points := Z.abs (d0 - d1) + (if bool_decide (Z.min d0 d1 = 0) then 25 else 0) in
  IsRoundFinished g1 = true /\ KnockedPlayerID g1 = PlayerID a /\
  currentRoundLog g1 = Ret
    (mkRoundLog [(0, Melds (Player0 (Players g))); (1, Melds (Player1 (Players g)))]
       (PlayerID a) winner (1 - winner) (Z.min d0 d1) (Z.max d0 d1) points
       (ActionsLog old)) /\
  scoreOf winner g1 = int64_wrap (scoreOf winner g + points) /\
  scoreOf (1 - winner) g1 = scoreOf (1 - winner) g /\
  table g1 = (DrawPile g, DiscardPile g,
              Player_Hand (Player0 (Players g)), Melds (Player0 (Players g)),
              Player_Hand (Player1 (Players g)), Melds (Player1 (Players g)), true).
Proof.
  intros Hold Hstale Hrun d0 d1 winner points.
  unfold Knock_Run in Hrun.
  destruct (Knock_IsPossible a g) as [[|]|]; cbn in Hrun; try discriminate.
  unfold calculateRoundScore in Hrun.
  assert (currentRoundLog (set_KnockedPlayerID (PlayerID a) g) = Ret old) as Hold'.
  { exact Hold. }
  rewrite Hold' in Hrun. cbn [mbind res_bind] in Hrun.
  rewrite getPlayer_0, getPlayer_1 in Hrun. cbn [deref mbind res_bind] in Hrun.
  cbn [Players set_KnockedPlayerID] in Hrun.
  fold (handOf (Player0 (Players g))) in Hrun. fold (handOf (Player1 (Players g))) in Hrun.
  fold (deadwoodOf (Player0 (Players g))) in Hrun.
  fold (deadwoodOf (Player1 (Players g))) in Hrun.
  fold d0 d1 in Hrun. clearbody d0 d1.
  apply currentRoundLog_Ret in Hold as [Hpos Hlook].
  pose proof (lookup_lt_Some _ _ _ Hlook) as Hlt.
  destruct old as [md k w l wd ld pa al]. cbn in Hstale. subst k.
  subst winner points.
  assert (forall (r : RoundLog) (h : GameState),
            RoundNumber h = RoundNumber g ->
            length (RoundsLog h) = length (RoundsLog g) ->
            currentRoundLog (set_currentRoundLog r h) = Ret r) as Hset.
  { intros r h Hn Hl. unfold currentRoundLog, set_currentRoundLog. cbn.
    rewrite Hn, decide_False by lia. rewrite list_lookup_insert_eq by lia. done. }
  assert (forall x : Z, x + 0 = x) as Hplus0 by (intros; lia).
  destruct (decide (d1 < d0)) as [Hlt10|Hge];
    [rewrite (bool_decide_eq_true_2 (d1 < d0)) in * by done
    |rewrite (bool_decide_eq_false_2 (d1 < d0)) in * by done;
     destruct (decide (d1 = d0)) as [Heq|Hne];
     [rewrite (bool_decide_eq_true_2 (d1 = d0)) in Hrun by done
     |rewrite (bool_decide_eq_false_2 (d1 = d0)) in Hrun by done]];
    cbn -[int64_wrap] in Hrun; rewrite ?getPlayer_0, ?getPlayer_1 in Hrun;
    cbn [deref mbind res_bind] in Hrun;
    rewrite ?setPlayer_0, ?setPlayer_1 in Hrun;
    match type of Hrun with
    | context [currentRoundLog (set_Players ?p (set_currentRoundLog ?r ?h))] =>
        change (currentRoundLog (set_Players p (set_currentRoundLog r h)))
          with (currentRoundLog (set_currentRoundLog r h)) in Hrun;
        rewrite (Hset r h) in Hrun by done
    end;
    cbn [deref mbind res_bind] in Hrun;
    rewrite getPlayer_0, getPlayer_1 in Hrun; cbn -[int64_wrap] in Hrun;
    injection Hrun as <-;
    change (1 - 1) with 0; change (1 - 0) with 1;
    rewrite ?Z.min_r, ?Z.max_l by lia; rewrite ?Z.min_l, ?Z.max_r by lia;
    [replace (Z.abs (d0 - d1)) with (d0 - d1) by lia
    |replace (Z.abs (d0 - d1)) with (d1 - d0) by lia
    |replace (Z.abs (d0 - d1)) with (d1 - d0) by lia];
    (split; [done|]); (split; [done|]); (split; [|split; [|split]]);
    try done.
  all: match goal with
       | |- currentRoundLog _ = _ =>
           unfold currentRoundLog; cbn -[int64_wrap]; rewrite decide_False by lia;
           rewrite list_insert_insert_eq, list_lookup_insert_eq by done;
           cbn -[int64_wrap];
           do 2 f_equal; repeat case_bool_decide;
           apply RoundLog_eq; cbn -[int64_wrap]; first [reflexivity | lia]
       | |- _ =>
           fold_scores; unfold score0, score1; cbn -[int64_wrap];
           f_equal; repeat case_bool_decide; lia
       end.
Qed.

Lemma Knock_Run_outcome_witness :
  exists g1 old,
    currentRoundLog undercutGame = Ret old /\ RoundLog_KnockedPlayerID old = -1 /\
    Knock_Run (mkAct KNOCK 0) undercutGame = Ret (g1, None) /\
    IsRoundFinished g1 = true /\ KnockedPlayerID g1 = 0 /\
    scoreOf 1 g1 = int64_wrap (scoreOf 1 undercutGame + 7).
Proof.
  assert (exists old, currentRoundLog undercutGame = Ret old /\
                      RoundLog_KnockedPlayerID old = -1)
    as (old & Hold & Hstale) by (vm_compute; eexists; split; reflexivity).
  assert (exists g1, Knock_Run (mkAct KNOCK 0) undercutGame = Ret (g1, None))
    as [g1 Hrun] by (vm_compute; eexists; reflexivity).
  pose proof (Knock_Run_outcome (mkAct KNOCK 0) undercutGame g1 old Hold Hstale Hrun)
    as (Hfinished & Hknocked & _ & Hscore & _).
  exists g1, old. split; [exact Hold|]. split; [exact Hstale|]. split; [exact Hrun|].
  split; [exact Hfinished|]. split; [exact Hknocked|]. exact Hscore.
Defined.

(** ** Dealing a round *)

Lemma deal_panic n : forall player0Hand player1Hand cards,
  (length cards < 2 * n)%nat -> deal n player0Hand player1Hand cards = Panic.
Proof.
  induction n as [|n IH]; intros h0 h1 cards Hlen; [lia|].
  destruct cards as [|c0 [|c1 rest]]; try done.
  simpl. apply IH. simpl in Hlen. lia.
Qed.

Lemma deal_lookup n : forall player0Hand player1Hand cards,
  (2 * n <= length cards)%nat ->
  exists dealt0 dealt1,
    deal n player0Hand player1Hand cards
      = Ret (player0Hand ++ dealt0, player1Hand ++ dealt1, drop (2 * n) cards) /\
    length dealt0 = n /\ length dealt1 = n /\
    forall i, (i < n)%nat ->
      dealt0 !! i = cards !! (2 * i)%nat /\ dealt1 !! i = cards !! (2 * i + 1)%nat.
Proof.
  induction n as [|n IH]; intros h0 h1 cards Hlen.
  - exists [], []. rewrite !app_nil_r. repeat split; try done; lia.
  - destruct cards as [|c0 [|c1 rest]]; simpl in Hlen; try lia.
    destruct (IH (h0 ++ [c0]) (h1 ++ [c1]) rest) as (d0 & d1 & Hdeal & Hl0 & Hl1 & Hlook);
      [lia|].
    exists (c0 :: d0), (c1 :: d1). split; [|split; [|split]].
    + cbn [deal]. rewrite Hdeal. rewrite <- !app_assoc.
      replace (2 * S n)%nat with (S (S (2 * n))) by lia. done.
    + simpl. lia.
    + simpl. lia.
    + intros [|i] Hi; [done|].
      replace (2 * S i)%nat with (S (S (2 * i))) by lia.
      replace (S (S (2 * i)) + 1)%nat with (S (S (2 * i + 1))) by lia.
      cbn [lookup list_lookup]. apply Hlook. lia.
Qed.

Lemma candidates_before_draw g :
  IsRoundFinished g = false -> HasDrawnThisTurn g = false ->
  CalculatePossibleActions g =
  Ret ((if IsEmpty (DrawPile g) then [] else [NewActionDrawFromDrawPile (TurnPlayerID g)]) ++
       (if IsEmpty (DiscardPile g) then []
        else [NewActionDrawFromDiscardPile (TurnPlayerID g)])).
Proof.
  intros Hopen Hdrawn. unfold CalculatePossibleActions, candidateActions.
  rewrite Hopen, Hdrawn. cbn.
  unfold DrawFromDrawPile_IsPossible, DrawFromDiscardPile_IsPossible. cbn.
  rewrite Hopen, Hdrawn. rewrite bool_decide_eq_true_2 by done. cbn.
  rewrite !andb_true_r.
  by destruct (IsEmpty (DrawPile g)), (IsEmpty (DiscardPile g)).
Qed.

Lemma IsPossible_set_PossibleActions action x g :
  IsPossible action (set_PossibleActions x g) = IsPossible action g.
Proof. by destruct action. Qed.

Lemma keepPossible_set_PossibleActions actions x g :
  keepPossible actions (set_PossibleActions x g) = keepPossible actions g.
Proof.
  induction actions as [|action actions IH]; [done|].
  cbn [keepPossible]. unfold Enrich.
  by rewrite IsPossible_set_PossibleActions, IH.
Qed.

Lemma CalculatePossibleActions_set_PossibleActions x g :
  CalculatePossibleActions (set_PossibleActions x g) = CalculatePossibleActions g.
Proof.
  unfold CalculatePossibleActions.
  change (candidateActions (set_PossibleActions x g)) with (candidateActions g).
  destruct (candidateActions g) as [actions|]; [|done].
  apply keepPossible_set_PossibleActions.
Qed.

Lemma startNewRound_returns e g :
  (14 <= length (shuffle e (deck g)))%nat -> exists g', startNewRound e g = Ret g'.
Proof.
  intros Hlen.
  destruct (deal_lookup 7 [] [] (shuffle e (deck g))) as (d0 & d1 & Hdeal & _); [lia|].
  unfold startNewRound. res_unfold.
  cbn -[deal CalculatePossibleActions IsEmpty DrawCard AddCard].
  rewrite Hdeal.
  rewrite candidates_before_draw.
  - eexists. reflexivity.
  - by destruct (negb _); [destruct (DrawCard _) as [[? ?] [?|]]|].
  - by destruct (negb _); [destruct (DrawCard _) as [[? ?] [?|]]|].
Qed.

Lemma startNewRound_result e g g' :
  startNewRound e g = Ret g' ->
  let cards := shuffle e (deck g) in
  (forall i, (i < 7)%nat ->
     handOf (Player0 (Players g')) !! i = cards !! (2 * i)%nat /\
     handOf (Player1 (Players g')) !! i = cards !! (2 * i + 1)%nat) /\
  length (handOf (Player0 (Players g'))) = 7%nat /\
  length (handOf (Player1 (Players g'))) = 7%nat /\
  Melds (Player0 (Players g')) = [] /\ Melds (Player1 (Players g')) = [] /\
  deck g' = drop 14 cards /\
  Pile_Cards (DrawPile g') ++ Pile_Cards (DiscardPile g') = drop 14 cards /\
  length (Pile_Cards (DiscardPile g')) = Nat.min 1 (length cards - 14) /\
  scoreOf 0 g' = scoreOf 0 g /\ scoreOf 1 g' = scoreOf 1 g /\
  RoundNumber g' = int64_wrap (RoundNumber g + 1) /\
  RoundsLog g' = RoundsLog g ++ [mkRoundLog [(0, []); (1, [])] (-1) (-1) (-1) 0 0 0 []] /\
  HasDrawnThisTurn g' = false /\ HasDiscardedThisTurn g' = false /\
  IsRoundFinished g' = false /\ KnockedPlayerID g' = -1 /\
  RoundFinishedConfirmedPlayerIDs g' = ∅ /\
  IsGameEnded g' = IsGameEnded g /\
  WinnerPlayerID g' = WinnerPlayerID g /\ RuleMaxPoints g' = RuleMaxPoints g /\
  TurnPlayerID g' = OpponentOf e g (TurnPlayerID g) /\
  TurnOpponentPlayerID g' = OpponentOf e g (OpponentOf e g (TurnPlayerID g)) /\
  handOf (Player0 (Players g')) ++ handOf (Player1 (Players g')) ++ drop 14 cards ≡ₚ cards /\
  exists actions,
    CalculatePossibleActions g' = Ret actions /\
    PossibleActions g' = _serializeActions actions.
Proof.
  intros Hstart cards. revert Hstart.
  unfold startNewRound. res_unfold.
  cbn -[deal CalculatePossibleActions IsEmpty DrawCard AddCard].
  fold cards.
  destruct (decide (length cards < 14)%nat) as [Hshort|Hlen].
  { by rewrite deal_panic by lia. }
  destruct (deal_lookup 7 [] [] cards) as (d0 & d1 & Hdeal & Hl0 & Hl1 & Hlook);
    [lia|].
  rewrite Hdeal. change (2 * 7)%nat with 14%nat. cbn [app].
  destruct (CalculatePossibleActions _) as [actions|] eqn:Hactions; [|discriminate].
  intros [= <-].
  rewrite CalculatePossibleActions_set_PossibleActions, Hactions.
  apply deal_spec in Hdeal. change (2 * 7)%nat with 14%nat in Hdeal. cbn [app] in Hdeal.
  assert (length (drop 14 cards) = length cards - 14)%nat as Hrest by apply length_drop.
  generalize dependent (drop 14 cards). intros rest Hdeal Hactions Hrest.
  rewrite <- Hrest. clear Hrest.
  clearbody cards. clear Hlen Hactions.
  unfold scoreOf. rewrite !getPlayer_0, !getPlayer_1. unfold handOf.
  assert (forall draw discard : list Card,
            draw ++ discard = rest -> length discard = Nat.min 1 (length rest) ->
            draw ++ discard = rest /\ length discard = Nat.min 1 (length rest)) as Hsplit
    by done.
  destruct (negb (IsEmpty (mkPile rest))) eqn:Hempty.
  - destruct (DrawCard (mkPile rest)) as [[pile card] [err|]] eqn:Hdraw.
    + apply DrawCard_error in Hdraw as Hnil. unfold DrawCard in Hdraw.
      rewrite Hnil in Hdraw. simpl in Hnil, Hdraw. simplify_eq.
    + apply DrawCard_spec in Hdraw. simpl in Hdraw. subst rest.
      cbn. split; [exact Hlook|]. repeat split; try done; [|by exists actions].
      rewrite length_app, Nat.add_1_r. reflexivity.
  - apply negb_false_iff, bool_decide_eq_true in Hempty. simpl in Hempty.
    apply nil_length_inv in Hempty. subst rest.
    cbn. split; [exact Hlook|]. repeat split; try done. by exists actions.
Qed.

Lemma OpponentOf_seat e g playerID :
  (playerID = 0 -> OpponentOf e g playerID = 1) /\
  (playerID = 1 -> OpponentOf e g playerID = 0).
Proof.
  unfold OpponentOf, rangePlayers. split; intros ->; by destruct (zeroFirst e).
Qed.

(** X11. [startNewRound] deals from what is left of the shuffled deck: with
    fewer than 14 cards it panics; otherwise it returns, the first 14 cards
    go alternately to player 0 and player 1, the deck loses them, the rest
    becomes the draw pile with its top card turned over as the discard pile,
    the melds, flags and confirmations are reset, a fresh log entry is
    appended, the scores and the end of the game are left alone, and the
    turn goes to the opponent of the player who held it. *)
Theorem startNewRound_deals e g :
  let cards := shuffle e (deck g) in
  if bool_decide (length cards < 14)%nat then startNewRound e g = Panic
  else
    exists g', startNewRound e g = Ret g' /\
      (forall i, (i < 7)%nat ->
         handOf (Player0 (Players g')) !! i = cards !! (2 * i)%nat /\
         handOf (Player1 (Players g')) !! i = cards !! (2 * i + 1)%nat) /\
      length (handOf (Player0 (Players g'))) = 7%nat /\
      length (handOf (Player1 (Players g'))) = 7%nat /\
      Melds (Player0 (Players g')) = [] /\ Melds (Player1 (Players g')) = [] /\
      deck g' = drop 14 cards /\
      Pile_Cards (DrawPile g') ++ Pile_Cards (DiscardPile g') = drop 14 cards /\
      length (Pile_Cards (DiscardPile g')) = Nat.min 1 (length cards - 14) /\
      scoreOf 0 g' = scoreOf 0 g /\ scoreOf 1 g' = scoreOf 1 g /\
      RoundNumber g' = int64_wrap (RoundNumber g + 1) /\
      RoundsLog g' = RoundsLog g ++ [mkRoundLog [(0, []); (1, [])] (-1) (-1) (-1) 0 0 0 []] /\
      HasDrawnThisTurn g' = false /\ HasDiscardedThisTurn g' = false /\
      IsRoundFinished g' = false /\ KnockedPlayerID g' = -1 /\
      RoundFinishedConfirmedPlayerIDs g' = ∅ /\
      IsGameEnded g' = IsGameEnded g /\
      WinnerPlayerID g' = WinnerPlayerID g /\ RuleMaxPoints g' = RuleMaxPoints g /\
      (TurnPlayerID g = 0 -> TurnPlayerID g' = 1 /\ TurnOpponentPlayerID g' = 0) /\
      (TurnPlayerID g = 1 -> TurnPlayerID g' = 0 /\ TurnOpponentPlayerID g' = 1).
Proof.
  intros cards. case_bool_decide as Hlen.
  - unfold startNewRound. res_unfold.
    cbn -[deal CalculatePossibleActions IsEmpty DrawCard AddCard].
    fold cards. by rewrite deal_panic by lia.
  - destruct (startNewRound_returns e g) as [g' Hstart]; [fold cards; lia|].
    exists g'. split; [exact Hstart|].
    pose proof (startNewRound_result e g g' Hstart) as Hres. cbv zeta in Hres.
    fold cards in Hres.
    destruct Hres as (H1 & H2 & H3 & H4 & H5 & H6 & H7 & H8 & H9 & H10 & H11 & H12 & H13
                      & H14 & H15 & H16 & H17 & H18 & H19 & H20 & Hturn & Hopp & _).
    do 20 (split; [assumption|]).
    rewrite Hturn, Hopp.
    split; intros Hseat; rewrite Hseat.
    + rewrite (proj1 (OpponentOf_seat e g 0) eq_refl).
      by rewrite (proj2 (OpponentOf_seat e g 1) eq_refl).
    + rewrite (proj2 (OpponentOf_seat e g 1) eq_refl).
      by rewrite (proj1 (OpponentOf_seat e g 0) eq_refl).
Qed.

Lemma foldl_options_newGame opts : forall gs,
  Forall maxPointsOption opts ->
  exists maxPoints,
    foldl (fun gs opt => opt gs) gs opts = set_RuleMaxPoints maxPoints gs.
Proof.
  induction opts as [|opt opts IH]; intros gs Hopts.
  - exists (RuleMaxPoints gs). by destruct gs.
  - apply Forall_cons in Hopts as [[maxPoints ->] Hopts].
    cbn [foldl]. destruct (IH (WithMaxPoints maxPoints gs) Hopts) as [m ->].
    exists m. reflexivity.
Qed.

(** X12. [New] always returns a game, whatever the options set as target:
    round 1 is dealt from the full deck (7 cards each, 25 in the draw pile,
    1 in the discard pile, together the 40 cards), player 1 is to move and
    may draw from either pile, nobody has scored and the game has not
    ended. *)
Theorem New_deals_first_round e opts :
  shuffles e -> Forall maxPointsOption opts ->
  exists g,
    New e opts = Ret g /\
    RoundNumber g = 1 /\ TurnPlayerID g = 1 /\ TurnOpponentPlayerID g = 0 /\
    length (handOf (Player0 (Players g))) = 7%nat /\
    length (handOf (Player1 (Players g))) = 7%nat /\
    length (Pile_Cards (DrawPile g)) = 25%nat /\
    length (Pile_Cards (DiscardPile g)) = 1%nat /\
    unmelded g ≡ₚ newDeck /\
    Melds (Player0 (Players g)) = [] /\ Melds (Player1 (Players g)) = [] /\
    scoreOf 0 g = 0 /\ scoreOf 1 g = 0 /\
    IsGameEnded g = false /\ IsRoundFinished g = false /\
    PossibleActions g =
      _serializeActions [NewActionDrawFromDrawPile 1; NewActionDrawFromDiscardPile 1].
Proof.
  intros He Hopts. rewrite New_unfold.
  destruct (foldl_options_newGame opts newGame Hopts) as [maxPoints ->].
  set (g0 := set_RuleMaxPoints maxPoints newGame).
  assert (length (shuffle e (deck g0)) = 40%nat) as Hlen.
  { rewrite (Permutation_length (He _)). apply newDeck_length. }
  destruct (startNewRound_returns e g0) as [g Hstart]; [lia|].
  exists g. split; [exact Hstart|].
  pose proof (startNewRound_result e g0 g Hstart) as Hres. cbv zeta in Hres.
  destruct Hres as (Hlook & Hl0 & Hl1 & Hm0 & Hm1 & Hdeck & Hpiles & Hdiscard & Hs0 & Hs1
                    & Hround & Hlog & Hdrawn & Hdiscarded & Hopen & Hknock & Hconf & Hend
                    & Hwinner & Hmax & Hturn & Hopp & Hperm & actions & Hactions & Hstored).
  rewrite Hlen in Hdiscard. simpl in Hdiscard.
  assert (length (Pile_Cards (DrawPile g)) = 25%nat) as Hdraw.
  { apply (f_equal length) in Hpiles. rewrite length_app, length_drop, Hlen in Hpiles. lia. }
  assert (TurnPlayerID g = 1) as Hturn1.
  { rewrite Hturn. by apply OpponentOf_seat. }
  assert (TurnOpponentPlayerID g = 0) as Hopp0.
  { rewrite Hopp. change (TurnPlayerID g0) with 0.
    rewrite (proj1 (OpponentOf_seat e g0 0) eq_refl). by apply OpponentOf_seat. }
  split; [by rewrite Hround|]. do 6 (split; [assumption|]).
  split.
  { unfold unmelded. rewrite app_assoc, Hpiles.
    transitivity (shuffle e (deck g0)); [|exact (He (deck g0))].
    etrans; [|exact Hperm]. solve_Permutation. }
  do 6 (split; [assumption|]).
  rewrite Hstored. f_equal.
  rewrite candidates_before_draw in Hactions by done.
  unfold IsEmpty in Hactions. rewrite Hdraw, Hdiscard, Hturn1 in Hactions.
  cbn in Hactions. by injection Hactions as <-.
Qed.

Lemma New_deals_first_round_witness :
  exists g,
    shuffles identityEnv /\ Forall maxPointsOption [WithMaxPoints 0] /\
    New identityEnv [WithMaxPoints 0] = Ret g /\
    TurnPlayerID g = 1 /\ IsGameEnded g = false.
Proof.
  assert (shuffles identityEnv) as He by (intros cards; reflexivity).
  assert (Forall maxPointsOption [WithMaxPoints 0]) as Hopts.
  { constructor; [|constructor]. exists 0. reflexivity. }
  destruct (New_deals_first_round identityEnv [WithMaxPoints 0] He Hopts)
    as (g & Hnew & _ & Hturn & _ & _ & _ & _ & _ & _ & _ & _ & _ & _ & Hended & _).
  exists g. split; [exact He|]. split; [exact Hopts|]. split; [exact Hnew|].
  split; [exact Hturn|]. exact Hended.
Defined.

(** ** What one action changes *)

Lemma calculateRoundScore_table g g1 :
  calculateRoundScore g = Ret g1 ->
  table g1 = table g /\ frame g1 = frame g /\
  TurnPlayerID g1 = TurnPlayerID g /\ TurnOpponentPlayerID g1 = TurnOpponentPlayerID g.
Proof.
  unfold calculateRoundScore. res_unfold.
  destruct (currentRoundLog g) as [roundLog|]; [|discriminate].
  rewrite getPlayer_0, getPlayer_1.
  repeat case_bool_decide; cbn;
    rewrite ?getPlayer_0, ?getPlayer_1, ?setPlayer_0, ?setPlayer_1;
    intros [= <-]; unfold table, frame; cbn; by rewrite ?length_insert.
Qed.

Lemma Knock_Run_table a g g1 :
  Knock_Run a g = Ret (g1, None) ->
  (DrawPile g1, DiscardPile g1,
   Player_Hand (Player0 (Players g1)), Melds (Player0 (Players g1)),
   Player_Hand (Player1 (Players g1)), Melds (Player1 (Players g1)))
  = (DrawPile g, DiscardPile g,
     Player_Hand (Player0 (Players g)), Melds (Player0 (Players g)),
     Player_Hand (Player1 (Players g)), Melds (Player1 (Players g))).
Proof.
  unfold Knock_Run. res_unfold.
  destruct (Knock_IsPossible a g) as [[|]|]; cbn; try discriminate.
  destruct (calculateRoundScore _) as [g2|] eqn:Hscore; [|discriminate].
  apply calculateRoundScore_table in Hscore as (Htable & _).
  destruct (currentRoundLog g2); [|discriminate].
  rewrite getPlayer_0, getPlayer_1. intros [= <-].
  unfold table in Htable. cbn in *. congruence.
Qed.

Lemma Run_allCards action g g1 :
  NoDup (unmelded g) -> Run action g = Ret (g1, None) -> allCards g1 ≡ₚ allCards g.
Proof.
  intros Hnd. pose proof (NoDup_unmelded_hands g Hnd) as [Hnd0 Hnd1].
  destruct action as [a|a|a card|a cards meldType|a|a]; cbn [Run].
  - unfold DrawFromDrawPile_Run, appendToHand. res_unfold.
    destruct (negb _); [discriminate|].
    destruct (DrawCard (DrawPile g)) as [[pile card] [err|]] eqn:Hdraw.
    + intros [= <-]. apply DrawCard_error in Hdraw as Hempty.
      unfold DrawCard in Hdraw. rewrite Hempty in Hdraw. simpl in Hdraw. simplify_eq.
      by destruct g.
    + apply DrawCard_spec in Hdraw. intros Hrun. player_cases a; simplify_eq;
        unfold allCards, unmelded, handOf; cbn -[meldedCards]; rewrite Hdraw;
        solve_Permutation.
  - unfold DrawFromDiscardPile_Run, appendToHand. res_unfold.
    destruct (negb _); [discriminate|].
    destruct (DrawCard (DiscardPile g)) as [[pile card] [err|]] eqn:Hdraw.
    + intros [= <-]. apply DrawCard_error in Hdraw as Hempty.
      unfold DrawCard in Hdraw. rewrite Hempty in Hdraw. simpl in Hdraw. simplify_eq.
      by destruct g.
    + apply DrawCard_spec in Hdraw. intros Hrun. player_cases a; simplify_eq;
        unfold allCards, unmelded, handOf; cbn -[meldedCards]; rewrite Hdraw;
        solve_Permutation.
  - unfold DiscardCard_Run, DiscardCard_IsPossible. res_unfold.
    destruct (_ || _); simpl; [discriminate|].
    player_cases a; try discriminate; unfold AddCard;
      case_bool_decide as Hin; simpl; try discriminate;
      intros [= <-]; unfold allCards, unmelded, handOf in *; cbn -[meldedCards].
    + rewrite <- (filter_remove_one card _ Hnd0 Hin) at 2.
      set (F := filter _ _). clearbody F. solve_Permutation.
    + rewrite <- (filter_remove_one card _ Hnd1 Hin) at 2.
      set (F := filter _ _). clearbody F. solve_Permutation.
  - unfold MeldCards_Run, MeldCards_IsPossible. res_unfold.
    destruct (_ || _); simpl; [discriminate|].
    player_cases a; try discriminate;
      destruct (forallb _ cards) eqn:Hall; simpl; try discriminate;
      destruct (isValidMeld cards meldType) eqn:Hvalid; simpl; try discriminate;
      apply isValidMeld_NoDup in Hvalid;
      intros Hrun; rewrite ?decide_True in Hrun by done;
      rewrite ?decide_False in Hrun by done; rewrite ?decide_True in Hrun by done;
      simplify_eq;
      (assert (cards ⊆ _) as Hsub
         by (intros c Hc; rewrite forallb_forall in Hall;
             apply list_elem_of_In, Hall, bool_decide_eq_true in Hc; exact Hc));
      unfold allCards, unmelded, handOf in *; cbn -[meldedCards];
      rewrite ?meldedCards_snoc.
    + rewrite <- (filter_remove_all cards _ Hnd0 Hvalid Hsub) at 2.
      set (F := filter _ _). clearbody F. solve_Permutation.
    + rewrite <- (filter_remove_all cards _ Hnd1 Hvalid Hsub) at 2.
      set (F := filter _ _). clearbody F. solve_Permutation.
  - intros Hrun. apply Knock_Run_table in Hrun.
    unfold allCards, unmelded, handOf. injection Hrun as -> -> -> -> -> ->. done.
  - unfold ConfirmRoundFinished_Run. destruct (negb _); [discriminate|].
    by intros [= <-].
Qed.

(** ** The actions of an open round *)

Lemma Run_open_ledger action g g1 :
  IsRoundFinished g = false -> HasDiscardedThisTurn g = false ->
  Run action g = Ret (g1, None) ->
  ledger g1 = ledger g /\ IsRoundFinished g1 = false.
Proof.
  intros Hopen Hdiscarded.
  destruct action as [a|a|a card|a cards meldType|a|a]; cbn [Run].
  - unfold DrawFromDrawPile_Run, appendToHand. res_unfold.
    destruct (negb _); [discriminate|].
    destruct (DrawCard (DrawPile g)) as [[pile card] [err|]].
    + by intros [= <-].
    + player_cases a; try discriminate; by intros [= <-].
  - unfold DrawFromDiscardPile_Run, appendToHand. res_unfold.
    destruct (negb _); [discriminate|].
    destruct (DrawCard (DiscardPile g)) as [[pile card] [err|]].
    + by intros [= <-].
    + player_cases a; try discriminate; by intros [= <-].
  - unfold DiscardCard_Run, DiscardCard_IsPossible. res_unfold.
    destruct (_ || _); simpl; [discriminate|].
    player_cases a; try discriminate;
      case_bool_decide; simpl; try discriminate; by intros [= <-].
  - unfold MeldCards_Run, MeldCards_IsPossible. res_unfold.
    destruct (_ || _); simpl; [discriminate|].
    player_cases a; try discriminate;
      destruct (forallb _ cards); simpl; try discriminate;
      destruct (isValidMeld cards meldType); simpl; try discriminate;
      intros Hrun; rewrite ?decide_True in Hrun by done;
      rewrite ?decide_False in Hrun by done; rewrite ?decide_True in Hrun by done;
      by simplify_eq.
  - unfold Knock_Run, Knock_IsPossible. rewrite Hdiscarded.
    rewrite orb_true_r. cbn. discriminate.
  - unfold ConfirmRoundFinished_Run, ConfirmRoundFinished_IsPossible.
    rewrite Hopen. cbn. discriminate.
Qed.

(** ** Legal actions *)

Lemma IsPossible_returns action g :
  GetPlayerID action = 0 \/ GetPlayerID action = 1 ->
  exists possible, IsPossible action g = Ret possible.
Proof.
  intros Hseat.
  assert (exists p, getPlayer g (GetPlayerID action) = Some p) as [p Hp].
  { destruct Hseat as [-> | ->]; eexists; [apply getPlayer_0 | apply getPlayer_1]. }
  destruct action as [a|a|a card|a cards meldType|a|a]; cbn [IsPossible]; eauto;
    unfold GetPlayerID in Hp; cbn [act_of] in Hp.
  - unfold DiscardCard_IsPossible. destruct (_ || _); [eauto|].
    rewrite Hp. cbn. eauto.
  - unfold MeldCards_IsPossible. destruct (_ || _); [eauto|].
    rewrite Hp. cbn. destruct (negb _); eauto.
  - unfold Knock_IsPossible, hasValidMelds. destruct (_ || _); [eauto|].
    rewrite Hp. cbn. eauto.
Qed.

Lemma keepPossible_returns actions g :
  Forall (fun action => GetPlayerID action = 0 \/ GetPlayerID action = 1) actions ->
  exists possible, keepPossible actions g = Ret possible.
Proof.
  induction 1 as [|action actions Hseat _ [possible IH]]; cbn [keepPossible]; [eauto|].
  unfold Enrich. destruct (IsPossible_returns action g Hseat) as [b ->].
  rewrite IH. cbn. eauto.
Qed.

Lemma keepPossible_spec actions g : forall possible,
  keepPossible actions g = Ret possible ->
  forall action, action ∈ possible <-> action ∈ actions /\ IsPossible action g = Ret true.
Proof.
  induction actions as [|first actions IH]; cbn [keepPossible]; intros possible.
  - intros [= <-] action. rewrite elem_of_nil. tauto.
  - unfold Enrich. res_unfold.
    destruct (IsPossible first g) as [b|] eqn:Hfirst; [|discriminate].
    destruct (keepPossible actions g) as [rest|]; [|discriminate].
    intros [= <-] action. specialize (IH rest eq_refl action).
    destruct b.
    + rewrite !elem_of_cons, IH. split.
      * intros [->|[? ?]]; [split; [by left|done]|split; [by right|done]].
      * intros [[->|?] ?]; [by left|by right].
    + rewrite elem_of_cons, IH. split.
      * intros [? ?]. split; [by right|done].
      * intros [[->|?] ?]; [congruence|done].
Qed.

Lemma generatePossibleMeldActions_player g playerID actions :
  generatePossibleMeldActions g playerID = Ret actions ->
  Forall (fun action => GetPlayerID action = playerID) actions.
Proof.
  unfold generatePossibleMeldActions. res_unfold.
  destruct (getPlayer g playerID) as [p|]; [|discriminate]. intros [= <-].
  apply Forall_forall. intros action Hin. apply elem_of_app in Hin as [Hin|Hin].
  - by apply generated_set_valid in Hin as (cards & -> & _).
  - by apply generated_run_valid in Hin as (cards & -> & _).
Qed.

Lemma candidateActions_player g actions :
  candidateActions g = Ret actions ->
  Forall (fun action =>
            GetPlayerID action = TurnPlayerID g \/
            (IsRoundFinished g = true /\ GetPlayerID action = TurnOpponentPlayerID g))
         actions.
Proof.
  unfold candidateActions. res_unfold.
  destruct (IsRoundFinished g).
  { intros [= <-]. constructor; [by left|]. constructor; [by right|]. constructor. }
  destruct (negb (HasDrawnThisTurn g)).
  { intros [= <-]. constructor; [by left|]. constructor; [by left|]. constructor. }
  destruct (negb (HasDiscardedThisTurn g)).
  - destruct (getPlayer g (TurnPlayerID g)) as [p|]; [|discriminate]. intros [= <-].
    apply Forall_forall. intros action Hin.
    change (map ?f ?l) with (f <$> l) in Hin.
    apply list_elem_of_fmap in Hin as (card & -> & _). by left.
  - destruct (generatePossibleMeldActions g (TurnPlayerID g)) as [melds|] eqn:Hmelds;
      [|discriminate].
    intros [= <-]. constructor; [by left|].
    apply generatePossibleMeldActions_player in Hmelds.
    eapply Forall_impl; [exact Hmelds|]. intros action Hplayer. by left.
Qed.

Lemma candidateActions_returns g :
  seated g -> exists actions, candidateActions g = Ret actions.
Proof.
  intros Hseated.
  assert (exists p, getPlayer g (TurnPlayerID g) = Some p) as [p Hp].
  { destruct Hseated as [[-> _]|[-> _]]; eexists; [apply getPlayer_0|apply getPlayer_1]. }
  unfold candidateActions, generatePossibleMeldActions.
  destruct (IsRoundFinished g); [eauto|].
  destruct (negb (HasDrawnThisTurn g)); [eauto|].
  rewrite Hp. cbn. destruct (negb (HasDiscardedThisTurn g)); eauto.
Qed.

Lemma CalculatePossibleActions_returns g :
  seated g -> exists actions, CalculatePossibleActions g = Ret actions.
Proof.
  intros Hseated. unfold CalculatePossibleActions.
  destruct (candidateActions_returns g Hseated) as [actions Hactions].
  rewrite Hactions. cbn [mbind res_bind].
  apply keepPossible_returns.
  apply candidateActions_player in Hactions.
  eapply Forall_impl; [exact Hactions|]. intros action Hplayer.
  destruct Hseated as [[H0 H1]|[H0 H1]]; rewrite H0, H1 in Hplayer; tauto.
Qed.

Lemma CalculatePossibleActions_spec g possible action :
  CalculatePossibleActions g = Ret possible -> action ∈ possible ->
  IsPossible action g = Ret true /\
  (GetPlayerID action = TurnPlayerID g \/
   (IsRoundFinished g = true /\ GetPlayerID action = TurnOpponentPlayerID g)).
Proof.
  unfold CalculatePossibleActions. res_unfold.
  destruct (candidateActions g) as [actions|] eqn:Hactions; [|discriminate].
  intros Hkeep Hin. apply (keepPossible_spec _ _ _ Hkeep) in Hin as [Hin Hpossible].
  split; [done|]. apply candidateActions_player in Hactions.
  rewrite Forall_forall in Hactions. by apply Hactions.
Qed.

Lemma seated_changeTurn g : seated g -> seated (changeTurn g).
Proof. unfold seated. cbn. tauto. Qed.

(** ** The bookkeeping of [RunAction] in an open round *)

Lemma endGameIfReached_turnState g playerID :
  turnState (endGameIfReached g playerID) = turnState g.
Proof.
  unfold endGameIfReached, getPlayer, setPlayer.
  repeat case_decide; try done; case_bool_decide; done.
Qed.

Lemma handleEndOfGame_turnState e g :
  turnState (foldl endGameIfReached g (rangePlayers e)) = turnState g.
Proof.
  unfold rangePlayers. destruct (zeroFirst e); simpl;
    by rewrite !endGameIfReached_turnState.
Qed.

Lemma endGameIfReached_frame g playerID :
  frame (endGameIfReached g playerID) = frame g.
Proof.
  unfold endGameIfReached, getPlayer, setPlayer.
  repeat case_decide; try done; case_bool_decide; done.
Qed.

Lemma handleEndOfGame_frame e g :
  frame (foldl endGameIfReached g (rangePlayers e)) = frame g.
Proof.
  unfold rangePlayers. destruct (zeroFirst e); simpl;
    by rewrite !endGameIfReached_frame.
Qed.

Lemma handleEndOfGame_below e g :
  Score (Player0 (Players g)) < RuleMaxPoints g ->
  Score (Player1 (Players g)) < RuleMaxPoints g ->
  foldl endGameIfReached g (rangePlayers e) = g.
Proof.
  intros H0 H1.
  assert (endGameIfReached g 0 = g) as E0.
  { unfold endGameIfReached. rewrite getPlayer_0. by rewrite bool_decide_eq_false_2 by lia. }
  assert (endGameIfReached g 1 = g) as E1.
  { unfold endGameIfReached. rewrite getPlayer_1. by rewrite bool_decide_eq_false_2 by lia. }
  unfold rangePlayers. destruct (zeroFirst e); simpl; by rewrite ?E0, ?E1, ?E0.
Qed.

Lemma appendActionLog_spec action g g' :
  appendActionLog action g = Ret g' ->
  exists log,
    currentRoundLog g = Ret log /\
    g' = set_currentRoundLog
           (set_ActionsLog
              (ActionsLog log ++ [mkActionLog (TurnPlayerID g) (SerializeAction action)]) log)
           g.
Proof.
  unfold appendActionLog. res_unfold.
  destruct (currentRoundLog g) as [log|]; [|discriminate]. intros [= <-]. eauto.
Qed.

Lemma appendActionLog_ledger action g g' :
  appendActionLog action g = Ret g' ->
  frame g' = frame g /\
  TurnPlayerID g' = TurnPlayerID g /\ TurnOpponentPlayerID g' = TurnOpponentPlayerID g /\
  HasDrawnThisTurn g' = HasDrawnThisTurn g /\
  Players g' = Players g /\ IsGameEnded g' = IsGameEnded g /\
  WinnerPlayerID g' = WinnerPlayerID g.
Proof.
  intros Hlog. apply appendActionLog_spec in Hlog as (log & _ & ->).
  unfold frame, set_currentRoundLog. cbn. by rewrite length_insert.
Qed.

(** The state that [RunAction] stores after an action in an open round of a
    game that has not ended. *)
Lemma afterRun_open_spec e action g g' :
  IsRoundFinished g = false -> IsGameEnded g = false ->
  afterRun e action g = Ret (g', None) ->
  frame g' = frame g /\
  ((TurnPlayerID g' = TurnPlayerID g /\ TurnOpponentPlayerID g' = TurnOpponentPlayerID g) \/
   (TurnPlayerID g' = TurnOpponentPlayerID g /\ TurnOpponentPlayerID g' = TurnPlayerID g)) /\
  (Score (Player0 (Players g)) < RuleMaxPoints g ->
   Score (Player1 (Players g)) < RuleMaxPoints g ->
   Players g' = Players g /\ IsGameEnded g' = false /\
   WinnerPlayerID g' = WinnerPlayerID g) /\
  (exists actions,
     CalculatePossibleActions g' = Ret actions /\
     PossibleActions g' = _serializeActions actions).
Proof.
  intros Hround Hended. unfold afterRun. res_unfold.
  set (logged := if bool_decide (GetName action ≠ CONFIRM_ROUND_FINISHED)
                 then appendActionLog action g else Ret g).
  assert (forall g1, logged = Ret g1 ->
            table g1 = table g /\ frame g1 = frame g /\
            TurnPlayerID g1 = TurnPlayerID g /\
            TurnOpponentPlayerID g1 = TurnOpponentPlayerID g /\
            Players g1 = Players g /\ IsGameEnded g1 = IsGameEnded g /\
            WinnerPlayerID g1 = WinnerPlayerID g) as Hlogged.
  { unfold logged. intros g1. case_bool_decide.
    - intros H1. pose proof (appendActionLog_table _ _ _ H1).
      apply appendActionLog_ledger in H1. tauto.
    - by intros [= <-]. }
  destruct logged as [g1|]; [|discriminate].
  destruct (Hlogged g1 eq_refl) as (Htable & Hframe & Hturn & Hopp & Hplayers & Hended1 & Hwinner).
  assert (IsRoundFinished g1 = false) as Hround1.
  { unfold table in Htable. congruence. }
  rewrite Hround1, Hended1, Hended. simpl.
  set (g2 := if YieldsTurn action g1 then _ else g1).
  assert (frame g2 = frame g /\
          ((TurnPlayerID g2 = TurnPlayerID g /\
            TurnOpponentPlayerID g2 = TurnOpponentPlayerID g) \/
           (TurnPlayerID g2 = TurnOpponentPlayerID g /\
            TurnOpponentPlayerID g2 = TurnPlayerID g)) /\
          Players g2 = Players g /\ IsGameEnded g2 = false /\
          WinnerPlayerID g2 = WinnerPlayerID g /\ IsRoundFinished g2 = false /\
          RuleMaxPoints g2 = RuleMaxPoints g)
    as (Hframe2 & Hturn2 & Hplayers2 & Hended2 & Hwinner2 & Hround2 & Hmax2).
  { assert (RuleMaxPoints g1 = RuleMaxPoints g) by (unfold frame in Hframe; congruence).
    unfold g2. destruct (YieldsTurn action g1); cbn.
    - split; [done|]. split; [right; split; congruence|]. repeat split; congruence.
    - split; [done|]. split; [left; split; congruence|]. repeat split; congruence. }
  clearbody g2. rewrite Hround2, andb_false_r. simpl.
  pose proof (handleEndOfGame_turnState e g2) as Hstate3.
  pose proof (handleEndOfGame_frame e g2) as Hframe3'.
  pose proof (handleEndOfGame_below e g2) as Hbelow3.
  generalize dependent (foldl endGameIfReached g2 (rangePlayers e)).
  intros g3 Hstate3 Hframe3' Hbelow3.
  assert (frame g3 = frame g /\
          ((TurnPlayerID g3 = TurnPlayerID g /\
            TurnOpponentPlayerID g3 = TurnOpponentPlayerID g) \/
           (TurnPlayerID g3 = TurnOpponentPlayerID g /\
            TurnOpponentPlayerID g3 = TurnPlayerID g)))
    as [Hframe3 Hturn3].
  { unfold turnState in Hstate3. injection Hstate3 as _ -> -> _ _ _.
    split; [congruence|done]. }
  assert (Score (Player0 (Players g)) < RuleMaxPoints g ->
          Score (Player1 (Players g)) < RuleMaxPoints g ->
          Players g3 = Players g /\ IsGameEnded g3 = false /\
          WinnerPlayerID g3 = WinnerPlayerID g) as Hscores3.
  { intros H0 H1. rewrite Hbelow3 by (rewrite Hplayers2, Hmax2; done). done. }
  clear Hbelow3.
  destruct (CalculatePossibleActions g3) as [actions|] eqn:Hactions; [|discriminate].
  destruct (countActionsOfTurnPlayer g3); [|discriminate].
  case_bool_decide.
  - destruct (CalculatePossibleActions (changeTurn g3)) as [actions'|] eqn:Hactions';
      [|discriminate].
    intros [= <-]. split; [done|]. split; [cbn; tauto|]. split; [done|].
    exists actions'. by rewrite CalculatePossibleActions_set_PossibleActions.
  - intros [= <-]. split; [done|]. split; [done|]. split; [done|].
    exists actions. by rewrite CalculatePossibleActions_set_PossibleActions.
Qed.

Lemma afterRun_open_returns e action g :
  IsRoundFinished g = false -> IsGameEnded g = false -> seated g ->
  0 <= RoundNumber g < Z.of_nat (length (RoundsLog g)) ->
  exists g', afterRun e action g = Ret (g', None).
Proof.
  intros Hround Hended Hseated Hnumber. unfold afterRun. res_unfold.
  set (logged := if bool_decide (GetName action ≠ CONFIRM_ROUND_FINISHED)
                 then appendActionLog action g else Ret g).
  assert (exists g1, logged = Ret g1 /\ IsRoundFinished g1 = false /\
                     IsGameEnded g1 = false /\ seated g1) as (g1 & -> & Hround1 & Hended1 & Hseated1).
  { unfold logged. case_bool_decide; [|by exists g].
    unfold appendActionLog, currentRoundLog. rewrite decide_False by lia.
    destruct (lookup_lt_is_Some_2 (RoundsLog g) (Z.to_nat (RoundNumber g))) as [log ->];
      [lia|].
    cbn. eexists. split; [reflexivity|]. done. }
  rewrite Hround1, Hended1. simpl.
  set (g2 := if YieldsTurn action g1 then _ else g1).
  assert (IsRoundFinished g2 = false /\ seated g2) as [Hround2 Hseated2].
  { unfold g2. destruct (YieldsTurn action g1); [|done].
    split; [done|]. unfold seated in *. cbn. tauto. }
  clearbody g2. rewrite Hround2, andb_false_r. simpl.
  pose proof (handleEndOfGame_turnState e g2) as Hstate3.
  generalize dependent (foldl endGameIfReached g2 (rangePlayers e)). intros g3 Hstate3.
  assert (seated g3) as Hseated3.
  { unfold turnState in Hstate3. unfold seated. injection Hstate3 as _ -> -> _ _ _. done. }
  destruct (CalculatePossibleActions_returns g3 Hseated3) as [actions Hactions].
  unfold countActionsOfTurnPlayer. rewrite Hactions. cbn.
  case_bool_decide; [|eauto].
  destruct (CalculatePossibleActions_returns (changeTurn g3) (seated_changeTurn _ Hseated3))
    as [actions' ->].
  cbn. eauto.
Qed.

Lemma Run_possible_no_error action g g1 err :
  IsPossible action g = Ret true -> Run action g = Ret (g1, Some err) -> False.
Proof.
  destruct action as [a|a|a card|a cards meldType|a|a]; cbn [IsPossible Run].
  - unfold DrawFromDrawPile_Run, appendToHand. res_unfold. intros [= ->]. cbn.
    destruct (DrawCard (DrawPile g)) as [[pile card] [?|]]; [discriminate|].
    destruct (getPlayer _ _); discriminate.
  - unfold DrawFromDiscardPile_Run, appendToHand. res_unfold. intros [= ->]. cbn.
    destruct (DrawCard (DiscardPile g)) as [[pile card] [?|]]; [discriminate|].
    destruct (getPlayer _ _); discriminate.
  - unfold DiscardCard_Run. res_unfold. intros ->. cbn.
    destruct (getPlayer _ _); discriminate.
  - unfold MeldCards_Run. res_unfold. intros ->. cbn.
    destruct (getPlayer g _); [|discriminate].
    destruct (getPlayer _ _); discriminate.
  - unfold Knock_Run. res_unfold. intros ->. cbn.
    destruct (calculateRoundScore _) as [g2|]; [|discriminate].
    destruct (currentRoundLog g2); [|discriminate].
    destruct (getPlayer g2 0); [|discriminate].
    destruct (getPlayer g2 1); discriminate.
  - unfold ConfirmRoundFinished_Run. intros [= ->]. discriminate.
Qed.

Lemma Run_open_returns action g :
  IsPossible action g = Ret true ->
  IsRoundFinished g = false -> HasDiscardedThisTurn g = false ->
  GetPlayerID action = 0 \/ GetPlayerID action = 1 ->
  exists g1, Run action g = Ret (g1, None).
Proof.
  intros Hpossible Hopen Hdiscarded Hseat.
  assert (exists p, getPlayer g (GetPlayerID action) = Some p) as [p Hp].
  { destruct Hseat as [-> | ->]; eexists; [apply getPlayer_0 | apply getPlayer_1]. }
  assert (forall h, exists p', getPlayer h (GetPlayerID action) = Some p') as Hany.
  { intros h. destruct Hseat as [-> | ->]; eexists;
      [apply getPlayer_0 | apply getPlayer_1]. }
  unfold GetPlayerID in *.
  destruct action as [a|a|a card|a cards meldType|a|a]; cbn [IsPossible Run act_of] in *.
  - unfold DrawFromDrawPile_Run, appendToHand. res_unfold.
    injection Hpossible as ->. cbn.
    destruct (DrawCard (DrawPile g)) as [[pile card] [?|]]; [eauto|].
    destruct (Hany (set_DrawPile pile g)) as [p' ->]. eauto.
  - unfold DrawFromDiscardPile_Run, appendToHand. res_unfold.
    injection Hpossible as ->. cbn.
    destruct (DrawCard (DiscardPile g)) as [[pile card] [?|]]; [eauto|].
    destruct (Hany (set_DiscardPile pile g)) as [p' ->]. eauto.
  - unfold DiscardCard_Run. res_unfold. rewrite Hpossible, Hp. cbn. eauto.
  - unfold MeldCards_Run. res_unfold. rewrite Hpossible, Hp. cbn.
    match goal with
    | |- context [getPlayer ?h (PlayerID a)] =>
        destruct (Hany h) as [p' ->]
    end. eauto.
  - unfold Knock_IsPossible in Hpossible. rewrite Hdiscarded in Hpossible.
    rewrite orb_true_r in Hpossible. discriminate.
  - unfold ConfirmRoundFinished_IsPossible in Hpossible. congruence.
Qed.

Lemma Run_melds_valid action g g1 :
  Run action g = Ret (g1, None) -> meldsValid g -> meldsValid g1.
Proof.
  unfold meldsValid. intros Hrun [Hvalid0 Hvalid1]. revert Hrun.
  destruct action as [a|a|a card|a cards meldType|a|a]; cbn [Run].
  - unfold DrawFromDrawPile_Run, appendToHand. res_unfold.
    destruct (negb _); [discriminate|].
    destruct (DrawCard (DrawPile g)) as [[pile card] [err|]].
    + by intros [= <-].
    + player_cases a; try discriminate; by intros [= <-].
  - unfold DrawFromDiscardPile_Run, appendToHand. res_unfold.
    destruct (negb _); [discriminate|].
    destruct (DrawCard (DiscardPile g)) as [[pile card] [err|]].
    + by intros [= <-].
    + player_cases a; try discriminate; by intros [= <-].
  - unfold DiscardCard_Run, DiscardCard_IsPossible. res_unfold.
    destruct (_ || _); simpl; [discriminate|].
    player_cases a; try discriminate;
      case_bool_decide; simpl; try discriminate; by intros [= <-].
  - unfold MeldCards_Run, MeldCards_IsPossible. res_unfold.
    destruct (_ || _); simpl; [discriminate|].
    player_cases a; try discriminate;
      destruct (forallb _ cards); simpl; try discriminate;
      destruct (isValidMeld cards meldType) eqn:Hvalid; simpl; try discriminate;
      apply isValidMeld_Meld_IsValid in Hvalid;
      intros Hrun; rewrite ?decide_True in Hrun by done;
      rewrite ?decide_False in Hrun by done; rewrite ?decide_True in Hrun by done;
      simplify_eq; cbn; (split; try done);
      apply Forall_app; (split; [done|]); by constructor.
  - intros Hrun. apply Knock_Run_table in Hrun. injection Hrun as _ _ _ -> _ ->. done.
  - unfold ConfirmRoundFinished_Run. destruct (negb _); [discriminate|].
    by intros [= <-].
Qed.

(** ** Games started by [New] *)

Lemma New_playInv e opts g :
  shuffles e -> Forall maxPointsOption opts -> New e opts = Ret g -> playInv g.
Proof.
  intros He Hopts Hnew. rewrite New_unfold in Hnew.
  destruct (foldl_options_newGame opts newGame Hopts) as [maxPoints Hfold].
  rewrite Hfold in Hnew. clear Hfold.
  pose proof (startNewRound_result e _ g Hnew) as Hres. cbv zeta in Hres.
  destruct Hres as (_ & _ & _ & Hm0 & Hm1 & _ & Hpiles & _ & Hs0 & Hs1
                    & Hround & Hlog & _ & _ & _ & Hknock & Hconf & Hend
                    & Hwinner & _ & Hturn & Hopp & Hperm & Hstored).
  assert (TurnPlayerID g = 1) as Hturn1.
  { rewrite Hturn. by apply OpponentOf_seat. }
  assert (TurnOpponentPlayerID g = 0) as Hopp0.
  { rewrite Hopp. cbn [TurnPlayerID set_RuleMaxPoints newGame].
    rewrite (proj1 (OpponentOf_seat e _ 0) eq_refl). by apply OpponentOf_seat. }
  split; [|split; [|split; [|split]]].
  - split; [by rewrite Hround|]. split; [by rewrite Hlog|].
    split; [right; done|]. done.
  - unfold allCards. rewrite Hm0, Hm1. cbn [meldedCards map concat]. rewrite !app_nil_r.
    unfold unmelded. rewrite app_assoc, Hpiles.
    transitivity (shuffle e newDeck); [|exact (He newDeck)].
    etrans; [|exact Hperm]. solve_Permutation.
  - unfold meldsValid. rewrite Hm0, Hm1. split; constructor.
  - exact Hstored.
  - intros _. unfold scoreless. rewrite Hs0, Hs1, Hend.
    by rewrite Hwinner.
Qed.

Lemma RunAction_playInv e action g g' :
  roundInv g -> playInv g -> RunAction e action g = Ret (g', None) -> playInv g'.
Proof.
  intros (Hround & Hdiscarded & Hcards) Hinv Hrun.
  destruct action as [action|]; [|simpl in Hrun; by simplify_eq].
  destruct Hinv as (Hfirst & Hdeck & Hmelds & _ & Hscoreless).
  apply RunAction_success in Hrun as (Hended & Hpossible & g1 & Hrun & Hafter).
  pose proof (Run_open_ledger _ _ _ Hround Hdiscarded Hrun) as [Hledger Hround1].
  pose proof (Run_allCards _ _ _ (proj1 Hcards) Hrun) as Hdeck1.
  pose proof (Run_melds_valid _ _ _ Hrun Hmelds) as Hmelds1.
  unfold ledger in Hledger.
  assert (frame g1 = frame g /\ TurnPlayerID g1 = TurnPlayerID g /\
          TurnOpponentPlayerID g1 = TurnOpponentPlayerID g /\
          Score (Player0 (Players g1)) = Score (Player0 (Players g)) /\
          Score (Player1 (Players g1)) = Score (Player1 (Players g)) /\
          IsGameEnded g1 = IsGameEnded g /\ WinnerPlayerID g1 = WinnerPlayerID g)
    as (Hframe1 & Hturn1 & Hopp1 & Hs0 & Hs1 & Hended1 & Hwinner1).
  { remember (frame g1) as f1. remember (frame g) as f.
    injection Hledger as -> _ -> -> -> -> -> ->. done. }
  rewrite Hended in Hended1.
  destruct (afterRun_round_open _ _ _ _ Hround1 Hended1 Hafter) as [Htable _].
  destruct (afterRun_open_spec _ _ _ _ Hround1 Hended1 Hafter)
    as (Hframe' & Hturn' & Hscores' & Hstored').
  assert (frame g' = frame g) as Hframe by congruence.
  unfold frame in Hframe. injection Hframe as Hnumber Hlength Hknocked Hconfirmed Hmax.
  destruct Hfirst as (Hn & Hl & Hseated & Hk & Hc).
  split; [|split; [|split; [|split]]].
  - split; [congruence|]. split; [congruence|]. split; [|split; congruence].
    unfold seated in *. rewrite Hturn1, Hopp1 in Hturn'.
    destruct Hturn' as [[-> ->]|[-> ->]]; tauto.
  - rewrite <- Hdeck, <- Hdeck1. unfold allCards, unmelded, handOf, table in *.
    by injection Htable as -> -> -> -> -> -> _.
  - unfold meldsValid, table in *. by injection Htable as _ _ _ -> _ -> _.
  - exact Hstored'.
  - rewrite Hmax. intros Hpositive. destruct (Hscoreless Hpositive) as (H0 & H1 & _ & Hw).
    unfold scoreOf in H0, H1. rewrite getPlayer_0 in H0. rewrite getPlayer_1 in H1.
    assert (RuleMaxPoints g1 = RuleMaxPoints g) as Hmax1
        by (unfold frame in Hframe1; congruence).
    destruct Hscores' as (Hplayers' & Hended' & Hwinner'); [lia..|].
    unfold scoreless, scoreOf. rewrite getPlayer_0, getPlayer_1, Hplayers'.
    repeat split; congruence.
Qed.

Lemma reachable_playInv g : reachable g -> playInv g.
Proof.
  induction 1 as [e opts g He Hopts Hnew|e action g g' Hreach IH He Hrun].
  - by eapply New_playInv.
  - eapply RunAction_playInv; [|exact IH|exact Hrun]. by apply reachable_roundInv.
Qed.

Lemma seated_turn g : seated g -> TurnPlayerID g = 0 \/ TurnPlayerID g = 1.
Proof. unfold seated. tauto. Qed.

Lemma RunAction_open_accepts e action g :
  roundInv g -> firstRound g -> IsGameEnded g = false ->
  GetPlayerID action = TurnPlayerID g -> IsPossible action g = Ret true ->
  exists g', RunAction e (Some action) g = Ret (g', None).
Proof.
  intros (Hround & Hdiscarded & _) (Hn & Hl & Hseated & _) Hended Hplayer Hpossible.
  assert (GetPlayerID action = 0 \/ GetPlayerID action = 1) as Hseat.
  { rewrite Hplayer. by apply seated_turn. }
  destruct (Run_open_returns action g Hpossible Hround Hdiscarded Hseat) as [g1 Hrun].
  pose proof (Run_open_ledger _ _ _ Hround Hdiscarded Hrun) as [Hledger Hround1].
  unfold ledger in Hledger.
  assert (frame g1 = frame g /\ TurnPlayerID g1 = TurnPlayerID g /\
          TurnOpponentPlayerID g1 = TurnOpponentPlayerID g /\
          IsGameEnded g1 = IsGameEnded g)
    as (Hframe1 & Hturn1 & Hopp1 & Hended1).
  { remember (frame g1) as f1. remember (frame g) as f.
    injection Hledger as -> _ -> -> _ _ -> _. done. }
  unfold frame in Hframe1. injection Hframe1 as Hn1 Hl1 _ _ _.
  destruct (afterRun_open_returns e action g1) as [g' Hafter].
  - exact Hround1.
  - congruence.
  - unfold seated in *. by rewrite Hturn1, Hopp1.
  - rewrite Hn1, Hl1, Hn, Hl. lia.
  - exists g'. unfold RunAction. rewrite Hended, Hround. cbn [negb andb].
    rewrite bool_decide_eq_false_2 by tauto. res_unfold.
    rewrite Hpossible. cbn [negb]. rewrite Hrun. exact Hafter.
Qed.

(** X15. On a game started by [New], [RunAction] always returns, whatever
    the action and whoever sends it: no nil player is dereferenced, the log
    is never indexed out of range and the deck is never dealt from again. *)
Theorem RunAction_never_panics e action g :
  reachable g -> exists g' err, RunAction e action g = Ret (g', err).
Proof.
  intros Hreach.
  pose proof (reachable_roundInv g Hreach) as Hround.
  pose proof (reachable_playInv g Hreach) as (Hfirst & _).
  destruct action as [action|]; [|by exists g, None].
  destruct (IsGameEnded g) eqn:Hended.
  { unfold RunAction. rewrite Hended. eauto. }
  destruct (decide (GetPlayerID action = TurnPlayerID g)) as [Hplayer|Hplayer].
  - destruct (IsPossible_returns action g) as [[|] Hpossible].
    { rewrite Hplayer. apply seated_turn, Hfirst. }
    + destruct (RunAction_open_accepts e action g Hround Hfirst Hended Hplayer Hpossible)
        as [g' Hrun].
      eauto.
    + unfold RunAction. rewrite Hended. destruct Hround as (-> & _). cbn [negb andb].
      rewrite bool_decide_eq_false_2 by tauto. res_unfold. rewrite Hpossible. cbn. eauto.
  - unfold RunAction. rewrite Hended. destruct Hround as (-> & _). cbn [negb andb].
    rewrite bool_decide_eq_true_2 by done. eauto.
Qed.

Lemma RunAction_never_panics_witness :
  exists g g' err,
    playFromNew identityEnv [] openingActions = Ret g /\ reachable g /\
    RunAction identityEnv (Some (NewActionKnock 7)) g = Ret (g', err).
Proof.
  assert (exists g, playFromNew identityEnv [] openingActions = Ret g) as [g Hg]
      by (vm_compute; eexists; reflexivity).
  assert (shuffles identityEnv) as He by (intros cards; reflexivity).
  assert (reachable g) as Hreach
      by exact (playFromNew_reachable identityEnv [] openingActions g He (Forall_nil_2 _) Hg).
  destruct (RunAction_never_panics identityEnv (Some (NewActionKnock 7)) g Hreach)
    as (g' & err & Hrun).
  exists g, g', err. split; [exact Hg|]. split; [exact Hreach|]. exact Hrun.
Defined.

(** X16. Every action that [CalculatePossibleActions] lists for a game
    started by [New] that has not ended is accepted by [RunAction]: the call
    returns without an error. *)
Theorem possible_actions_are_accepted e action actions g :
  reachable g -> IsGameEnded g = false ->
  CalculatePossibleActions g = Ret actions -> action ∈ actions ->
  exists g', RunAction e (Some action) g = Ret (g', None).
Proof.
  intros Hreach Hended Hactions Hin.
  pose proof (reachable_roundInv g Hreach) as Hround.
  pose proof (reachable_playInv g Hreach) as (Hfirst & _).
  destruct (CalculatePossibleActions_spec g actions action Hactions Hin)
    as [Hpossible [Hplayer|[Hfinished _]]].
  - by apply RunAction_open_accepts.
  - destruct Hround as (Hopen & _). congruence.
Qed.

Lemma possible_actions_are_accepted_witness :
  let action := NewActionDrawFromDiscardPile 1 in
  exists g actions g',
    playFromNew identityEnv [] openingActions = Ret g /\ reachable g /\
    IsGameEnded g = false /\ CalculatePossibleActions g = Ret actions /\
    action ∈ actions /\ RunAction identityEnv (Some action) g = Ret (g', None).
Proof.
  intros action.
  assert (exists g, playFromNew identityEnv [] openingActions = Ret g /\
                    IsGameEnded g = false /\
                    exists actions, CalculatePossibleActions g = Ret actions /\
                                    action ∈ actions)
    as (g & Hg & Hended & actions & Hactions & Hin)
    by (eexists; split; [vm_compute; reflexivity|]; split; [reflexivity|];
        eexists; split; [lazy; reflexivity | repeat constructor]).
  assert (shuffles identityEnv) as He by (intros cards; reflexivity).
  assert (reachable g) as Hreach
      by exact (playFromNew_reachable identityEnv [] openingActions g He (Forall_nil_2 _) Hg).
  destruct (possible_actions_are_accepted identityEnv action actions g
              Hreach Hended Hactions Hin) as [g' Hrun].
  exists g, actions, g'. split; [exact Hg|]. split; [exact Hreach|].
  split; [exact Hended|]. split; [exact Hactions|]. split; [exact Hin|]. exact Hrun.
Defined.

(** X17. The list [PossibleActions] stored in a game started by [New] is
    always up to date: it is the serialization of what
    [CalculatePossibleActions] answers on that very state, and every action
    in it is possible and belongs to the player to move. *)
Theorem stored_possible_actions g :
  reachable g ->
  exists actions,
    CalculatePossibleActions g = Ret actions /\
    PossibleActions g = _serializeActions actions /\
    Forall (fun action =>
              GetPlayerID action = TurnPlayerID g /\ IsPossible action g = Ret true)
           actions.
Proof.
  intros Hreach.
  pose proof (reachable_roundInv g Hreach) as (Hopen & _).
  pose proof (reachable_playInv g Hreach) as (_ & _ & _ & (actions & Hactions & Hstored) & _).
  exists actions. split; [done|]. split; [done|].
  apply Forall_forall. intros action Hin.
  destruct (CalculatePossibleActions_spec g actions action Hactions Hin)
    as [Hpossible [Hplayer|[Hfinished _]]]; [done|congruence].
Qed.

Lemma stored_possible_actions_witness :
  exists g actions,
    playFromNew identityEnv [] openingActions = Ret g /\ reachable g /\
    CalculatePossibleActions g = Ret actions /\
    PossibleActions g = _serializeActions actions.
Proof.
  assert (exists g, playFromNew identityEnv [] openingActions = Ret g) as [g Hg]
      by (vm_compute; eexists; reflexivity).
  assert (shuffles identityEnv) as He by (intros cards; reflexivity).
  assert (reachable g) as Hreach
      by exact (playFromNew_reachable identityEnv [] openingActions g He (Forall_nil_2 _) Hg).
  destruct (stored_possible_actions g Hreach) as (actions & Hactions & Hstored & _).
  exists g, actions. split; [exact Hg|]. split; [exact Hreach|].
  split; [exact Hactions|]. exact Hstored.
Defined.

(** X13. In a game started by [New] the cards of the two piles, of the two
    hands and of all melds are at every moment exactly the 40 cards of the
    deck, each of them in one place. *)
Theorem all_cards_are_the_deck g : reachable g -> allCards g ≡ₚ newDeck.
Proof. intros Hreach. apply (reachable_playInv g Hreach). Qed.

Lemma all_cards_are_the_deck_witness :
  exists g, playFromNew identityEnv [] openingActions = Ret g /\
            reachable g /\ allCards g ≡ₚ newDeck.
Proof.
  assert (exists g, playFromNew identityEnv [] openingActions = Ret g) as [g Hg]
      by (vm_compute; eexists; reflexivity).
  assert (shuffles identityEnv) as He by (intros cards; reflexivity).
  assert (reachable g) as Hreach
      by exact (playFromNew_reachable identityEnv [] openingActions g He (Forall_nil_2 _) Hg).
  exists g. split; [exact Hg|]. split; [exact Hreach|].
  exact (all_cards_are_the_deck g Hreach).
Defined.

(** X18. Every meld that lies on the table in a game started by [New]
    passes [Meld.IsValid]. *)
Theorem melds_on_table_are_valid g :
  reachable g ->
  forall p m, p = Player0 (Players g) \/ p = Player1 (Players g) ->
              m ∈ Melds p -> Meld_IsValid m = true.
Proof.
  intros Hreach p m Hp Hm.
  pose proof (reachable_playInv g Hreach) as (_ & _ & [Hvalid0 Hvalid1] & _).
  rewrite Forall_forall in Hvalid0, Hvalid1.
  destruct Hp as [-> | ->]; auto.
Qed.

Lemma melds_on_table_are_valid_witness :
  let m := mkMeld MeldTypeRun [copa 1; copa 2; copa 3] in
  exists g,
    playFromNew identityEnv [] openingActions = Ret g /\ reachable g /\
    m ∈ Melds (Player0 (Players g)) /\ Meld_IsValid m = true.
Proof.
  intros m.
  assert (exists g, playFromNew identityEnv [] openingActions = Ret g /\
                    m ∈ Melds (Player0 (Players g)))
    as (g & Hg & Hin)
    by (eexists; split; [vm_compute; reflexivity | constructor]).
  assert (shuffles identityEnv) as He by (intros cards; reflexivity).
  assert (reachable g) as Hreach
      by exact (playFromNew_reachable identityEnv [] openingActions g He (Forall_nil_2 _) Hg).
  exists g. split; [exact Hg|]. split; [exact Hreach|]. split; [exact Hin|].
  exact (melds_on_table_are_valid g Hreach (Player0 (Players g)) m
           (or_introl eq_refl) Hin).
Defined.

(** X14. No round of a game started by [New] ever finishes: a discard hands
    the turn over and lowers the flags that a knock needs, so no knock is
    possible and [RunAction] accepts none; the game stays in round 1, and
    with a positive target nobody ever scores and the game never ends. *)
Theorem round_never_finishes g :
  reachable g ->
  IsRoundFinished g = false /\ RoundNumber g = 1 /\ KnockedPlayerID g = -1 /\
  (forall a, IsPossible (ActionKnock a) g = Ret false) /\
  (forall e a g', RunAction e (Some (ActionKnock a)) g <> Ret (g', None)) /\
  (0 < RuleMaxPoints g ->
   scoreOf 0 g = 0 /\ scoreOf 1 g = 0 /\ IsGameEnded g = false /\ WinnerPlayerID g = -1).
Proof.
  intros Hreach.
  pose proof (reachable_roundInv g Hreach) as (Hopen & Hdiscarded & _).
  pose proof (reachable_playInv g Hreach) as ((Hn & _ & _ & Hk & _) & _ & _ & _ & Hscoreless).
  assert (forall a, IsPossible (ActionKnock a) g = Ret false) as Hknock.
  { intros a. cbn [IsPossible]. unfold Knock_IsPossible.
    by rewrite Hdiscarded, orb_true_r. }
  split; [done|]. split; [done|]. split; [done|]. split; [done|]. split; [|done].
  intros e a g' Hrun. apply RunAction_success in Hrun as (_ & Hpossible & _).
  rewrite Hknock in Hpossible. discriminate.
Qed.

Lemma round_never_finishes_witness :
  exists g,
    playFromNew identityEnv [] openingActions = Ret g /\ reachable g /\
    IsRoundFinished g = false /\ RoundNumber g = 1 /\
    IsPossible (ActionKnock (mkAct KNOCK 0)) g = Ret false.
Proof.
  assert (exists g, playFromNew identityEnv [] openingActions = Ret g) as [g Hg]
      by (vm_compute; eexists; reflexivity).
  assert (shuffles identityEnv) as He by (intros cards; reflexivity).
  assert (reachable g) as Hreach
      by exact (playFromNew_reachable identityEnv [] openingActions g He (Forall_nil_2 _) Hg).
  destruct (round_never_finishes g Hreach) as (Hopen & Hround & _ & Hknock & _).
  exists g. split; [exact Hg|]. split; [exact Hreach|]. split; [exact Hopen|].
  split; [exact Hround|]. exact (Hknock (mkAct KNOCK 0)).
Defined.

(** ** What the accepted actions do *)

Lemma afterRun_open_turn e action g g' :
  IsRoundFinished g = false -> IsGameEnded g = false ->
  afterRun e action g = Ret (g', None) ->
  exists g3 actions count,
    table g3 = table g /\
    turnOf g3 =
      (if YieldsTurn action g
       then (TurnOpponentPlayerID g, TurnPlayerID g, false, false)
       else turnOf g) /\
    CalculatePossibleActions g3 = Ret actions /\
    countActionsOfTurnPlayer g3 = Ret count /\
    table g' = table g /\
    turnOf g' = (if bool_decide (count = 0%nat) then turnOf (changeTurn g3) else turnOf g3).
Proof.
  intros Hround Hended. unfold afterRun. res_unfold.
  set (logged := if bool_decide (GetName action ≠ CONFIRM_ROUND_FINISHED)
                 then appendActionLog action g else Ret g).
  assert (forall g1, logged = Ret g1 ->
            table g1 = table g /\ turnOf g1 = turnOf g /\
            IsGameEnded g1 = IsGameEnded g) as Hlogged.
  { unfold logged. intros g1. case_bool_decide.
    - intros H1. pose proof (appendActionLog_table _ _ _ H1) as (? & ? & ? & _).
      apply appendActionLog_ledger in H1 as (_ & ? & ? & ? & _).
      unfold turnOf. repeat split; congruence.
    - by intros [= <-]. }
  destruct logged as [g1|]; [|discriminate].
  destruct (Hlogged g1 eq_refl) as (Htable & Hturn & Hended1).
  assert (IsRoundFinished g1 = false) as Hround1.
  { unfold table in Htable. congruence. }
  rewrite Hround1, Hended1, Hended. simpl.
  set (g2 := if YieldsTurn action g1 then _ else g1).
  assert (table g2 = table g /\
          turnOf g2 = (if YieldsTurn action g
                       then (TurnOpponentPlayerID g, TurnPlayerID g, false, false)
                       else turnOf g))
    as [Htable2 Hturn2].
  { unfold g2. assert (YieldsTurn action g1 = YieldsTurn action g) as -> by (by destruct action).
    destruct (YieldsTurn action g); [|done]. split; [by rewrite <- Htable|].
    unfold turnOf in *. cbn. congruence. }
  clearbody g2.
  assert (IsRoundFinished g2 = false) as Hround2.
  { unfold table in Htable2. congruence. }
  rewrite Hround2, andb_false_r. simpl.
  destruct (handleEndOfGame_table e g2) as [Htable3 _].
  pose proof (handleEndOfGame_turnState e g2) as Hstate3.
  generalize dependent (foldl endGameIfReached g2 (rangePlayers e)). intros g3 Htable3 Hstate3.
  assert (turnOf g3 = turnOf g2) as Hturn3.
  { unfold turnState in Hstate3. unfold turnOf. congruence. }
  destruct (CalculatePossibleActions g3) as [actions|] eqn:Hactions; [|discriminate].
  destruct (countActionsOfTurnPlayer g3) as [count|] eqn:Hcount; [|discriminate].
  intros Hrest. exists g3, actions, count.
  split; [congruence|]. split; [congruence|]. split; [done|]. split; [done|].
  revert Hrest. case_bool_decide.
  - destruct (CalculatePossibleActions (changeTurn g3)); [|discriminate].
    intros [= <-]. split; [|done]. rewrite <- Htable2, <- Htable3. done.
  - intros [= <-]. split; [|done]. rewrite <- Htable2, <- Htable3. done.
Qed.

Lemma count_positive g actions action count :
  CalculatePossibleActions g = Ret actions ->
  countActionsOfTurnPlayer g = Ret count ->
  action ∈ actions -> GetPlayerID action = TurnPlayerID g -> count ≠ 0%nat.
Proof.
  unfold countActionsOfTurnPlayer. intros ->. cbn. intros [= <-] Hin Hplayer Hzero.
  apply length_zero_iff_nil in Hzero.
  assert (action ∈ filter (fun a => GetPlayerID a = TurnPlayerID g) actions) as Hfiltered
      by (by apply list_elem_of_filter).
  rewrite Hzero in Hfiltered. by apply elem_of_nil in Hfiltered.
Qed.

Lemma elem_of_CalculatePossibleActions g candidates actions action :
  candidateActions g = Ret candidates -> CalculatePossibleActions g = Ret actions ->
  action ∈ candidates -> IsPossible action g = Ret true -> action ∈ actions.
Proof.
  unfold CalculatePossibleActions. intros ->. cbn. intros Hkeep Hin Hpossible.
  by apply (keepPossible_spec _ _ _ Hkeep).
Qed.

(** After a turn has passed in an open round, the player now to move can
    draw as long as one of the piles holds a card. *)
Lemma next_player_can_draw g actions count :
  IsRoundFinished g = false -> HasDrawnThisTurn g = false ->
  IsEmpty (DrawPile g) = false \/ IsEmpty (DiscardPile g) = false ->
  CalculatePossibleActions g = Ret actions ->
  countActionsOfTurnPlayer g = Ret count -> count ≠ 0%nat.
Proof.
  intros Hopen Hdrawn Hpiles Hactions Hcount.
  assert (candidateActions g =
          Ret [NewActionDrawFromDrawPile (TurnPlayerID g);
               NewActionDrawFromDiscardPile (TurnPlayerID g)]) as Hcandidates.
  { unfold candidateActions. by rewrite Hopen, Hdrawn. }
  destruct Hpiles as [Hpile|Hpile].
  - apply (count_positive g actions (NewActionDrawFromDrawPile (TurnPlayerID g)) count);
      [done|done| |done].
    eapply elem_of_CalculatePossibleActions; [done|done|left|].
    cbn. unfold DrawFromDrawPile_IsPossible. cbn.
    by rewrite Hopen, Hdrawn, Hpile, bool_decide_eq_true_2.
  - apply (count_positive g actions (NewActionDrawFromDiscardPile (TurnPlayerID g)) count);
      [done|done| |done].
    eapply elem_of_CalculatePossibleActions; [done|done|right; left|].
    cbn. unfold DrawFromDiscardPile_IsPossible. cbn.
    by rewrite Hopen, Hdrawn, Hpile, bool_decide_eq_true_2.
Qed.

(** X19. A discard that [RunAction] accepts: the card was in the hand of
    the player, every copy of it leaves the hand and the card becomes the
    top of the discard pile; the melds and the draw pile stay; the turn
    passes to the opponent with both turn flags down. *)
Theorem RunAction_discard e a card g g' :
  RunAction e (Some (ActionDiscardCard a card)) g = Ret (g', None) ->
  exists p p',
    getPlayer g (PlayerID a) = Some p /\ getPlayer g' (PlayerID a) = Some p' /\
    card ∈ handOf p /\ handOf p' = filter (fun c => c ≠ card) (handOf p) /\
    (card ∉ handOf p') /\ Melds p' = Melds p /\
    DiscardPile g' = AddCard (DiscardPile g) card /\
    TopCard (DiscardPile g') = (card, None) /\
    DrawPile g' = DrawPile g /\
    TurnPlayerID g' = TurnOpponentPlayerID g /\
    TurnOpponentPlayerID g' = TurnPlayerID g /\
    HasDrawnThisTurn g' = false /\ HasDiscardedThisTurn g' = false.
Proof.
  intros Hrun.
  apply RunAction_success in Hrun as (Hended & Hpossible & g1 & Hrun & Hafter).
  cbn [IsPossible Run] in Hpossible, Hrun.
  unfold DiscardCard_Run in Hrun. rewrite Hpossible in Hrun. cbn in Hrun.
  unfold DiscardCard_IsPossible in Hpossible.
  destruct (_ || _) eqn:Hguard; [discriminate|].
  apply orb_false_iff in Hguard as [Hguard Hopen].
  apply orb_false_iff in Hguard as [Hguard Hdiscarded].
  apply orb_false_iff in Hguard as [Hturn Hdrawn].
  apply bool_decide_eq_false in Hturn. apply dec_stable in Hturn.
  destruct (getPlayer g (PlayerID a)) as [p|] eqn:Hp; [|discriminate].
  cbn in Hpossible, Hrun. injection Hpossible as Hin. apply bool_decide_eq_true in Hin.
  injection Hrun as <-.
  set (g1 := set_HasDiscardedThisTurn true _) in Hafter.
  assert (IsRoundFinished g1 = false /\ IsGameEnded g1 = false /\
          TurnPlayerID g1 = TurnPlayerID g /\
          TurnOpponentPlayerID g1 = TurnOpponentPlayerID g /\
          DrawPile g1 = DrawPile g /\ DiscardPile g1 = AddCard (DiscardPile g) card)
    as (Hopen1 & Hended1 & Ht1 & Ho1 & Hdraw1 & Hdisc1).
  { unfold g1. revert Hp. player_cases a; done. }
  assert (exists p1, getPlayer g1 (PlayerID a) = Some p1 /\
                     handOf p1 = filter (fun c => c ≠ card) (handOf p) /\
                     Melds p1 = Melds p) as (p1 & Hp1 & Hhand1 & Hmelds1).
  { unfold handOf, g1. revert Hp.
    player_cases a; try done; intros [= <-]; eexists; (split; [reflexivity|]); done. }
  clearbody g1.
  destruct (afterRun_open_turn _ _ _ _ Hopen1 Hended1 Hafter)
    as (g3 & actions & count & Htable3 & Hturn3 & Hactions & Hcount & Htable' & Hturn').
  cbn [YieldsTurn] in Hturn3.
  unfold table in Htable3, Htable'.
  injection Htable3 as Hdraw3 Hdisc3 _ _ _ _ Hopen3.
  injection Htable' as Hdraw Hdisc Hh0 Hm0 Hh1 Hm1 _.
  unfold turnOf in Hturn3. injection Hturn3 as Ht3 Ho3 Hdrawn3 Hdiscarded3.
  assert (count ≠ 0%nat) as Hpositive.
  { apply (next_player_can_draw g3 actions count); try done; [congruence|].
    right. rewrite Hdisc3, Hdisc1. apply bool_decide_eq_false.
    cbn. rewrite length_app. simpl. lia. }
  rewrite bool_decide_eq_false_2 in Hturn' by done.
  unfold turnOf in Hturn'. injection Hturn' as Ht Ho Hd1 Hd2.
  assert (exists p', getPlayer g' (PlayerID a) = Some p' /\
                     Player_Hand p' = Player_Hand p1 /\ Melds p' = Melds p1)
    as (p' & Hp' & Hhand' & Hmelds').
  { revert Hp1. unfold getPlayer. repeat case_decide; try done; intros [= <-]; eauto. }
  exists p, p'. split; [done|]. split; [done|]. split; [done|].
  assert (handOf p' = filter (fun c => c ≠ card) (handOf p)) as Hfilter.
  { unfold handOf in *. congruence. }
  split; [done|]. split.
  { rewrite Hfilter. intros Hc. apply list_elem_of_filter in Hc as [Hc _]. done. }
  split; [congruence|]. split; [congruence|]. split.
  { rewrite Hdisc, Hdisc1. unfold TopCard, AddCard. cbn. by rewrite last_snoc. }
  split; [congruence|]. split; [congruence|]. split; [congruence|]. split; congruence.
Qed.

Lemma RunAction_discard_witness :
  exists g g',
    playFromNew identityEnv [] firstDraw = Ret g /\
    RunAction identityEnv (Some (NewActionDiscardCard (oro 12) 1)) g = Ret (g', None) /\
    TopCard (DiscardPile g') = (oro 12, None) /\
    TurnPlayerID g' = TurnOpponentPlayerID g.
Proof.
  assert (exists g g',
            playFromNew identityEnv [] firstDraw = Ret g /\
            RunAction identityEnv (Some (NewActionDiscardCard (oro 12) 1)) g = Ret (g', None))
    as (g & g' & Hg & Hrun)
    by (eexists _, _; split; [vm_compute; reflexivity | lazy; reflexivity]).
  destruct (RunAction_discard identityEnv (mkAct DISCARD_CARD 1) (oro 12) g g' Hrun)
    as (p & p' & _ & _ & _ & _ & _ & _ & _ & Htop & _ & Hturn & _).
  exists g, g'. split; [exact Hg|]. split; [exact Hrun|]. split; [exact Htop|].
  exact Hturn.
Defined.

Lemma getPlayer_table g g' playerID p :
  table g' = table g -> getPlayer g playerID = Some p ->
  exists p', getPlayer g' playerID = Some p' /\
             Player_Hand p' = Player_Hand p /\ Melds p' = Melds p.
Proof.
  unfold table, getPlayer. intros [= _ _ Hh0 Hm0 Hh1 Hm1 _].
  repeat case_decide; try done; intros [= <-]; eauto.
Qed.

Lemma player_can_discard g actions count p card :
  IsRoundFinished g = false -> HasDrawnThisTurn g = true ->
  HasDiscardedThisTurn g = false ->
  getPlayer g (TurnPlayerID g) = Some p -> card ∈ handOf p ->
  CalculatePossibleActions g = Ret actions ->
  countActionsOfTurnPlayer g = Ret count -> count ≠ 0%nat.
Proof.
  intros Hopen Hdrawn Hdiscarded Hp Hin Hactions Hcount.
  assert (candidateActions g =
          Ret (map (fun card => NewActionDiscardCard card (TurnPlayerID g)) (handOf p)))
    as Hcandidates.
  { unfold candidateActions. rewrite Hopen, Hdrawn, Hdiscarded, Hp. done. }
  apply (count_positive g actions (NewActionDiscardCard card (TurnPlayerID g)) count);
    [done|done| |done].
  eapply elem_of_CalculatePossibleActions; [done|done| |].
  - change (map ?f ?l) with (f <$> l). apply list_elem_of_fmap. by exists card.
  - cbn. unfold DiscardCard_IsPossible. cbn.
    rewrite Hopen, Hdrawn, Hdiscarded, bool_decide_eq_false_2 by tauto. cbn.
    rewrite Hp. cbn. by rewrite bool_decide_eq_true_2.
Qed.

Lemma afterRun_after_draw e action g1 g' p1 card :
  YieldsTurn action g1 = false ->
  IsRoundFinished g1 = false -> IsGameEnded g1 = false ->
  HasDrawnThisTurn g1 = true -> HasDiscardedThisTurn g1 = false ->
  getPlayer g1 (TurnPlayerID g1) = Some p1 -> card ∈ handOf p1 ->
  afterRun e action g1 = Ret (g', None) ->
  table g' = table g1 /\ turnOf g' = turnOf g1.
Proof.
  intros Hyield Hopen Hended Hdrawn Hdiscarded Hp Hin Hafter.
  destruct (afterRun_open_turn _ _ _ _ Hopen Hended Hafter)
    as (g3 & actions & count & Htable3 & Hturn3 & Hactions & Hcount & Htable' & Hturn').
  rewrite Hyield in Hturn3. split; [done|].
  assert (count ≠ 0%nat) as Hpositive.
  { unfold turnOf in Hturn3. injection Hturn3 as Ht3 Ho3 Hdrawn3 Hdiscarded3.
    rewrite <- Ht3 in Hp.
    destruct (getPlayer_table _ _ _ _ Htable3 Hp) as (p3 & Hp3 & Hhand3 & _).
    apply (player_can_discard g3 actions count p3 card); try done; try congruence.
    - unfold table in Htable3. congruence.
    - unfold handOf in *. congruence. }
  rewrite bool_decide_eq_false_2 in Hturn' by done. congruence.
Qed.

(** X20. A draw that [RunAction] accepts in a turn without a discard, from
    the draw pile or from the discard pile: the top card of that pile goes
    to the end of the hand of the player, the other pile and the melds stay,
    and the player keeps the turn, now with the drawn flag up. *)
Theorem RunAction_draw e a g g' :
  HasDiscardedThisTurn g = false ->
  (RunAction e (Some (ActionDrawFromDrawPile a)) g = Ret (g', None) ->
   exists pile card p p',
     DrawCard (DrawPile g) = (pile, card, None) /\
     DrawPile g' = pile /\ DiscardPile g' = DiscardPile g /\
     getPlayer g (PlayerID a) = Some p /\ getPlayer g' (PlayerID a) = Some p' /\
     handOf p' = handOf p ++ [card] /\ Melds p' = Melds p /\
     TurnPlayerID g' = PlayerID a /\
     TurnOpponentPlayerID g' = TurnOpponentPlayerID g /\
     HasDrawnThisTurn g' = true /\ HasDiscardedThisTurn g' = false) /\
  (RunAction e (Some (ActionDrawFromDiscardPile a)) g = Ret (g', None) ->
   exists pile card p p',
     DrawCard (DiscardPile g) = (pile, card, None) /\
     DiscardPile g' = pile /\ DrawPile g' = DrawPile g /\
     getPlayer g (PlayerID a) = Some p /\ getPlayer g' (PlayerID a) = Some p' /\
     handOf p' = handOf p ++ [card] /\ Melds p' = Melds p /\
     TurnPlayerID g' = PlayerID a /\
     TurnOpponentPlayerID g' = TurnOpponentPlayerID g /\
     HasDrawnThisTurn g' = true /\ HasDiscardedThisTurn g' = false).
Proof.
  intros Hdiscarded. split; intros Hrun;
    apply RunAction_success in Hrun as (Hended & Hpossible & g1 & Hrun & Hafter);
    cbn [IsPossible Run] in Hpossible, Hrun; injection Hpossible as Hpossible.
  - unfold DrawFromDrawPile_Run in Hrun. rewrite Hpossible in Hrun. cbn [negb] in Hrun.
    unfold DrawFromDrawPile_IsPossible in Hpossible.
    apply andb_true_iff in Hpossible as [Hpossible Hopen].
    apply andb_true_iff in Hpossible as [Hpossible Hpile].
    apply andb_true_iff in Hpossible as [Hturn Hdrawn].
    apply bool_decide_eq_true in Hturn. apply negb_true_iff in Hopen.
    destruct (DrawCard (DrawPile g)) as [[pile card] [err|]] eqn:Hdraw.
    { apply DrawCard_error in Hdraw. apply negb_true_iff, bool_decide_eq_false in Hpile.
      rewrite Hdraw in Hpile. done. }
    unfold appendToHand in Hrun. res_unfold.
    destruct (getPlayer (set_DrawPile pile g) (PlayerID a)) as [p|] eqn:Hp; [|discriminate].
    injection Hrun as <-.
    set (g1 := set_HasDrawnThisTurn true _) in Hafter.
    assert (getPlayer g (PlayerID a) = Some p) as Hp0 by exact Hp.
    assert (IsRoundFinished g1 = false /\ IsGameEnded g1 = false /\
            TurnPlayerID g1 = PlayerID a /\
            TurnOpponentPlayerID g1 = TurnOpponentPlayerID g /\
            HasDrawnThisTurn g1 = true /\ HasDiscardedThisTurn g1 = false /\
            DrawPile g1 = pile /\ DiscardPile g1 = DiscardPile g)
      as (Hopen1 & Hended1 & Ht1 & Ho1 & Hdrawn1 & Hdiscarded1 & Hdraw1 & Hdisc1).
    { unfold g1. clear Hafter. player_cases a; done. }
    assert (exists p1, getPlayer g1 (PlayerID a) = Some p1 /\
                       handOf p1 = handOf p ++ [card] /\ Melds p1 = Melds p)
      as (p1 & Hp1 & Hhand1 & Hmelds1).
    { unfold handOf, g1. clear Hafter.
      player_cases a; try done; eexists; (split; [reflexivity|]); done. }
    clearbody g1.
    destruct (afterRun_after_draw e (ActionDrawFromDrawPile a) g1 g' p1 card eq_refl
                Hopen1 Hended1 Hdrawn1 Hdiscarded1) as [Htable' Hturn']; try done.
    { by rewrite Ht1. }
    { rewrite Hhand1. apply elem_of_app. right. left. }
    destruct (getPlayer_table _ _ _ _ Htable' Hp1) as (p' & Hp' & Hhand' & Hmelds').
    unfold table in Htable'. injection Htable' as Hdraw' Hdisc' _ _ _ _ _.
    unfold turnOf in Hturn'. injection Hturn' as Ht Ho Hd1 Hd2.
    exists pile, card, p, p'. unfold handOf in *.
    repeat split; congruence.
  - unfold DrawFromDiscardPile_Run in Hrun. rewrite Hpossible in Hrun. cbn [negb] in Hrun.
    unfold DrawFromDiscardPile_IsPossible in Hpossible.
    apply andb_true_iff in Hpossible as [Hpossible Hopen].
    apply andb_true_iff in Hpossible as [Hpossible Hpile].
    apply andb_true_iff in Hpossible as [Hturn Hdrawn].
    apply bool_decide_eq_true in Hturn. apply negb_true_iff in Hopen.
    destruct (DrawCard (DiscardPile g)) as [[pile card] [err|]] eqn:Hdraw.
    { apply DrawCard_error in Hdraw. apply negb_true_iff, bool_decide_eq_false in Hpile.
      rewrite Hdraw in Hpile. done. }
    unfold appendToHand in Hrun. res_unfold.
    destruct (getPlayer (set_DiscardPile pile g) (PlayerID a)) as [p|] eqn:Hp;
      [|discriminate].
    injection Hrun as <-.
    set (g1 := set_HasDrawnThisTurn true _) in Hafter.
    assert (getPlayer g (PlayerID a) = Some p) as Hp0 by exact Hp.
    assert (IsRoundFinished g1 = false /\ IsGameEnded g1 = false /\
            TurnPlayerID g1 = PlayerID a /\
            TurnOpponentPlayerID g1 = TurnOpponentPlayerID g /\
            HasDrawnThisTurn g1 = true /\ HasDiscardedThisTurn g1 = false /\
            DiscardPile g1 = pile /\ DrawPile g1 = DrawPile g)
      as (Hopen1 & Hended1 & Ht1 & Ho1 & Hdrawn1 & Hdiscarded1 & Hdraw1 & Hdisc1).
    { unfold g1. clear Hafter. player_cases a; done. }
    assert (exists p1, getPlayer g1 (PlayerID a) = Some p1 /\
                       handOf p1 = handOf p ++ [card] /\ Melds p1 = Melds p)
      as (p1 & Hp1 & Hhand1 & Hmelds1).
    { unfold handOf, g1. clear Hafter.
      player_cases a; try done; eexists; (split; [reflexivity|]); done. }
    clearbody g1.
    destruct (afterRun_after_draw e (ActionDrawFromDiscardPile a) g1 g' p1 card eq_refl
                Hopen1 Hended1 Hdrawn1 Hdiscarded1) as [Htable' Hturn']; try done.
    { by rewrite Ht1. }
    { rewrite Hhand1. apply elem_of_app. right. left. }
    destruct (getPlayer_table _ _ _ _ Htable' Hp1) as (p' & Hp' & Hhand' & Hmelds').
    unfold table in Htable'. injection Htable' as Hdraw' Hdisc' _ _ _ _ _.
    unfold turnOf in Hturn'. injection Hturn' as Ht Ho Hd1 Hd2.
    exists pile, card, p, p'. unfold handOf in *.
    repeat split; congruence.
Qed.

Lemma RunAction_draw_witness :
  exists g g',
    New identityEnv [] = Ret g /\ HasDiscardedThisTurn g = false /\
    RunAction identityEnv (Some (NewActionDrawFromDrawPile 1)) g = Ret (g', None) /\
    TurnPlayerID g' = 1 /\ HasDrawnThisTurn g' = true.
Proof.
  assert (exists g g',
            New identityEnv [] = Ret g /\ HasDiscardedThisTurn g = false /\
            RunAction identityEnv (Some (NewActionDrawFromDrawPile 1)) g = Ret (g', None))
    as (g & g' & Hg & Hdiscarded & Hrun)
    by (eexists _, _; split; [vm_compute; reflexivity|];
        split; [reflexivity | lazy; reflexivity]).
  destruct (proj1 (RunAction_draw identityEnv (mkAct DRAW_FROM_DRAW_PILE 1) g g' Hdiscarded)
              Hrun)
    as (pile & card & p & p' & _ & _ & _ & _ & _ & _ & _ & Hturn & _ & Hdrawn & _).
  exists g, g'. split; [exact Hg|]. split; [exact Hdiscarded|]. split; [exact Hrun|].
  split; [exact Hturn|]. exact Hdrawn.
Defined.

(** ** What a decoded action looks like *)

Lemma unmarshalField_inv {A} (P : A -> Prop) (dec : json -> A -> option A) field members :
  (forall v old x, P old -> dec v old = Some x -> P x) ->
  forall zero x, P zero -> unmarshalField dec field members zero = Some x -> P x.
Proof.
  intros Hdec. unfold unmarshalField.
  assert (forall acc x,
            (forall a, acc = Some a -> P a) ->
            foldl (fun acc kv =>
                     match acc with
                     | Some a => if namesField field kv.1 then dec kv.2 a else Some a
                     | None => None
                     end) acc members = Some x -> P x) as Hfold.
  { induction members as [|kv members IH]; intros acc x Hacc; cbn [foldl].
    - intros ->. by apply Hacc.
    - apply IH. destruct acc as [a|]; [|done].
      destruct (namesField field kv.1); [|done].
      intros b Hb. eapply Hdec; [|exact Hb]. by apply Hacc. }
  intros zero x Hzero. apply Hfold. by intros a [= <-].
Qed.

Lemma unmarshalInt_is_int v old x :
  is_int old -> unmarshalInt v old = Some x -> is_int x.
Proof.
  intros Hold. destruct v; cbn; try discriminate.
  - by intros [= <-].
  - repeat case_bool_decide; cbn; try discriminate. intros [= <-]. done.
Qed.

Lemma unmarshalString_valid v old x :
  validUTF8 old -> unmarshalString v old = Some x -> validUTF8 x.
Proof.
  intros Hold. destruct v; cbn -[toValidUTF8]; try discriminate.
  - by intros [= <-].
  - intros [= <-]. apply toValidUTF8_valid.
Qed.

Lemma wfCard_zero : wfCard (mkCard 0 "").
Proof. split; [unfold is_int; cbn; lia | reflexivity]. Qed.

Lemma unmarshalCard_wf v old x :
  wfCard old -> unmarshalCard v old = Some x -> wfCard x.
Proof.
  intros [Hn Hs]. destruct v; cbn -[unmarshalInt unmarshalString]; try discriminate.
  - by intros [= <-].
  - destruct (unmarshalField unmarshalInt "number" members (Number old)) as [n|] eqn:Hnumber;
      [|discriminate].
    destruct (unmarshalField unmarshalString "suit" members (Suit old)) as [s|] eqn:Hsuit;
      [|discriminate].
    intros [= <-]. split; cbn.
    + by apply (unmarshalField_inv is_int _ _ _ unmarshalInt_is_int _ _ Hn Hnumber).
    + by apply (unmarshalField_inv validUTF8 _ _ _ unmarshalString_valid _ _ Hs Hsuit).
Qed.

Lemma unmarshalCardItems_wf items : forall backing cards,
  Forall wfCard backing -> unmarshalCardItems items backing = Some cards ->
  Forall wfCard cards.
Proof.
  induction items as [|v items IH]; intros backing cards Hbacking;
    cbn [unmarshalCardItems].
  - intros [= <-]. constructor.
  - destruct (unmarshalCard v (hd (mkCard 0 "") backing)) as [c|] eqn:Hc; [|discriminate].
    destruct (unmarshalCardItems items (tl backing)) as [cs|] eqn:Hcs; [|discriminate].
    intros [= <-]. constructor.
    + eapply unmarshalCard_wf; [|exact Hc].
      destruct Hbacking; [apply wfCard_zero | done].
    + eapply IH; [|exact Hcs]. destruct Hbacking; [constructor | done].
Qed.

Lemma unmarshalCards_wf v old x :
  Forall wfCard (slice old ++ behind old) -> unmarshalCards v old = Some x ->
  Forall wfCard (slice x ++ behind x).
Proof.
  intros Hold. destruct v as [| | | | |items|]; cbn [unmarshalCards]; try discriminate.
  - intros [= <-]. constructor.
  - destruct items as [|v items]; [intros [= <-]; constructor|].
    destruct (unmarshalCardItems (v :: items) (slice old ++ behind old)) as [cards|] eqn:Hcards;
      [|discriminate].
    cbn [mbind option_bind]. intros [= <-]. cbn [slice behind].
    apply Forall_app. split.
    + by eapply unmarshalCardItems_wf.
    + by apply Forall_drop.
Qed.

Lemma is_int_0 : is_int 0.
Proof. unfold is_int. lia. Qed.

Lemma unmarshalAct_spec bs members name a :
  unmarshalActionName bs = Some name -> unmarshalMembers bs = Some members ->
  unmarshalAct members = Some a -> Name a = name /\ is_int (PlayerID a).
Proof.
  unfold unmarshalActionName, unmarshalAct. intros Hname Hmembers.
  rewrite Hmembers in Hname. cbn -[unmarshalString] in Hname. rewrite Hname.
  cbn -[unmarshalInt].
  destruct (unmarshalField unmarshalInt "playerID" members 0) as [playerID|] eqn:Hid;
    [|discriminate].
  intros [= <-]. split; [done|].
  by apply (unmarshalField_inv is_int _ _ _ unmarshalInt_is_int _ _ is_int_0 Hid).
Qed.

Lemma DeserializeAction_constructed bs action :
  DeserializeAction bs = Decoded action ->
  constructed action /\ Forall is_int (intsOf action) /\
  Forall validUTF8 (stringsOf action).
Proof.
  unfold DeserializeAction.
  destruct (unmarshalActionName bs) as [name|] eqn:Hname; [|discriminate].
  destruct (unmarshalInto name bs) as [[decoded|]|] eqn:Hinto; try discriminate.
  intros [= ->]. revert Hinto. unfold unmarshalInto.
  destruct (unmarshalMembers bs) as [members|] eqn:Hmembers;
    [|repeat case_decide; cbn; discriminate].
  cbn [mbind option_bind].
  destruct (unmarshalAct members) as [[name' playerID]|] eqn:Hact;
    [|repeat case_decide; cbn; discriminate].
  destruct (unmarshalAct_spec _ _ _ _ Hname Hmembers Hact) as [Hname' Hid].
  cbn in Hname', Hid. subst name'. cbn [mbind option_bind].
  repeat case_decide; try discriminate; subst name.
  - intros [= <-]. split; [apply constructed_draw|].
    split; [constructor; [done|constructor] | constructor].
  - intros [= <-]. split; [apply constructed_draw_discard|].
    split; [constructor; [done|constructor] | constructor].
  - destruct (unmarshalField unmarshalCard "card" members (mkCard 0 "")) as [card|] eqn:Hcard;
      [|discriminate].
    intros [= <-]. split; [apply constructed_discard|].
    destruct (unmarshalField_inv wfCard _ _ _ unmarshalCard_wf _ _ wfCard_zero Hcard)
      as [Hn Hs].
    split; [constructor; [done|]|]; (constructor; [done|constructor]).
  - destruct (unmarshalField unmarshalCards "cards" members (mkCardSlice [] []))
      as [cards|] eqn:Hcards; [|discriminate].
    cbn [mbind option_bind].
    destruct (unmarshalField unmarshalString "meldType" members "") as [meldType|] eqn:Hm;
      [|discriminate].
    intros [= <-]. split; [apply constructed_meld|].
    assert (Forall wfCard (slice cards)) as Hwf.
    { pose proof (unmarshalField_inv (fun cs => Forall wfCard (slice cs ++ behind cs)) _ _ _
                    unmarshalCards_wf (mkCardSlice [] []) cards (Forall_nil_2 _) Hcards)
        as Hall.
      by apply Forall_app in Hall as [Hall _]. }
    assert (validUTF8 meldType) as Hvalid.
    { by apply (unmarshalField_inv validUTF8 _ _ _ unmarshalString_valid "" meldType
                  (eq_refl : validUTF8 "") Hm). }
    cbn [intsOf stringsOf]. split; (constructor; [done|]);
      rewrite List.Forall_map; eapply Forall_impl; [exact Hwf| |exact Hwf|];
      by intros c [? ?].
  - intros [= <-]. split; [apply constructed_knock|].
    split; [constructor; [done|constructor] | constructor].
  - intros [= <-]. split; [apply constructed_confirm|].
    split; [constructor; [done|constructor] | constructor].
Qed.

(** X23. Whatever [DeserializeAction] accepts is an action that one of the
    six constructors builds: its name is one of the six known names and is
    the one of its type, each of its numbers is a Go [int] and each of its
    strings valid UTF-8; serializing it and deserializing it again gives
    the same action back. *)
Theorem decoded_action_is_constructed bs action :
  DeserializeAction bs = Decoded action ->
  constructed action /\ GetName action ∈ knownNames /\
  Forall is_int (intsOf action) /\ Forall validUTF8 (stringsOf action) /\
  DeserializeAction (SerializeAction action) = Decoded action.
Proof.
  intros Hdecoded.
  apply DeserializeAction_constructed in Hdecoded as (Hc & Hints & Hstrings).
  split; [done|].
  split; [|split; [done|split; [done|by apply DeserializeAction_SerializeAction]]].
  unfold knownNames. rewrite !elem_of_cons.
  destruct Hc; cbn; auto 10.
Qed.

Lemma decoded_action_is_constructed_witness :
  let action := NewActionDiscardCard (oro 12) 1 in
  DeserializeAction discardJson = Decoded action /\
  constructed action /\ DeserializeAction (SerializeAction action) = Decoded action.
Proof.
  intros action.
  assert (DeserializeAction discardJson = Decoded action) as Hdecoded
      by (vm_compute; reflexivity).
  destruct (decoded_action_is_constructed discardJson action Hdecoded)
    as (Hc & _ & _ & _ & Hround).
  split; [exact Hdecoded|]. split; [exact Hc|]. exact Hround.
Defined.

(** ** Rejections, the client view and the log *)

(** X22. The ways in which [RunAction] rejects an action are three: the
    game has ended; the round is open and the action is not the turn
    player's; or [IsPossible] answers false.  The fourth error in its code,
    an action failing in [Run] after it was found possible, never occurs. *)
Theorem RunAction_errors e action g g' err :
  RunAction e (Some action) g = Ret (g', Some err) ->
  (IsGameEnded g = true /\ err = errWrap errGameIsEnded " trying to run" action) \/
  (IsGameEnded g = false /\ IsRoundFinished g = false /\
   GetPlayerID action <> TurnPlayerID g /\ err = errNotYourTurn) \/
  (IsGameEnded g = false /\
   (IsRoundFinished g = true \/ GetPlayerID action = TurnPlayerID g) /\
   IsPossible action g = Ret false /\
   err = errWrap errActionNotPossible " trying to run" action).
Proof.
  unfold RunAction. destruct (IsGameEnded g).
  { intros [= _ <-]. by left. }
  destruct (IsRoundFinished g) eqn:Hfinished; cbn [negb andb].
  - res_unfold. destruct (IsPossible action g) as [[|]|] eqn:Hpossible; cbn [negb].
    + destruct (Run action g) as [[g1 [err1|]]|] eqn:Hrun; [| |discriminate].
      * by apply Run_possible_no_error in Hrun.
      * intros Hafter. by apply afterRun_no_error in Hafter.
    + intros [= _ <-]. right. right. auto.
    + discriminate.
  - case_bool_decide as Hplayer.
    { intros [= _ <-]. right. left. auto. }
    res_unfold. destruct (IsPossible action g) as [[|]|] eqn:Hpossible; cbn [negb].
    + destruct (Run action g) as [[g1 [err1|]]|] eqn:Hrun; [| |discriminate].
      * by apply Run_possible_no_error in Hrun.
      * intros Hafter. by apply afterRun_no_error in Hafter.
    + intros [= _ <-]. right. right. auto.
    + discriminate.
Qed.

Lemma RunAction_errors_witness :
  let action := NewActionKnock 1 in
  RunAction identityEnv (Some action) tiedGame = Ret (tiedGame, Some errNotYourTurn) /\
  ((IsGameEnded tiedGame = true /\
    errNotYourTurn = errWrap errGameIsEnded " trying to run" action) \/
   (IsGameEnded tiedGame = false /\ IsRoundFinished tiedGame = false /\
    GetPlayerID action <> TurnPlayerID tiedGame /\ errNotYourTurn = errNotYourTurn) \/
   (IsGameEnded tiedGame = false /\
    (IsRoundFinished tiedGame = true \/ GetPlayerID action = TurnPlayerID tiedGame) /\
    IsPossible action tiedGame = Ret false /\
    errNotYourTurn = errWrap errActionNotPossible " trying to run" action)).
Proof.
  intros action.
  assert (RunAction identityEnv (Some action) tiedGame = Ret (tiedGame, Some errNotYourTurn))
    as Hrun by (vm_compute; reflexivity).
  split; [exact Hrun|].
  exact (RunAction_errors identityEnv action tiedGame tiedGame errNotYourTurn Hrun).
Defined.

Lemma filter_none {A} (P : A -> Prop) `{forall x, Decision (P x)} (l : list A) :
  Forall (fun x => ~ P x) l -> filter P l = [].
Proof.
  induction 1 as [|x l Hx Hl IH]; [done|].
  rewrite filter_cons, decide_False by done. exact IH.
Qed.

Lemma currentRoundLog_firstRound g :
  firstRound g -> exists log, currentRoundLog g = Ret log.
Proof.
  intros (Hn & Hl & _). unfold currentRoundLog. rewrite decide_False by lia.
  destruct (lookup_lt_is_Some_2 (RoundsLog g) (Z.to_nat (RoundNumber g))) as [log ->];
    [lia|].
  by exists log.
Qed.

(** X24. The view that [ToClientGameState] gives to player 0 or 1 of a
    game started by [New]: the call returns; the opponent is the other
    seat; the view carries the hand, melds, score and deadwood of the viewer
    and those of the opponent, the opponent's hand card by card; its
    possible actions are the stored ones for the player to move and none for
    the other player; and its last action log is the last entry of the log
    of the round. *)
Theorem client_view e g you :
  reachable g -> you = 0 \/ you = 1 ->
  exists view p q log,
    ToClientGameState e g you = Ret view /\
    getPlayer g you = Some p /\ getPlayer g (1 - you) = Some q /\
    currentRoundLog g = Ret log /\
    YouPlayerID view = you /\ ThemPlayerID view = 1 - you /\
    YourHandCards view = handOf p /\ TheirHandCards view = handOf q /\
    YourMelds view = Melds p /\ TheirMelds view = Melds q /\
    YourScore view = Score p /\ TheirScore view = Score q /\
    YourDeadwoodPoints view = deadwoodOf p /\ TheirDeadwoodPoints view = deadwoodOf q /\
    Client_PossibleActions view =
      (if bool_decide (TurnPlayerID g = you) then PossibleActions g else []) /\
    LastActionLog view = last (ActionsLog log).
Proof.
  intros Hreach Hyou.
  pose proof (reachable_roundInv g Hreach) as (Hopen & _).
  pose proof (reachable_playInv g Hreach)
    as (Hfirst & _ & _ & (actions & Hactions & Hstored) & _).
  destruct (currentRoundLog_firstRound g Hfirst) as [log Hlog].
  assert (OpponentOf e g you = 1 - you) as Hthem.
  { destruct Hyou as [-> | ->]; by apply OpponentOf_seat. }
  assert (exists p, getPlayer g you = Some p) as [p Hp].
  { destruct Hyou as [-> | ->]; eexists; [apply getPlayer_0|apply getPlayer_1]. }
  assert (exists q, getPlayer g (1 - you) = Some q) as [q Hq].
  { destruct Hyou as [-> | ->]; eexists; [apply getPlayer_1|apply getPlayer_0]. }
  assert (Forall (fun action => GetPlayerID action = TurnPlayerID g) actions) as Hturn.
  { apply Forall_forall. intros action Hin.
    destruct (CalculatePossibleActions_spec g actions action Hactions Hin)
      as [_ [Hplayer|[Hfinished _]]]; [done|congruence]. }
  unfold ToClientGameState. rewrite Hthem, Hactions, Hp, Hq, Hlog. cbn.
  eexists _, p, q, log. split; [reflexivity|]. cbn.
  do 13 (split; [done|]). split; [|done].
  rewrite Hstored. case_bool_decide as Hmove.
  - f_equal. apply filter_all. by rewrite <- Hmove.
  - rewrite filter_none; [done|]. eapply Forall_impl; [exact Hturn|].
    intros action Hplayer. cbn. congruence.
Qed.

Lemma client_view_witness :
  exists g view,
    playFromNew identityEnv [] openingActions = Ret g /\ reachable g /\
    ToClientGameState identityEnv g 0 = Ret view /\
    YouPlayerID view = 0 /\ ThemPlayerID view = 1 - 0 /\
    Client_PossibleActions view =
      (if bool_decide (TurnPlayerID g = 0) then PossibleActions g else []).
Proof.
  assert (exists g, playFromNew identityEnv [] openingActions = Ret g) as [g Hg]
      by (vm_compute; eexists; reflexivity).
  assert (shuffles identityEnv) as He by (intros cards; reflexivity).
  assert (reachable g) as Hreach
      by exact (playFromNew_reachable identityEnv [] openingActions g He (Forall_nil_2 _) Hg).
  destruct (client_view identityEnv g 0 Hreach (or_introl eq_refl))
    as (view & p & q & log & Hview & _ & _ & _ & Hyou & Hthem & _ & _ & _ & _ & _ & _
        & _ & _ & Hactions & _).
  exists g, view. split; [exact Hg|]. split; [exact Hreach|]. split; [exact Hview|].
  split; [exact Hyou|]. split; [exact Hthem|]. exact Hactions.
Defined.

Lemma afterRun_open_log e action g g' :
  IsRoundFinished g = false -> IsGameEnded g = false ->
  GetName action <> CONFIRM_ROUND_FINISHED ->
  afterRun e action g = Ret (g', None) ->
  exists log,
    currentRoundLog g = Ret log /\
    currentRoundLog g' = Ret
      (set_ActionsLog
         (ActionsLog log ++ [mkActionLog (TurnPlayerID g) (SerializeAction action)]) log).
Proof.
  intros Hround Hended Hname. unfold afterRun. res_unfold.
  rewrite bool_decide_eq_true_2 by done.
  destruct (appendActionLog action g) as [g1|] eqn:Hlogged; [|discriminate].
  pose proof (appendActionLog_table _ _ _ Hlogged) as (Htable & _ & Hended1 & _).
  apply appendActionLog_spec in Hlogged as (log & Hlog & Hg1).
  assert (currentRoundLog g1 = Ret
            (set_ActionsLog
               (ActionsLog log ++ [mkActionLog (TurnPlayerID g) (SerializeAction action)])
               log)) as Hlog1.
  { rewrite Hg1. by eapply currentRoundLog_set. }
  assert (IsRoundFinished g1 = false) as Hround1.
  { unfold table in Htable. congruence. }
  clear Hg1. rewrite Hround1, Hended1, Hended. simpl.
  set (g2 := if YieldsTurn action g1 then _ else g1).
  assert (currentRoundLog g2 = currentRoundLog g1 /\ IsRoundFinished g2 = false)
    as [Hlog2 Hround2].
  { unfold g2. by destruct (YieldsTurn action g1). }
  clearbody g2. rewrite Hround2, andb_false_r. simpl.
  pose proof (handleEndOfGame_turnState e g2) as Hstate3.
  pose proof (handleEndOfGame_frame e g2) as Hframe3.
  generalize dependent (foldl endGameIfReached g2 (rangePlayers e)).
  intros g3 Hstate3 Hframe3.
  assert (currentRoundLog g3 = currentRoundLog g2) as Hlog3.
  { unfold turnState in Hstate3. unfold frame in Hframe3. unfold currentRoundLog.
    injection Hstate3 as -> _ _ _ _ _. injection Hframe3 as -> _ _ _ _. done. }
  destruct (CalculatePossibleActions g3); [|discriminate].
  destruct (countActionsOfTurnPlayer g3); [|discriminate].
  case_bool_decide.
  - destruct (CalculatePossibleActions (changeTurn g3)); [|discriminate].
    intros [= <-]. exists log. split; [done|].
    change (currentRoundLog g3 = Ret
              (set_ActionsLog
                 (ActionsLog log ++ [mkActionLog (TurnPlayerID g) (SerializeAction action)])
                 log)).
    congruence.
  - intros [= <-]. exists log. split; [done|].
    change (currentRoundLog g3 = Ret
              (set_ActionsLog
                 (ActionsLog log ++ [mkActionLog (TurnPlayerID g) (SerializeAction action)])
                 log)).
    congruence.
Qed.

Lemma newDeck_wf : Forall wfCard newDeck.
Proof.
  assert (newDeck = ltac:(let l := eval vm_compute in newDeck in exact l)) as ->
      by (vm_compute; reflexivity).
  repeat (constructor; [split; [unfold is_int; cbn; lia | vm_compute; reflexivity]|]).
  constructor.
Qed.

Lemma getPlayer_seat g playerID p :
  getPlayer g playerID = Some p ->
  p = Player0 (Players g) \/ p = Player1 (Players g).
Proof. unfold getPlayer. intros Hp. repeat case_decide; simplify_eq; auto. Qed.

(** In a game started by [New] every card in a hand is a card of the deck. *)
Lemma hand_in_deck g p :
  reachable g -> p = Player0 (Players g) \/ p = Player1 (Players g) ->
  handOf p ⊆ newDeck.
Proof.
  intros Hreach Hp c Hc.
  destruct (reachable_playInv g Hreach) as (_ & Hcards & _).
  rewrite <- Hcards. unfold allCards, unmelded. rewrite !elem_of_app.
  destruct Hp as [-> | ->]; auto 10.
Qed.

(** The strings of an action that is possible in a game started by [New]
    are the suits of the deck and the two meld types. *)
Lemma possible_strings_valid action g :
  reachable g -> IsPossible action g = Ret true -> Forall validUTF8 (stringsOf action).
Proof.
  intros Hreach Hpossible.
  pose proof newDeck_wf as Hdeck. rewrite Forall_forall in Hdeck.
  destruct action as [a|a|a card|a cards meldType|a|a]; cbn [stringsOf]; try constructor;
    cbn [IsPossible] in Hpossible.
  - unfold DiscardCard_IsPossible in Hpossible. res_unfold.
    destruct (_ || _); [discriminate|].
    destruct (getPlayer g (PlayerID a)) as [p|] eqn:Hp; [|discriminate].
    injection Hpossible as Hcard. apply bool_decide_eq_true in Hcard.
    apply getPlayer_seat in Hp.
    apply (hand_in_deck g p Hreach Hp), Hdeck in Hcard. apply Hcard.
  - constructor.
  - unfold MeldCards_IsPossible in Hpossible. res_unfold.
    destruct (_ || _); [discriminate|].
    destruct (getPlayer g (PlayerID a)) as [p|] eqn:Hp; [|discriminate].
    cbn in Hpossible. destruct (forallb _ cards); [|discriminate].
    cbn in Hpossible. injection Hpossible as Hvalid. unfold isValidMeld in Hvalid.
    destruct (bool_decide _); [discriminate|].
    repeat case_decide; try discriminate; subst; vm_compute; reflexivity.
  - unfold MeldCards_IsPossible in Hpossible. res_unfold.
    destruct (_ || _); [discriminate|].
    destruct (getPlayer g (PlayerID a)) as [p|] eqn:Hp; [|discriminate].
    cbn in Hpossible. destruct (forallb _ cards) eqn:Hall; [|discriminate].
    apply getPlayer_seat in Hp.
    rewrite List.Forall_map. apply Forall_forall. intros c Hc.
    rewrite forallb_forall in Hall.
    apply list_elem_of_In, Hall, bool_decide_eq_true in Hc.
    apply (hand_in_deck g p Hreach Hp), Hdeck in Hc. apply Hc.
Qed.

(** X25. After [RunAction] has accepted an action, built by one of the
    constructors, on a game started by [New], the log of the round is the
    log of before with one more entry, which records the action for the
    player who sent it; [_deserializeCurrentRoundLastAction] reads that
    very action back, and [_deserializeCurrentRoundActions] reads what it
    read before followed by that action. *)
Theorem last_action_is_logged e action g g' :
  reachable g -> constructed action -> Forall is_int (intsOf action) ->
  RunAction e (Some action) g = Ret (g', None) ->
  exists old log,
    currentRoundLog g = Ret old /\ currentRoundLog g' = Ret log /\
    ActionsLog log =
      ActionsLog old ++ [mkActionLog (GetPlayerID action) (SerializeAction action)] /\
    _deserializeCurrentRoundLastAction g' = Ret (Some action) /\
    exists actions,
      _deserializeCurrentRoundActions g = Ret actions /\
      _deserializeCurrentRoundActions g' = Ret (actions ++ [Some action]).
Proof.
  intros Hreach Hc Hints Hrun.
  pose proof (reachable_roundInv g Hreach) as (Hopen & Hdiscarded & _).
  apply RunAction_success in Hrun as (Hended & Hpossible & g1 & Hrun & Hafter).
  pose proof (possible_strings_valid _ _ Hreach Hpossible) as Hstrings.
  assert (GetPlayerID action = TurnPlayerID g) as Hplayer.
  { destruct action as [a|a|a card|a cards meldType|a|a]; cbn [IsPossible] in Hpossible;
      unfold GetPlayerID; cbn [act_of].
    - unfold DrawFromDrawPile_IsPossible in Hpossible.
      destruct (bool_decide _) eqn:Hturn; [|discriminate].
      by apply bool_decide_eq_true in Hturn.
    - unfold DrawFromDiscardPile_IsPossible in Hpossible.
      destruct (bool_decide _) eqn:Hturn; [|discriminate].
      by apply bool_decide_eq_true in Hturn.
    - unfold DiscardCard_IsPossible in Hpossible.
      destruct (bool_decide _) eqn:Hturn; [discriminate|].
      apply bool_decide_eq_false in Hturn. by apply dec_stable in Hturn.
    - unfold MeldCards_IsPossible in Hpossible.
      destruct (bool_decide _) eqn:Hturn; [discriminate|].
      apply bool_decide_eq_false in Hturn. by apply dec_stable in Hturn.
    - unfold Knock_IsPossible in Hpossible.
      destruct (bool_decide _) eqn:Hturn; [discriminate|].
      apply bool_decide_eq_false in Hturn. by apply dec_stable in Hturn.
    - unfold ConfirmRoundFinished_IsPossible in Hpossible. congruence. }
  assert (GetName action <> CONFIRM_ROUND_FINISHED) as Hname.
  { destruct Hc; try discriminate.
    cbn in Hpossible. unfold ConfirmRoundFinished_IsPossible in Hpossible. congruence. }
  pose proof (Run_open_ledger _ _ _ Hopen Hdiscarded Hrun) as [Hledger Hopen1].
  unfold ledger in Hledger.
  assert (TurnPlayerID g1 = TurnPlayerID g /\ IsGameEnded g1 = IsGameEnded g /\
          currentRoundLog g1 = currentRoundLog g)
    as (Hturn1 & Hended1 & Hsame).
  { unfold currentRoundLog. remember (frame g1) as f1. remember (frame g) as f.
    injection Hledger as Hframe -> -> _ _ _ -> _. subst f1 f.
    unfold frame in Hframe. injection Hframe as -> _ _ _ _. done. }
  rewrite Hended in Hended1.
  destruct (afterRun_open_log _ _ _ _ Hopen1 Hended1 Hname Hafter) as (old & Hold & Hlog').
  rewrite Hsame in Hold. rewrite Hturn1, <- Hplayer in Hlog'.
  exists old. eexists. split; [exact Hold|]. split; [exact Hlog'|].
  cbn [ActionsLog set_ActionsLog]. split; [done|]. split.
  - unfold _deserializeCurrentRoundLastAction. rewrite Hlog'. cbn [mbind res_bind].
    cbn [ActionsLog set_ActionsLog]. rewrite last_snoc. cbn.
    unfold deserializeOrNil. by rewrite DeserializeAction_SerializeAction.
  - unfold _deserializeCurrentRoundActions. rewrite Hold, Hlog'. cbn [mbind res_bind].
    eexists. split; [reflexivity|]. cbn [ActionsLog set_ActionsLog].
    rewrite map_app. cbn [map ActionLog_Action].
    unfold deserializeOrNil at 2. by rewrite DeserializeAction_SerializeAction.
Qed.

Lemma last_action_is_logged_witness :
  let action := NewActionDrawFromDrawPile 1 in
  exists g g',
    New identityEnv [] = Ret g /\ reachable g /\
    constructed action /\ Forall is_int (intsOf action) /\
    RunAction identityEnv (Some action) g = Ret (g', None) /\
    _deserializeCurrentRoundLastAction g' = Ret (Some action).
Proof.
  intros action.
  assert (exists g g',
            New identityEnv [] = Ret g /\
            RunAction identityEnv (Some action) g = Ret (g', None))
    as (g & g' & Hg & Hrun)
    by (eexists _, _; split; [vm_compute; reflexivity | lazy; reflexivity]).
  assert (shuffles identityEnv) as He by (intros cards; reflexivity).
  assert (reachable g) as Hreach
      by exact (reachable_New identityEnv [] g He (Forall_nil_2 _) Hg).
  assert (constructed action) as Hc by constructor.
  assert (Forall is_int (intsOf action)) as Hints.
  { change (Forall is_int [1]). constructor; [unfold is_int; lia|constructor]. }
  destruct (last_action_is_logged identityEnv action g g' Hreach Hc Hints Hrun)
    as (old & log & _ & _ & _ & Hlast & _).
  exists g, g'. split; [exact Hg|]. split; [exact Hreach|]. split; [exact Hc|].
  split; [exact Hints|]. split; [exact Hrun|]. exact Hlast.
Defined.

Lemma deadwood_filter_le (P : Card -> Prop) `{forall c, Decision (P c)} hand melds melds' :
  meldedCards melds ⊆ meldedCards melds' ->
  calculateDeadwoodPoints (filter P hand) melds' <= calculateDeadwoodPoints hand melds.
Proof.
  intros Hsub. induction hand as [|card hand IH]; [done|].
  rewrite filter_cons, (calculateDeadwoodPoints_cons card hand).
  pose proof (cardPoints_bounds card).
  destruct (decide (P card)).
  - rewrite calculateDeadwoodPoints_cons.
    repeat case_bool_decide; try lia. exfalso. auto.
  - case_bool_decide; lia.
Qed.

(** X21. A meld that [RunAction] accepts, which needs no draw before it:
    the cards form a valid meld and were in the hand of the player; they
    leave the hand and the meld is added after the player's other melds; the
    deadwood of the player does not grow; the piles stay, both turn flags
    are down afterwards, and the turn passes to the opponent whenever a pile
    still holds a card. *)
Theorem RunAction_meld e a cards meldType g g' :
  RunAction e (Some (ActionMeldCards a cards meldType)) g = Ret (g', None) ->
  exists p p',
    getPlayer g (PlayerID a) = Some p /\ getPlayer g' (PlayerID a) = Some p' /\
    isValidMeld cards meldType = true /\ cards ⊆ handOf p /\
    handOf p' = filter (fun c => c ∉ cards) (handOf p) /\
    Melds p' = Melds p ++ [mkMeld meldType cards] /\
    deadwoodOf p' <= deadwoodOf p /\
    DrawPile g' = DrawPile g /\ DiscardPile g' = DiscardPile g /\
    HasDrawnThisTurn g' = false /\ HasDiscardedThisTurn g' = false /\
    (IsEmpty (DrawPile g) = false \/ IsEmpty (DiscardPile g) = false ->
     TurnPlayerID g' = TurnOpponentPlayerID g /\
     TurnOpponentPlayerID g' = TurnPlayerID g).
Proof.
  intros Hrun.
  apply RunAction_success in Hrun as (Hended & Hpossible & g1 & Hrun & Hafter).
  cbn [IsPossible Run] in Hpossible, Hrun.
  unfold MeldCards_Run in Hrun. rewrite Hpossible in Hrun. cbn in Hrun.
  unfold MeldCards_IsPossible in Hpossible.
  destruct (_ || _) eqn:Hguard; [discriminate|].
  apply orb_false_iff in Hguard as [Hturn Hopen].
  apply bool_decide_eq_false in Hturn. apply dec_stable in Hturn.
  destruct (getPlayer g (PlayerID a)) as [p|] eqn:Hp; [|discriminate].
  cbn in Hpossible, Hrun.
  destruct (forallb _ cards) eqn:Hall; [|discriminate]. cbn in Hpossible.
  injection Hpossible as Hvalid.
  assert (cards ⊆ handOf p) as Hsub.
  { intros c Hc. rewrite forallb_forall in Hall.
    apply list_elem_of_In, Hall, bool_decide_eq_true in Hc. exact Hc. }
  assert (exists p1,
            g1 = setPlayer (PlayerID a) p1 g /\
            handOf p1 = filter (fun c => c ∉ cards) (handOf p) /\
            Melds p1 = Melds p ++ [mkMeld meldType cards]) as (p1 & Hg1 & Hhand1 & Hmelds1).
  { clear Hafter. player_cases a; try done; cbn in Hrun; simplify_eq;
      eexists; (split; [reflexivity|]); done. }
  assert (IsRoundFinished g1 = false /\ IsGameEnded g1 = false /\
          TurnPlayerID g1 = TurnPlayerID g /\
          TurnOpponentPlayerID g1 = TurnOpponentPlayerID g /\
          DrawPile g1 = DrawPile g /\ DiscardPile g1 = DiscardPile g /\
          getPlayer g1 (PlayerID a) = Some p1)
    as (Hopen1 & Hended1 & Ht1 & Ho1 & Hdraw1 & Hdisc1 & Hp1).
  { rewrite Hg1. clear Hafter Hrun. player_cases a; done. }
  clear Hrun Hg1.
  destruct (afterRun_open_turn _ _ _ _ Hopen1 Hended1 Hafter)
    as (g3 & actions & count & Htable3 & Hturn3 & Hactions & Hcount & Htable' & Hturn').
  cbn [YieldsTurn] in Hturn3.
  destruct (getPlayer_table _ _ _ _ Htable' Hp1) as (p' & Hp' & Hhand' & Hmelds').
  unfold table in Htable3, Htable'.
  injection Htable3 as Hdraw3 Hdisc3 _ _ _ _ Hopen3.
  injection Htable' as Hdraw Hdisc _ _ _ _ _.
  unfold turnOf in Hturn3. injection Hturn3 as Ht3 Ho3 Hdrawn3 Hdiscarded3.
  assert (handOf p' = filter (fun c => c ∉ cards) (handOf p)) as Hfilter.
  { unfold handOf in *. congruence. }
  exists p, p'. split; [done|]. split; [done|]. split; [done|]. split; [done|].
  split; [done|]. split; [congruence|]. split.
  { unfold deadwoodOf. rewrite Hfilter, Hmelds', Hmelds1.
    apply deadwood_filter_le. rewrite meldedCards_snoc. intros c Hc.
    apply elem_of_app. by left. }
  split; [congruence|]. split; [congruence|].
  assert (HasDrawnThisTurn g' = false /\ HasDiscardedThisTurn g' = false) as [Hd1 Hd2].
  { unfold turnOf in Hturn'. case_bool_decide; injection Hturn' as _ _ -> ->; done. }
  split; [done|]. split; [done|].
  intros Hpiles.
  assert (count ≠ 0%nat) as Hpositive.
  { apply (next_player_can_draw g3 actions count); try done; [congruence|].
    rewrite Hdraw3, Hdisc3, Hdraw1, Hdisc1. exact Hpiles. }
  rewrite bool_decide_eq_false_2 in Hturn' by done.
  unfold turnOf in Hturn'. injection Hturn' as Ht Ho _ _.
  split; congruence.
Qed.

Lemma RunAction_meld_witness :
  let cards := [copa 1; copa 2; copa 3] in
  exists g g' p',
    playFromNew identityEnv [] beforeMeld = Ret g /\
    RunAction identityEnv (Some (NewActionMeldCards cards MeldTypeRun 0)) g = Ret (g', None) /\
    getPlayer g' 0 = Some p' /\ isValidMeld cards MeldTypeRun = true.
Proof.
  intros cards.
  assert (exists g g',
            playFromNew identityEnv [] beforeMeld = Ret g /\
            RunAction identityEnv (Some (NewActionMeldCards cards MeldTypeRun 0)) g
              = Ret (g', None))
    as (g & g' & Hg & Hrun)
    by (eexists _, _; split; [vm_compute; reflexivity | lazy; reflexivity]).
  destruct (RunAction_meld identityEnv (mkAct MELD_CARDS 0) cards MeldTypeRun g g' Hrun)
    as (p & p' & _ & Hp' & Hvalid & _).
  exists g, g', p'. split; [exact Hg|]. split; [exact Hrun|]. split; [exact Hp'|].
  exact Hvalid.
Defined.

(** ** The knock and the deadwood of the spec *)

Lemma spec_covered_melded melds card :
  spec_covered melds card <-> card ∈ meldedCards melds.
Proof.
  unfold spec_covered, meldedCards.
  rewrite Exists_exists, list_elem_of_In, in_concat. split.
  - intros (meld & Hmeld & Hcard). exists (Meld_Cards meld).
    split; [apply in_map|]; by apply list_elem_of_In.
  - intros (cards & Hcards & Hcard).
    apply in_map_iff in Hcards as (meld & <- & Hmeld).
    exists meld. split; by apply list_elem_of_In.
Qed.

(** [calculateDeadwoodPoints] computes the deadwood of the spec wherever the
    spec defines one. *)
Lemma spec_deadwood_refined hand melds : forall d,
  spec_deadwood hand melds = Some d -> calculateDeadwoodPoints hand melds = d.
Proof.
  induction hand as [|card hand IH]; intros d; cbn [spec_deadwood].
  - by intros [= <-].
  - rewrite calculateDeadwoodPoints_cons. case_decide as Hcovered.
    + rewrite bool_decide_eq_true_2 by by apply spec_covered_melded.
      intros Hd. rewrite (IH d Hd). lia.
    + rewrite bool_decide_eq_false_2 by by rewrite <- spec_covered_melded.
      destruct (spec_pointValue card) as [value|] eqn:Hvalue; [|discriminate].
      destruct (spec_deadwood hand melds) as [total|]; [|discriminate].
      cbn. intros [= <-]. rewrite (IH total eq_refl). f_equal.
      unfold spec_pointValue in Hvalue. unfold cardPoints.
      destruct (decide (1 <= Number card <= 7)) as [Hrank|Hrank].
      * injection Hvalue as <-. by rewrite !bool_decide_eq_true_2 by lia.
      * destruct (decide (10 <= Number card <= 12)); [|discriminate].
        injection Hvalue as <-.
        rewrite (bool_decide_eq_false_2 (Number card <= 7)) by lia.
        by rewrite andb_false_r.
Qed.

(** The spec gives a deadwood to every hand of cards of the deck. *)
Lemma spec_deadwood_deck hand melds :
  hand ⊆ newDeck -> is_Some (spec_deadwood hand melds).
Proof.
  assert (Forall (fun c => is_Some (spec_pointValue c)) newDeck) as Hdeck.
  { assert (newDeck = ltac:(let l := eval vm_compute in newDeck in exact l)) as ->
        by (vm_compute; reflexivity).
    repeat (constructor; [vm_compute; eauto|]). constructor. }
  rewrite Forall_forall in Hdeck.
  induction hand as [|card hand IH]; intros Hsub; cbn [spec_deadwood]; [eauto|].
  destruct IH as [total Htotal]; [set_solver|]. rewrite Htotal.
  case_decide; [eauto|].
  destruct (Hdeck card) as [value ->]; [set_solver|]. cbn. eauto.
Qed.

(** C6. Knock legality bound, with the deadwood measured as the spec words
    it.  The code's [calculateDeadwoodPoints] returns the deadwood of the
    spec wherever the spec defines one.  For a player with such a deadwood,
    the knock is possible exactly when the actor is the turn player, has
    drawn and discarded this turn, the round is not finished and that
    deadwood is at most 10.  So whenever [RunAction] applies a knock, in
    whatever state, the knocker's deadwood at that moment is at most 10.
    In a game started by [New] the hands hold cards of the deck, so the
    spec defines the deadwood of both players in every state. *)
Theorem knock_deadwood_bound :
  (forall hand melds d,
      spec_deadwood hand melds = Some d -> calculateDeadwoodPoints hand melds = d) /\
  (forall a g p d,
      getPlayer g (PlayerID a) = Some p ->
      spec_deadwood (handOf p) (Melds p) = Some d ->
      (IsPossible (ActionKnock a) g = Ret true <->
       TurnPlayerID g = PlayerID a /\ HasDrawnThisTurn g = true /\
       HasDiscardedThisTurn g = true /\ IsRoundFinished g = false /\ d <= 10)) /\
  (forall e a g g',
      RunAction e (Some (ActionKnock a)) g = Ret (g', None) ->
      exists p, getPlayer g (PlayerID a) = Some p /\
                forall d, spec_deadwood (handOf p) (Melds p) = Some d -> d <= 10) /\
  (forall g p,
      reachable g -> p = Player0 (Players g) \/ p = Player1 (Players g) ->
      is_Some (spec_deadwood (handOf p) (Melds p))).
Proof.
  split; [|split; [|split]].
  - intros hand melds d. apply spec_deadwood_refined.
  - intros a g p d Hp Hd. apply spec_deadwood_refined in Hd.
    change (IsPossible (ActionKnock a) g) with (Knock_IsPossible a g).
    rewrite Knock_IsPossible_spec. unfold deadwoodOf. split.
    + intros (? & ? & ? & ? & p' & Hp' & Hle). rewrite Hp in Hp'.
      injection Hp' as <-. rewrite Hd in Hle. done.
    + intros (? & ? & ? & ? & Hle). do 4 (split; [done|]).
      exists p. split; [done|]. by rewrite Hd.
  - intros e a g g' Hrun. apply RunAction_success in Hrun as (_ & Hpossible & _).
    apply Knock_IsPossible_spec in Hpossible as (_ & _ & _ & _ & p & Hp & Hle).
    exists p. split; [done|]. intros d Hd.
    apply spec_deadwood_refined in Hd. unfold deadwoodOf in Hle. by rewrite Hd in Hle.
  - intros g p Hreach Hp. apply spec_deadwood_deck. by apply (hand_in_deck g).
Qed.

Lemma knock_deadwood_bound_witness :
  let p := Player0 (Players tiedGame) in
  exists g',
    getPlayer tiedGame 0 = Some p /\
    spec_deadwood (handOf p) (Melds p) = Some 10 /\
    calculateDeadwoodPoints (handOf p) (Melds p) = 10 /\
    IsPossible (NewActionKnock 0) tiedGame = Ret true /\
    RunAction identityEnv (Some (NewActionKnock 0)) tiedGame = Ret (g', None).
Proof.
  intros p.
  assert (exists g', RunAction identityEnv (Some (NewActionKnock 0)) tiedGame = Ret (g', None))
    as [g' Hrun] by (vm_compute; eexists; reflexivity).
  assert (getPlayer tiedGame 0 = Some p) as Hp by reflexivity.
  assert (spec_deadwood (handOf p) (Melds p) = Some 10) as Hd by (vm_compute; reflexivity).
  destruct knock_deadwood_bound as (Hrefined & Hlegal & _).
  exists g'. split; [exact Hp|]. split; [exact Hd|].
  split; [exact (Hrefined _ _ _ Hd)|]. split; [|exact Hrun].
  apply (Hlegal (mkAct KNOCK 0) tiedGame p 10 Hp Hd).
  split; [reflexivity|]. split; [reflexivity|]. split; [reflexivity|].
  split; [reflexivity|]. lia.
Defined.
